(** * riotprompt: provider adapters and filesystem loader

    A shallow embedding of
    - [src/execution/gemini.ts]    (the schema converter [mapSchema], [execute]),
    - [src/execution/proxy-gemini.ts] (the proxied [fetch]),
    - [src/execution/anthropic.ts] (request shaping and response extraction),
    - the OpenAI provider          (request shaping),
    - [src/loader.ts]              (ignore patterns, heading extraction, [load]),
    - [src/cli.ts]                 (a prompt from a directory),
    - [src/logging-config.ts]      (the masking configuration),
    - [src/mcp/prompts/index.ts]   (the prompt templates),
    together with the properties of these functions that the specification
    relies on, and further laws of theirs.

    Conventions.  A JavaScript string is a [string] of ASCII characters;
    characters above 127 are kept as opaque, caseless, non-blank characters.
    A JavaScript number is an integer, or [NaN] where the code can be
    given one.  An object is the list of its own enumerable properties in
    property order; its prototype is not part of it. *)

From Stdlib Require Import String Ascii ZArith List Bool Arith Lia.
From stdpp Require Import base tactics option list strings gmap.

Local Open Scope string_scope.
Local Open Scope nat_scope.
Local Open Scope list_scope.

(** ** Strings *)

Module Str.

Definition of_list (cs : list ascii) : string := string_of_list_ascii cs.
Definition to_list (s : string) : list ascii := list_ascii_of_string s.

Definition code (c : ascii) : nat := nat_of_ascii c.

(** [c.toUpperCase()] on one ASCII character. *)
Definition upper_char (c : ascii) : ascii :=
  if (97 <=? code c) && (code c <=? 122) then ascii_of_nat (code c - 32) else c.

(** [c.toLowerCase()] on one ASCII character. *)
Definition lower_char (c : ascii) : ascii :=
  if (65 <=? code c) && (code c <=? 90) then ascii_of_nat (code c + 32) else c.

(** [String.prototype.toUpperCase]. *)
Fixpoint toUpperCase (s : string) : string :=
  match s with
  | EmptyString => EmptyString
  | String c s' => String (upper_char c) (toUpperCase s')
  end.

(** Line terminators of the ECMAScript grammar that fit the character set. *)
Definition is_line_terminator (c : ascii) : bool :=
  (code c =? 10) || (code c =? 13).

(** The characters matched by [\s] and removed by [trim]: tab, line feed,
    vertical tab, form feed, carriage return and space. *)
Definition is_space (c : ascii) : bool :=
  ((9 <=? code c) && (code c <=? 13)) || (code c =? 32).

Fixpoint drop_space (cs : list ascii) : list ascii :=
  match cs with
  | c :: cs' => if is_space c then drop_space cs' else cs
  | [] => []
  end.

(** [String.prototype.trim]. *)
Definition trim (s : string) : string :=
  of_list (rev (drop_space (rev (drop_space (to_list s))))).

Definition all_space (s : string) : bool := forallb is_space (to_list s).

(** [s.endsWith(suffix)]. *)
Definition endsWith (s suffix : string) : bool :=
  let n := String.length s in
  let m := String.length suffix in
  (m <=? n) && String.eqb (substring (n - m) m s) suffix.

Definition digit (d : nat) : ascii := ascii_of_nat (48 + d).

Fixpoint decimal (fuel n : nat) (acc : string) : string :=
  match fuel with
  | 0 => acc
  | S fuel' =>
      let acc' := String (digit (n mod 10)) acc in
      if n <? 10 then acc' else decimal fuel' (n / 10) acc'
  end.

(** [String(i)] for an array index [i]. *)
Definition index_key (i : nat) : string := decimal (S i) i "".

Definition is_digit (c : ascii) : bool := (48 <=? code c) && (code c <=? 57).

Definition starts_with_digit (s : string) : bool :=
  match s with
  | String c _ => is_digit c
  | EmptyString => false
  end.

Lemma digit_is_digit d : d < 10 -> is_digit (digit d) = true.
Proof.
  intros Hd. do 10 (destruct d as [|d]; [reflexivity|]). lia.
Qed.

Lemma digit_mod n : is_digit (digit (n mod 10)) = true.
Proof. apply digit_is_digit, Nat.mod_upper_bound. lia. Qed.

Lemma decimal_head fuel n acc :
  decimal fuel n acc = acc \/ starts_with_digit (decimal fuel n acc) = true.
Proof.
  revert n acc. induction fuel as [|fuel IH]; intros n acc; [now left|].
  right. cbn [decimal]. destruct (n <? 10).
  - apply digit_mod.
  - destruct (IH (n / 10) (String (digit (n mod 10)) acc)) as [-> | H]; [|exact H].
    apply digit_mod.
Qed.

Lemma index_key_digit i : starts_with_digit (index_key i) = true.
Proof.
  unfold index_key.
  destruct (decimal_head (S i) i "") as [H | H]; [|exact H].
  exfalso. cbn [decimal] in H. destruct (i <? 10); [discriminate|].
  destruct (decimal_head i (i / 10) (String (digit (i mod 10)) "")) as [H' | H'].
  - rewrite H' in H. discriminate.
  - rewrite H in H'. discriminate.
Qed.

Lemma of_to_list s : of_list (to_list s) = s.
Proof. apply string_of_list_ascii_of_string. Qed.

Lemma to_of_list cs : to_list (of_list cs) = cs.
Proof. apply list_ascii_of_string_of_list_ascii. Qed.

Lemma to_list_app s t : to_list (s +:+ t) = to_list s ++ to_list t.
Proof. induction s as [|c s IH]; simpl; [reflexivity|]. now rewrite IH. Qed.

Lemma drop_space_all cs : forallb is_space cs = true -> drop_space cs = [].
Proof.
  induction cs as [|c cs IH]; simpl; [reflexivity|].
  intros H. apply andb_true_iff in H as [-> H]. auto.
Qed.

Lemma drop_space_nil_inv cs : drop_space cs = [] -> forallb is_space cs = true.
Proof.
  induction cs as [|c cs IH]; simpl; [reflexivity|].
  destruct (is_space c); simpl; [exact IH | discriminate].
Qed.

Lemma trim_all_space s : all_space s = true -> trim s = "".
Proof.
  unfold all_space, trim. intros H. now rewrite (drop_space_all _ H).
Qed.

Lemma trim_empty_inv s : trim s = "" -> all_space s = true.
Proof.
  unfold all_space, trim. intros H.
  apply (f_equal to_list) in H. rewrite to_of_list in H. simpl in H.
  apply (f_equal (@rev ascii)) in H. rewrite rev_involutive in H. simpl in H.
  apply drop_space_nil_inv in H.
  assert (Hd : exists pre, to_list s = pre ++ drop_space (to_list s)
                           /\ forallb is_space pre = true).
  { generalize (to_list s). intros cs. induction cs as [|c cs IH]; simpl.
    - exists []. split; reflexivity.
    - destruct (is_space c) eqn:E.
      + destruct IH as [pre [H1 H2]]. exists (c :: pre). simpl.
        rewrite E, H2. split; [now rewrite <- H1 | reflexivity].
      + exists []. split; reflexivity. }
  destruct Hd as [pre [H1 H2]]. rewrite H1, forallb_app, H2. simpl.
  apply forallb_forall. intros x Hx.
  apply (proj1 (forallb_forall _ _) H). now apply in_rev in Hx.
Qed.

End Str.

(** ** Property lists *)

(** An object's own enumerable properties, in property order.  Should a
    list name a key twice, the later entry is the property's value, as in
    [JSON.parse]. *)
Module Props.
Section Props.
Context {A : Type}.

Fixpoint get (k : string) (o : list (string * A)) : option A :=
  match o with
  | [] => None
  | kv :: o' =>
      match get k o' with
      | Some w => Some w
      | None => if String.eqb (fst kv) k then Some (snd kv) else None
      end
  end.

Definition has (k : string) (o : list (string * A)) : bool :=
  existsb (fun kv => String.eqb (fst kv) k) o.

(** [o[k] = v]: an existing property keeps its place, a new one goes last. *)
Definition set (k : string) (v : A) (o : list (string * A)) : list (string * A) :=
  if has k o
  then map (fun kv => if String.eqb (fst kv) k then (fst kv, v) else kv) o
  else o ++ [(k, v)].

(** [delete o[k]] *)
Definition delete (k : string) (o : list (string * A)) : list (string * A) :=
  List.filter (fun kv => negb (String.eqb (fst kv) k)) o.

(** The elements of an array (the characters of a string) under their
    indices. *)
Fixpoint indexed (i : nat) (xs : list A) : list (string * A) :=
  match xs with
  | [] => []
  | x :: xs' => (Str.index_key i, x) :: indexed (S i) xs'
  end.

Lemma get_In k o v : get k o = Some v -> In (k, v) o.
Proof.
  induction o as [|[k' w] o IH]; simpl; [discriminate|].
  destruct (get k o) as [u|].
  - intros [= ->]. right. now apply IH.
  - destruct (String.eqb_spec k' k) as [->|]; [|discriminate].
    intros [= ->]. now left.
Qed.

Lemma get_app k o1 o2 :
  get k (o1 ++ o2) = match get k o2 with Some w => Some w | None => get k o1 end.
Proof.
  induction o1 as [|[k' w] o1 IH]; simpl.
  - now destruct (get k o2).
  - rewrite IH. now destruct (get k o2).
Qed.

Lemma has_false_get k o : has k o = false -> get k o = None.
Proof.
  unfold has. induction o as [|[k' w] o IH]; simpl; [reflexivity|].
  intros H. apply orb_false_iff in H as [H1 H2]. now rewrite (IH H2), H1.
Qed.

Lemma get_map_set k k' v o :
  get k' (map (fun kv : string * A =>
                 if String.eqb (fst kv) k then (fst kv, v) else kv) o) =
  if String.eqb k k' then (if has k o then Some v else None) else get k' o.
Proof.
  unfold has. induction o as [|[k0 w] o IH]; simpl.
  - now destruct (String.eqb k k').
  - rewrite IH. destruct (String.eqb_spec k k') as [<-|Hne].
    + destruct (existsb _ o); [now rewrite orb_true_r|].
      rewrite orb_false_r. destruct (String.eqb_spec k0 k) as [->|]; simpl.
      * now rewrite String.eqb_refl.
      * now destruct (String.eqb_spec k0 k).
    + destruct (get k' o); [reflexivity|].
      destruct (String.eqb_spec k0 k) as [->|]; simpl; [|reflexivity].
      now destruct (String.eqb_spec k k').
Qed.

Lemma get_set k k' v o :
  get k' (set k v o) = if String.eqb k k' then Some v else get k' o.
Proof.
  unfold set. destruct (has k o) eqn:Hh.
  - now rewrite get_map_set, Hh.
  - rewrite get_app. simpl. destruct (String.eqb_spec k k') as [<-|Hne]; [reflexivity|].
    reflexivity.
Qed.

Lemma get_set_eq k v o : get k (set k v o) = Some v.
Proof. now rewrite get_set, String.eqb_refl. Qed.

Lemma get_set_ne k k' v o : k <> k' -> get k' (set k v o) = get k' o.
Proof. intros H. rewrite get_set. now destruct (String.eqb_spec k k'). Qed.

Lemma get_delete k k' o :
  get k' (delete k o) = if String.eqb k k' then None else get k' o.
Proof.
  unfold delete. induction o as [|[k0 w] o IH]; simpl.
  - now destruct (String.eqb k k').
  - destruct (String.eqb_spec k0 k) as [->|Hne]; simpl; rewrite IH.
    + destruct (String.eqb_spec k k'); [reflexivity|]. now destruct (get k' o).
    + destruct (String.eqb_spec k k') as [<-|]; [|reflexivity].
      now destruct (String.eqb_spec k0 k).
Qed.

Lemma has_indexed_digit k i (xs : list A) :
  Str.starts_with_digit k = false -> has k (indexed i xs) = false.
Proof.
  intros Hk. unfold has. revert i.
  induction xs as [|x xs IH]; intros i; simpl; [reflexivity|].
  rewrite IH, orb_false_r.
  destruct (String.eqb_spec (Str.index_key i) k) as [E|]; [|reflexivity].
  rewrite <- E, Str.index_key_digit in Hk. discriminate.
Qed.

Lemma In_indexed k (x : A) i xs : In (k, x) (indexed i xs) -> In x xs.
Proof.
  revert i. induction xs as [|y xs IH]; intros i; simpl; [tauto|].
  intros [[= _ ->]|H]; [now left | right; eauto].
Qed.

End Props.
End Props.

(** ** JavaScript values *)

Set Warnings "-register-all".

Module JS.
Export Props.

(** The values a parsed JSON document is made of, and [undefined]. *)
Inductive value : Type :=
| VUndefined
| VNull
| VBool (b : bool)
| VNum (n : Z)
| VStr (s : string)
| VArr (elems : list value)
| VObj (props : list (string * value)).

Abbreviation object := (list (string * value)).

(** [!!v] *)
Definition truthy (v : value) : bool :=
  match v with
  | VUndefined | VNull => false
  | VBool b => b
  | VNum n => negb (n =? 0)%Z
  | VStr s => negb (String.eqb s "")
  | VArr _ | VObj _ => true
  end.

(** [o.k], or [o[k]] *)
Definition prop (k : string) (o : object) : value := default VUndefined (get k o).

Definition chars (s : string) : list value :=
  map (fun c => VStr (String c "")) (Str.to_list s).

(** The own enumerable properties that [{ ...v }] copies and
    [Object.entries(v)] lists: the properties of an object, the elements of
    an array under their indices, the characters of a string under theirs,
    and nothing for the other primitives. *)
Definition own_entries (v : value) : object :=
  match v with
  | VObj o => o
  | VArr xs => indexed 0 xs
  | VStr s => indexed 0 (chars s)
  | _ => []
  end.

Fixpoint size (v : value) : nat :=
  match v with
  | VArr xs => S (list_sum (map size xs))
  | VObj o => S (list_sum (map (fun kv => size (snd kv)) o))
  | _ => 1
  end.

(** Does key [k] occur in some object of [v], at any depth? *)
Fixpoint mentions (k : string) (v : value) : bool :=
  match v with
  | VArr xs => existsb (mentions k) xs
  | VObj o => existsb (fun kv => String.eqb (fst kv) k || mentions k (snd kv)) o
  | _ => false
  end.

Lemma size_pos v : 1 <= size v.
Proof. destruct v; simpl; lia. Qed.

(** A property whose name is not an array index is found in objects only,
    and is smaller than the object. *)
Lemma get_own_entries_lt k s p :
  Str.starts_with_digit k = false ->
  get k (own_entries s) = Some p -> size p < size s.
Proof.
  intros Hk Hg. destruct s as [| | | | str | xs | o]; simpl in Hg; try discriminate.
  - rewrite has_false_get in Hg; [discriminate|]. now apply has_indexed_digit.
  - rewrite has_false_get in Hg; [discriminate|]. now apply has_indexed_digit.
  - apply get_In in Hg. simpl.
    induction o as [|[k0 w] o IH]; [destruct Hg|].
    destruct Hg as [[= -> ->]|Hg]; simpl; [lia|]. specialize (IH Hg). lia.
Qed.

Lemma In_own_entries_le k v p : In (k, v) (own_entries p) -> size v <= size p.
Proof.
  destruct p as [| | | | str | xs | o]; simpl; try tauto.
  - intros H. apply In_indexed in H. unfold chars in H.
    apply in_map_iff in H as [c [<- _]]. simpl. lia.
  - intros H. apply In_indexed in H.
    induction xs as [|y xs IH]; [destruct H|].
    destruct H as [->|H]; simpl; [lia|]. specialize (IH H). simpl in IH. lia.
  - intros H. induction o as [|[k0 w] o IH]; [destruct H|].
    destruct H as [[= -> ->]|H]; simpl; [lia|]. specialize (IH H). simpl in IH. lia.
Qed.

End JS.

(** ** [JSON.stringify] *)

Module JSON.
Import JS.

Definition nl : string := String (ascii_of_nat 10) "".
Definition dquote : string := String (ascii_of_nat 34) "".
Definition backslash : string := String (ascii_of_nat 92) "".

Definition hex_digit (n : nat) : ascii :=
  if n <? 10 then ascii_of_nat (48 + n) else ascii_of_nat (87 + n).

(** One character of a quoted JSON string. *)
Definition escape (c : ascii) : string :=
  let n := Str.code c in
  if n =? 34 then backslash +:+ dquote
  else if n =? 92 then backslash +:+ backslash
  else if n =? 8 then backslash +:+ "b"
  else if n =? 9 then backslash +:+ "t"
  else if n =? 10 then backslash +:+ "n"
  else if n =? 12 then backslash +:+ "f"
  else if n =? 13 then backslash +:+ "r"
  else if n <? 32
       then backslash +:+ "u00" +:+ String (hex_digit (n / 16)) (String (hex_digit (n mod 16)) "")
  else String c "".

Fixpoint escape_all (s : string) : string :=
  match s with
  | EmptyString => EmptyString
  | String c s' => escape c +:+ escape_all s'
  end.

Definition quote (s : string) : string := dquote +:+ escape_all s +:+ dquote.

Definition number_to_string (n : Z) : string :=
  if (n <? 0)%Z then "-" +:+ Str.index_key (Z.to_nat (- n)) else Str.index_key (Z.to_nat n).

Fixpoint join (sep : string) (parts : list string) : string :=
  match parts with
  | [] => ""
  | [p] => p
  | p :: ps => p +:+ sep +:+ join sep ps
  end.

Definition wrap (gap indent inner opening closing : string) (parts : list string) : string :=
  match parts with
  | [] => opening +:+ closing
  | _ =>
      if String.eqb gap ""
      then opening +:+ join "," parts +:+ closing
      else opening +:+ nl +:+ inner +:+ join ("," +:+ nl +:+ inner) parts
           +:+ nl +:+ indent +:+ closing
  end.

(** The serialization of one value at indentation [indent], each level
    adding [gap]; [None] is JavaScript's [undefined]. *)
Fixpoint serialize (gap indent : string) (v : value) : option string :=
  match v with
  | VUndefined => None
  | VNull => Some "null"
  | VBool b => Some (if b then "true" else "false")
  | VNum n => Some (number_to_string n)
  | VStr s => Some (quote s)
  | VArr xs =>
      let inner := indent +:+ gap in
      Some (wrap gap indent inner "[" "]"
              (map (fun x => default "null" (serialize gap inner x)) xs))
  | VObj o =>
      let inner := indent +:+ gap in
      Some (wrap gap indent inner "{" "}"
              (flat_map (fun kv =>
                 match serialize gap inner (snd kv) with
                 | Some t => [quote (fst kv) +:+ ":"
                              +:+ (if String.eqb gap "" then "" else " ") +:+ t]
                 | None => []
                 end) o))
  end.

(** [JSON.stringify(v)] *)
Definition stringify (v : value) : option string := serialize "" "" v.

(** [JSON.stringify(v, null, 2)] *)
Definition stringify_indent2 (v : value) : option string := serialize "  " "" v.

(** [String(x)] for the result of [JSON.stringify]. *)
Definition to_string (o : option string) : string := default "undefined" o.

Example stringify_array :
  stringify (VArr [VStr "a"; VNum (-12); VUndefined; VObj [("k", VNull); ("u", VUndefined)]])
  = Some ("[" +:+ dquote +:+ "a" +:+ dquote +:+ ",-12,null,{"
          +:+ dquote +:+ "k" +:+ dquote +:+ ":null}]").
Proof. vm_compute. reflexivity. Qed.

Example stringify_indent2_object :
  stringify_indent2 (VObj [("x", VNum 1); ("y", VArr [])])
  = Some ("{" +:+ nl +:+ "  " +:+ dquote +:+ "x" +:+ dquote +:+ ": 1," +:+ nl
          +:+ "  " +:+ dquote +:+ "y" +:+ dquote +:+ ": []" +:+ nl +:+ "}").
Proof. vm_compute. reflexivity. Qed.

End JSON.

(** ** Chat requests *)

(** Modelled from the spec: [chat.ts] is not under [src/]; a request is the
    [ChatRequest] of the specification's data model, roles drawn from its
    four-word vocabulary, and a content is a string or other JSON data, as
    the adapters test [typeof msg.content === 'string']. *)
Module Chat.
Import JS.

Inductive Role : Type := system | developer | user | assistant.

Record Message : Type := {
  role : Role;
  content : value;
  name : option string
}.

Record JsonSchema : Type := {
  schema_name : string;
  schema_description : option string;
  schema : value
}.

(** [{ type: 'json_schema', json_schema: { name, description?, schema } }],
    or a format of another type. *)
Inductive ResponseFormat : Type :=
| json_schema (js : JsonSchema)
| other_format (type : string).

Record Request : Type := {
  messages : list Message;
  model : option string;
  responseFormat : option ResponseFormat
}.

(** A number of the options: an integer, or [NaN], which [parseInt] and
    [parseFloat] (cli.ts, lines 341-342) make of a text that is no
    number. *)
Inductive number : Type :=
| NaN
| finite (n : Z).

Record ExecutionOptions : Type := {
  opt_model : option string;
  opt_maxTokens : option number;
  opt_temperature : option number
}.

(** [typeof c === 'string' ? c : JSON.stringify(c)]; [None] is [undefined]. *)
Definition text_of (c : value) : option string :=
  match c with
  | VStr s => Some s
  | _ => JSON.stringify c
  end.

(** [a || b] on optional strings: the empty string is falsy. *)
Definition or_else (a : option string) (b : string) : string :=
  match a with
  | Some s => if String.eqb s "" then b else s
  | None => b
  end.

Definition is_system (m : Message) : bool :=
  match role m with
  | system | developer => true
  | _ => false
  end.

End Chat.

(** ** The Gemini adapter: [mapSchema] on schema values *)

Module Gemini.
Import JS.

(** [(typeof t === 'string') ? t.toUpperCase() : t] *)
Definition upper_if_string (t : value) : value :=
  match t with
  | VStr s => VStr (Str.toUpperCase s)
  | _ => t
  end.

(** [newProps[key] = v] on an object made by [{}] (gemini.ts, line 55).
    Such an object inherits the accessor [__proto__] of [Object.prototype]:
    assigning under that key sets the prototype of the object (or does
    nothing, for a [v] that is no object) and makes no own property. *)
Definition assign (key : string) (v : value) (o : object) : object :=
  if String.eqb key "__proto__" then o else set key v o.

(** The body of [mapSchema] (gemini.ts, lines 40-68), with the recursive
    calls made through the first argument. *)
Definition mapSchema_body (mapSchema : value -> value) (s : value) : value :=
  if negb (truthy s) then VUndefined else
  let newSchema := own_entries s in
  let newSchema :=
    if truthy (prop "type" newSchema)
    then set "type" (upper_if_string (prop "type" newSchema)) newSchema
    else newSchema in
  let newSchema :=
    if truthy (prop "properties" newSchema)
    then
      let newProps :=
        fold_left (fun newProps entry =>
                     assign (fst entry) (mapSchema (snd entry)) newProps)
                  (own_entries (prop "properties" newSchema)) [] in
      set "properties" (VObj newProps) newSchema
    else newSchema in
  let newSchema :=
    if truthy (prop "items" newSchema)
    then set "items" (mapSchema (prop "items" newSchema)) newSchema
    else newSchema in
  let newSchema := delete "additionalProperties" newSchema in
  let newSchema := delete "$schema" newSchema in
  VObj newSchema.

Fixpoint mapSchema_fuel (fuel : nat) (s : value) : value :=
  match fuel with
  | 0 => VUndefined
  | S fuel' => mapSchema_body (mapSchema_fuel fuel') s
  end.

(** [mapSchema]: the recursion descends into strictly smaller values, so
    [size s] unfoldings are enough (lemma [mapSchema_unfold] below). *)
Definition mapSchema (s : value) : value := mapSchema_fuel (size s) s.

(** [generationConfig], as built by [execute] (gemini.ts, lines 19-71). *)
Definition generationConfig (request : Chat.Request) : object :=
  match Chat.responseFormat request with
  | Some (Chat.json_schema js) =>
      let generationConfig := set "responseMimeType" (VStr "application/json") [] in
      let openAISchema := Chat.schema js in
      set "responseSchema" (mapSchema openAISchema) generationConfig
  | _ => []
  end.

(** The sub-schemas that [mapSchema] recurses into. *)
Inductive step : Type :=
| Property (key : string)
| Items.

Definition child (st : step) (s : value) : option value :=
  if truthy s then
    match st with
    | Property key =>
        let properties := prop "properties" (own_entries s) in
        if truthy properties then get key (own_entries properties) else None
    | Items =>
        let items := prop "items" (own_entries s) in
        if truthy items then Some items else None
    end
  else None.

Fixpoint reach (path : list step) (s : value) : option value :=
  match path with
  | [] => Some s
  | st :: path' =>
      match child st s with
      | Some s' => reach path' s'
      | None => None
      end
  end.

(** A path that takes no property named [__proto__]. *)
Definition plain (path : list step) : Prop :=
  Forall (fun st => st <> Property "__proto__") path.

(** Scenario C of the specification. *)
Definition scenario_schema : value :=
  VObj [("type", VStr "object");
        ("properties", VObj [("x", VObj [("type", VStr "string")])])].

Definition scenario_result : value :=
  VObj [("type", VStr "OBJECT");
        ("properties", VObj [("x", VObj [("type", VStr "STRING")])])].

Lemma fold_assign_ext (f g : value -> value) (es acc : object) :
  (forall k v, In (k, v) es -> f v = g v) ->
  fold_left (fun newProps entry => assign (fst entry) (f (snd entry)) newProps) es acc =
  fold_left (fun newProps entry => assign (fst entry) (g (snd entry)) newProps) es acc.
Proof.
  revert acc. induction es as [|[k v] es IH]; intros acc H; simpl; [reflexivity|].
  rewrite (H k v (or_introl eq_refl)). apply IH. intros k' v' Hin. apply (H k' v'). now right.
Qed.

Lemma prop_type_step o :
  get "properties"
    (if truthy (prop "type" o)
     then set "type" (upper_if_string (prop "type" o)) o
     else o) = get "properties" o
  /\ get "items"
    (if truthy (prop "type" o)
     then set "type" (upper_if_string (prop "type" o)) o
     else o) = get "items" o.
Proof.
  destruct (truthy (prop "type" o)); [|now split].
  split; now rewrite get_set_ne.
Qed.

Lemma mapSchema_body_ext (f g : value -> value) (s : value) :
  (forall v, size v < size s -> f v = g v) ->
  mapSchema_body f s = mapSchema_body g s.
Proof.
  intros H. unfold mapSchema_body.
  destruct (truthy s); simpl; [|reflexivity].
  set (o1 := if truthy (prop "type" (own_entries s)) then _ else _).
  assert (Hp : get "properties" o1 = get "properties" (own_entries s))
    by apply prop_type_step.
  assert (Hi : get "items" o1 = get "items" (own_entries s))
    by apply prop_type_step.
  assert (E2 :
    (if truthy (prop "properties" o1)
     then set "properties" (VObj (fold_left
            (fun newProps entry => assign (fst entry) (f (snd entry)) newProps)
            (own_entries (prop "properties" o1)) [])) o1
     else o1) =
    (if truthy (prop "properties" o1)
     then set "properties" (VObj (fold_left
            (fun newProps entry => assign (fst entry) (g (snd entry)) newProps)
            (own_entries (prop "properties" o1)) [])) o1
     else o1)).
  { destruct (truthy (prop "properties" o1)) eqn:Et; [|reflexivity].
    do 2 f_equal. apply fold_assign_ext. intros k v Hin. apply H.
    unfold prop in Hin, Et. rewrite Hp in Hin, Et.
    destruct (get "properties" (own_entries s)) as [p|] eqn:Eg; [|discriminate].
    simpl in Hin. apply In_own_entries_le in Hin.
    apply get_own_entries_lt in Eg; [lia | reflexivity]. }
  rewrite E2. set (o2 := if truthy (prop "properties" o1) then _ else _).
  assert (Hi2 : get "items" o2 = get "items" (own_entries s)).
  { subst o2. destruct (truthy (prop "properties" o1)); [|exact Hi].
    now rewrite get_set_ne. }
  destruct (truthy (prop "items" o2)) eqn:Et; [|reflexivity].
  do 4 f_equal. apply H. unfold prop in *. rewrite Hi2 in *.
  destruct (get "items" (own_entries s)) as [p|] eqn:Eg; [|discriminate].
  simpl. apply get_own_entries_lt in Eg; [lia | reflexivity].
Qed.

Lemma mapSchema_fuel_irrel n m s :
  size s <= n -> size s <= m -> mapSchema_fuel n s = mapSchema_fuel m s.
Proof.
  revert m s. induction n as [|n IH]; intros m s Hn Hm.
  - pose proof (size_pos s). lia.
  - destruct m as [|m]; [pose proof (size_pos s); lia|].
    simpl. apply mapSchema_body_ext. intros v Hv. apply IH; lia.
Qed.

(** [mapSchema] satisfies the equation the source function is written by. *)
Lemma mapSchema_unfold s : mapSchema s = mapSchema_body mapSchema s.
Proof.
  unfold mapSchema at 1. pose proof (size_pos s) as Hs.
  destruct (size s) as [|n] eqn:E; [lia|]. simpl.
  apply mapSchema_body_ext. intros v Hv. unfold mapSchema.
  apply mapSchema_fuel_irrel; lia.
Qed.

(** The new properties hold the converted value of every property but
    [__proto__], and no property of that name. *)
Lemma get_fold_assign (f : value -> value) (k : string) (es acc : object) :
  get k (fold_left (fun newProps entry => assign (fst entry) (f (snd entry)) newProps)
                   es acc) =
  if String.eqb k "__proto__" then get k acc
  else match get k es with
       | Some v => Some (f v)
       | None => get k acc
       end.
Proof.
  revert acc. induction es as [|[k0 v0] es IH]; intros acc; simpl.
  - now destruct (String.eqb k "__proto__").
  - rewrite IH. unfold assign. simpl.
    destruct (String.eqb_spec k "__proto__") as [->|Hk].
    + destruct (String.eqb_spec k0 "__proto__") as [->|Hk0]; [reflexivity|].
      now rewrite get_set_ne.
    + destruct (get k es); [reflexivity|].
      destruct (String.eqb_spec k0 "__proto__") as [->|Hk0].
      * destruct (String.eqb_spec "__proto__" k); [congruence | reflexivity].
      * rewrite get_set. now destruct (String.eqb k0 k).
Qed.

(** What [mapSchema] returns for a truthy argument, property by property. *)
Lemma mapSchema_truthy s :
  truthy s = true ->
  exists o',
    mapSchema s = VObj o'
    /\ get "type" o' =
         (if truthy (prop "type" (own_entries s))
          then Some (upper_if_string (prop "type" (own_entries s)))
          else get "type" (own_entries s))
    /\ get "properties" o' =
         (if truthy (prop "properties" (own_entries s))
          then Some (VObj (fold_left
                 (fun newProps entry =>
                    assign (fst entry) (mapSchema (snd entry)) newProps)
                 (own_entries (prop "properties" (own_entries s))) []))
          else get "properties" (own_entries s))
    /\ get "items" o' =
         (if truthy (prop "items" (own_entries s))
          then Some (mapSchema (prop "items" (own_entries s)))
          else get "items" (own_entries s))
    /\ get "additionalProperties" o' = None
    /\ get "$schema" o' = None.
Proof.
  intros Ht. rewrite mapSchema_unfold. unfold mapSchema_body. rewrite Ht. simpl.
  eexists. split; [reflexivity|].
  set (o0 := own_entries s).
  set (o1 := if truthy (prop "type" o0) then _ else _).
  assert (Hp : get "properties" o1 = get "properties" o0) by apply prop_type_step.
  assert (Hi : get "items" o1 = get "items" o0) by apply prop_type_step.
  set (o2 := if truthy (prop "properties" o1) then _ else _).
  assert (Hi2 : get "items" o2 = get "items" o0).
  { subst o2. destruct (truthy (prop "properties" o1)); [|exact Hi].
    now rewrite get_set_ne. }
  set (o3 := if truthy (prop "items" o2) then _ else _).
  assert (Hty1 : get "type" o1 =
                 if truthy (prop "type" o0)
                 then Some (upper_if_string (prop "type" o0))
                 else get "type" o0).
  { subst o1. destruct (truthy (prop "type" o0)); [|reflexivity]. apply get_set_eq. }
  assert (Hty2 : get "type" o2 = get "type" o1).
  { subst o2. destruct (truthy (prop "properties" o1)); [|reflexivity].
    now rewrite get_set_ne. }
  assert (Hty3 : get "type" o3 = get "type" o2).
  { subst o3. destruct (truthy (prop "items" o2)); [|reflexivity].
    now rewrite get_set_ne. }
  assert (Hp2 : get "properties" o2 =
                if truthy (prop "properties" o0)
                then Some (VObj (fold_left
                       (fun newProps entry =>
                          assign (fst entry) (mapSchema (snd entry)) newProps)
                       (own_entries (prop "properties" o0)) []))
                else get "properties" o0).
  { subst o2. unfold prop. rewrite Hp.
    destruct (truthy (default VUndefined (get "properties" o0))); [|exact Hp].
    apply get_set_eq. }
  assert (Hp3 : get "properties" o3 = get "properties" o2).
  { subst o3. destruct (truthy (prop "items" o2)); [|reflexivity].
    now rewrite get_set_ne. }
  assert (Hi3 : get "items" o3 =
                if truthy (prop "items" o0)
                then Some (mapSchema (prop "items" o0))
                else get "items" o0).
  { subst o3. unfold prop. rewrite Hi2.
    destruct (truthy (default VUndefined (get "items" o0))); [|exact Hi2].
    apply get_set_eq. }
  rewrite !get_delete. simpl.
  rewrite Hty3, Hty2, Hty1, Hp3, Hp2, Hi3. repeat split; reflexivity.
Qed.

Lemma mapSchema_falsy s : truthy s = false -> mapSchema s = VUndefined.
Proof. intros Ht. rewrite mapSchema_unfold. unfold mapSchema_body. now rewrite Ht. Qed.

(** [mapSchema] commutes with descending into a sub-schema, but for a
    property named [__proto__]. *)
Lemma child_mapSchema st s n :
  st <> Property "__proto__" ->
  child st s = Some n -> child st (mapSchema s) = Some (mapSchema n).
Proof.
  intros Hst. unfold child. destruct (truthy s) eqn:Ht; [|discriminate].
  destruct (mapSchema_truthy s Ht) as (o' & -> & _ & Hp & Hi & _). simpl.
  destruct st as [key|].
  - destruct (truthy (prop "properties" (own_entries s))) eqn:Ep; [|discriminate].
    intros Hk. unfold prop at 1 2. rewrite Hp. simpl.
    rewrite get_fold_assign, Hk.
    destruct (String.eqb_spec key "__proto__") as [->|]; [congruence | reflexivity].
  - destruct (truthy (prop "items" (own_entries s))) eqn:Ei; [|discriminate].
    intros [= <-]. unfold prop at 1 2. rewrite Hi. simpl.
    destruct (mapSchema_truthy _ Ei) as (o2 & -> & _). reflexivity.
Qed.

Lemma reach_mapSchema path s n :
  plain path ->
  reach path s = Some n -> reach path (mapSchema s) = Some (mapSchema n).
Proof.
  intros Hp. revert s. induction Hp as [|st path Hst _ IH]; intros s; simpl.
  - now intros [= <-].
  - destruct (child st s) as [s'|] eqn:E; [|discriminate].
    intros H. rewrite (child_mapSchema _ _ _ Hst E). now apply IH.
Qed.

(** A sub-schema of the converted schema is the conversion of the
    sub-schema of the schema at the same place, which is no property named
    [__proto__]. *)
Lemma child_mapSchema_inv st s v :
  child st (mapSchema s) = Some v ->
  st <> Property "__proto__" /\ exists n, child st s = Some n /\ v = mapSchema n.
Proof.
  destruct (truthy s) eqn:Ht; [|now rewrite (mapSchema_falsy s Ht)].
  unfold child. rewrite Ht.
  destruct (mapSchema_truthy s Ht) as (o' & -> & _ & Hp & Hi & _). simpl.
  destruct st as [key|].
  - unfold prop at 1 2. rewrite Hp.
    destruct (truthy (prop "properties" (own_entries s))) eqn:Ep.
    + simpl. rewrite get_fold_assign.
      destruct (String.eqb_spec key "__proto__") as [->|Hk]; [discriminate|].
      destruct (get key (own_entries (prop "properties" (own_entries s)))) as [n|];
        [|discriminate].
      intros [= <-]. split; [congruence|]. now exists n.
    + fold (prop "properties" (own_entries s)). rewrite Ep. discriminate.
  - unfold prop at 1 2. rewrite Hi.
    destruct (truthy (prop "items" (own_entries s))) eqn:Ei.
    + simpl. destruct (mapSchema_truthy _ Ei) as (o2 & E2 & _). rewrite E2. simpl.
      intros [= <-]. split; [discriminate|]. eexists. split; [reflexivity | now rewrite E2].
    + fold (prop "items" (own_entries s)). rewrite Ei. discriminate.
Qed.

Lemma reach_mapSchema_inv path :
  forall s v,
    reach path (mapSchema s) = Some v ->
    plain path /\ exists n, reach path s = Some n /\ v = mapSchema n.
Proof.
  induction path as [|st path IH]; intros s v; simpl.
  - intros [= <-]. split; [constructor|]. now exists s.
  - destruct (child st (mapSchema s)) as [v'|] eqn:E; [|discriminate].
    apply child_mapSchema_inv in E as (Hst & n' & En & ->). rewrite En.
    intros H. apply IH in H as (Hp & n & Hn & ->).
    split; [now constructor|]. now exists n.
Qed.

(** A converted node: its string [type] is the upper-case form of the
    node's, and it has neither [additionalProperties] nor [$schema]. *)
Lemma mapSchema_normalized n :
  truthy n = true ->
  exists o',
    mapSchema n = VObj o'
    /\ (forall t, prop "type" (own_entries n) = VStr t ->
                  prop "type" o' = VStr (Str.toUpperCase t))
    /\ get "additionalProperties" o' = None
    /\ get "$schema" o' = None.
Proof.
  intros Ht.
  destruct (mapSchema_truthy n Ht) as (o' & Ho & Hty & _ & _ & Ha & Hs).
  exists o'. repeat split; [exact Ho| |exact Ha|exact Hs].
  intros t Et. unfold prop at 1. rewrite Hty, Et.
  destruct (truthy (VStr t)) eqn:E; [reflexivity|].
  unfold prop in Et. destruct (get "type" (own_entries n)) as [v|]; [|discriminate].
  simpl in Et. subst v. simpl in E. apply negb_false_iff in E.
  apply String.eqb_eq in E as ->. reflexivity.
Qed.

(** Scenario C as a request. *)
Definition scenario_request : Chat.Request :=
  {| Chat.messages := [];
     Chat.model := None;
     Chat.responseFormat :=
       Some (Chat.json_schema
               {| Chat.schema_name := "answer";
                  Chat.schema_description := None;
                  Chat.schema := scenario_schema |}) |}.

(** A property named [__proto__], as [JSON.parse] makes one, is converted
    and then left out of the new [properties]; its neighbours are kept. *)
Example mapSchema_own_proto_property :
  mapSchema (VObj [("type", VStr "object");
                   ("properties",
                    VObj [("__proto__", VObj [("type", VStr "string")]);
                          ("x", VObj [("type", VStr "string")])])])
  = VObj [("type", VStr "OBJECT");
          ("properties", VObj [("x", VObj [("type", VStr "STRING")])])].
Proof. vm_compute. reflexivity. Qed.

(** C1.  For a request whose [responseFormat] is of type [json_schema],
    [generationConfig.responseSchema] is the attached schema converted by
    [mapSchema].  Every node the recursion reaches through [properties]
    values and [items] is converted to a node in which a string-valued
    [type] is replaced by its upper-case form and the keys
    [additionalProperties] and [$schema] are gone, and the converted node
    is in the result where the node is in the schema, unless the way to it
    takes a property named [__proto__]: the assignment under that name
    makes no property.  Conversely every node of the result is the
    conversion of the node at the same place of the schema.  The schema of
    Scenario C becomes the expected one, which holds neither key at any
    level. *)
Theorem mapSchema_normalizes_reached_nodes :
  (forall (request : Chat.Request) (js : Chat.JsonSchema),
      Chat.responseFormat request = Some (Chat.json_schema js) ->
      get "responseSchema" (generationConfig request) = Some (mapSchema (Chat.schema js))
      /\ (forall (path : list step) (n : value),
            reach path (Chat.schema js) = Some n -> truthy n = true ->
            exists o',
              mapSchema n = VObj o'
              /\ (forall t, prop "type" (own_entries n) = VStr t ->
                            prop "type" o' = VStr (Str.toUpperCase t))
              /\ get "additionalProperties" o' = None
              /\ get "$schema" o' = None
              /\ (plain path ->
                  reach path (mapSchema (Chat.schema js)) = Some (VObj o')))
      /\ (forall (path : list step) (v : value),
            reach path (mapSchema (Chat.schema js)) = Some v ->
            plain path
            /\ exists n, reach path (Chat.schema js) = Some n /\ v = mapSchema n))
  /\ mapSchema scenario_schema = scenario_result
  /\ mentions "$schema" (mapSchema scenario_schema) = false
  /\ mentions "additionalProperties" (mapSchema scenario_schema) = false.
Proof.
  split; [|repeat split; vm_compute; reflexivity].
  intros request js Hrf. split; [|split].
  - unfold generationConfig. rewrite Hrf. apply get_set_eq.
  - intros path n Hr Ht.
    destruct (mapSchema_normalized n Ht) as (o' & Ho & Hty & Ha & Hs).
    exists o'. repeat split; try assumption.
    intros Hp. rewrite (reach_mapSchema _ _ _ Hp Hr). now rewrite Ho.
  - intros path v. apply reach_mapSchema_inv.
Qed.

(** Scenario C, at the sub-schema under property [x]. *)
Lemma mapSchema_normalizes_scenario :
  get "responseSchema" (generationConfig scenario_request)
    = Some (mapSchema scenario_schema)
  /\ (forall (path : list step) (n : value),
        reach path scenario_schema = Some n -> truthy n = true ->
        exists o',
          mapSchema n = VObj o'
          /\ (forall t, prop "type" (own_entries n) = VStr t ->
                        prop "type" o' = VStr (Str.toUpperCase t))
          /\ get "additionalProperties" o' = None
          /\ get "$schema" o' = None
          /\ (plain path ->
              reach path (mapSchema scenario_schema) = Some (VObj o')))
  /\ (forall (path : list step) (v : value),
        reach path (mapSchema scenario_schema) = Some v ->
        plain path
        /\ exists n, reach path scenario_schema = Some n /\ v = mapSchema n).
Proof.
  apply (proj1 mapSchema_normalizes_reached_nodes scenario_request
           {| Chat.schema_name := "answer";
              Chat.schema_description := None;
              Chat.schema := scenario_schema |}).
  reflexivity.
Defined.

End Gemini.

(** ** [mapSchema] on a heap of mutable objects

    The same function once more, now with objects as mutable cells of a
    heap, so that what it writes, and where, can be stated: [{ ...s }]
    allocates a cell and copies the own properties of [s] into it, an
    assignment [o.k = v] rewrites the cell of [o]. *)

Module GeminiHeap.
Import JS.

Definition loc : Type := positive.

Inductive hval : Type :=
| HUndefined
| HNull
| HBool (b : bool)
| HNum (n : Z)
| HStr (s : string)
| HRef (l : loc).

Inductive cell : Type :=
| CObj (props : list (string * hval))
| CArr (elems : list hval).

Abbreviation heap := (gmap loc cell).

Definition htruthy (v : hval) : bool :=
  match v with
  | HUndefined | HNull => false
  | HBool b => b
  | HNum n => negb (n =? 0)%Z
  | HStr s => negb (String.eqb s "")
  | HRef _ => true
  end.

Definition hchars (s : string) : list hval :=
  map (fun c => HStr (String c "")) (Str.to_list s).

Definition props_at (l : loc) (h : heap) : list (string * hval) :=
  match h !! l with
  | Some (CObj o) => o
  | _ => []
  end.

(** Own enumerable properties of a value in heap [h]. *)
Definition hentries (h : heap) (v : hval) : list (string * hval) :=
  match v with
  | HRef l =>
      match h !! l with
      | Some (CObj o) => o
      | Some (CArr xs) => indexed 0 xs
      | None => []
      end
  | HStr s => indexed 0 (hchars s)
  | _ => []
  end.

(** Computations that read and write the heap and may run out of fuel. *)
Definition M (A : Type) : Type := heap -> option (A * heap).

Definition ret {A} (a : A) : M A := fun h => Some (a, h).

Definition bind {A B} (m : M A) (k : A -> M B) : M B :=
  fun h => match m h with
           | Some (a, h') => k a h'
           | None => None
           end.

Notation "'do' x <~ m ; k" := (bind m (fun x => k))
  (at level 20, x name, m at level 100, k at level 200).

(** A new object with the given properties. *)
Definition alloc (o : list (string * hval)) : M loc :=
  fun h => let l := fresh (dom h) in Some (l, <[l := CObj o]> h).

(** [Object.entries(v)] *)
Definition entries_of (v : hval) : M (list (string * hval)) :=
  fun h => Some (hentries h v, h).

(** [o.k] *)
Definition read (l : loc) (k : string) : M hval :=
  fun h => Some (default HUndefined (get k (props_at l h)), h).

(** [o.k = v] *)
Definition write (l : loc) (k : string) (v : hval) : M unit :=
  fun h => Some (tt, <[l := CObj (set k v (props_at l h))]> h).

(** [delete o.k] *)
Definition remove (l : loc) (k : string) : M unit :=
  fun h => Some (tt, <[l := CObj (delete k (props_at l h))]> h).

(** [o[k] = v] on an object made by [{}]: under the key [__proto__] the
    assignment reaches the accessor of [Object.prototype], which sets the
    prototype of [o] and writes none of its properties. *)
Definition assign (l : loc) (k : string) (v : hval) : M unit :=
  if String.eqb k "__proto__" then ret tt else write l k v.

Fixpoint for_each {A} (xs : list A) (f : A -> M unit) : M unit :=
  match xs with
  | [] => ret tt
  | x :: xs' => do _ <~ f x ; for_each xs' f
  end.

(** [(typeof t === 'string') ? t.toUpperCase() : t] *)
Definition upper_if_string (t : hval) : hval :=
  match t with
  | HStr s => HStr (Str.toUpperCase s)
  | _ => t
  end.

(** The body of [mapSchema] (gemini.ts, lines 40-68). *)
Definition mapSchema_body (mapSchema : hval -> M hval) (s : hval) : M hval :=
  if negb (htruthy s) then ret HUndefined else
  do own <~ entries_of s ;
  do newSchema <~ alloc own ;
  do type <~ read newSchema "type" ;
  do _ <~ (if htruthy type
           then write newSchema "type" (upper_if_string type)
           else ret tt) ;
  do properties <~ read newSchema "properties" ;
  do _ <~ (if htruthy properties
           then
             do newProps <~ alloc [] ;
             do entries <~ entries_of properties ;
             do _ <~ for_each entries (fun entry =>
                       do r <~ mapSchema (snd entry) ;
                       assign newProps (fst entry) r) ;
             write newSchema "properties" (HRef newProps)
           else ret tt) ;
  do items <~ read newSchema "items" ;
  do _ <~ (if htruthy items
           then do r <~ mapSchema items ; write newSchema "items" r
           else ret tt) ;
  do _ <~ remove newSchema "additionalProperties" ;
  do _ <~ remove newSchema "$schema" ;
  ret (HRef newSchema).

(** A schema whose objects refer back to themselves makes the source
    function recurse without end; [fuel] bounds the depth of the calls. *)
Fixpoint mapSchema (fuel : nat) (s : hval) : M hval :=
  match fuel with
  | 0 => fun _ => None
  | S fuel' => mapSchema_body (mapSchema fuel') s
  end.

(** [repr h j v]: in heap [h], the value [v] is the document [j]. *)
Fixpoint repr (h : heap) (j : value) (v : hval) : Prop :=
  match j with
  | VUndefined => v = HUndefined
  | VNull => v = HNull
  | VBool b => v = HBool b
  | VNum n => v = HNum n
  | VStr s => v = HStr s
  | VArr js =>
      exists l xs, v = HRef l /\ h !! l = Some (CArr xs)
        /\ (fix all2 (js : list value) (xs : list hval) : Prop :=
              match js, xs with
              | [], [] => True
              | j' :: js', x :: xs' => repr h j' x /\ all2 js' xs'
              | _, _ => False
              end) js xs
  | VObj jo =>
      exists l o, v = HRef l /\ h !! l = Some (CObj o)
        /\ (fix all2 (jo : object) (o : list (string * hval)) : Prop :=
              match jo, o with
              | [], [] => True
              | jp :: jo', p :: o' =>
                  (fst jp = fst p /\ repr h (snd jp) (snd p)) /\ all2 jo' o'
              | _, _ => False
              end) jo o
  end.

(** Scenario C in a heap: the root object at 1, its [properties] at 2 and
    the sub-schema of [x] at 3. *)
Definition scenario_heap : heap :=
  <[1%positive := CObj [("type", HStr "object"); ("properties", HRef 2%positive)]]>
  (<[2%positive := CObj [("x", HRef 3%positive)]]>
  (<[3%positive := CObj [("type", HStr "string")]]> ∅)).


Definition repr_props (h : heap) (jo : object) (o : list (string * hval)) : Prop :=
  Forall2 (fun jp p => fst jp = fst p /\ repr h (snd jp) (snd p)) jo o.

Definition repr_elems (h : heap) (js : list value) (xs : list hval) : Prop :=
  Forall2 (repr h) js xs.

Definition repr_opt (h : heap) (a : option value) (b : option hval) : Prop :=
  match a, b with
  | Some x, Some y => repr h x y
  | None, None => True
  | _, _ => False
  end.

(** Total and partial correctness of a computation from a given heap. *)
Definition wp {A} (m : M A) (h : heap) (Q : A -> heap -> Prop) : Prop :=
  exists a h', m h = Some (a, h') /\ Q a h'.

Definition wlp {A} (m : M A) (h : heap) (Q : A -> heap -> Prop) : Prop :=
  forall a h', m h = Some (a, h') -> Q a h'.

(** What a call owes its caller: the caller's heap [h0] is part of the
    final heap [h'], and the result is the document [j] in a part [G'] of
    [h'] that extends the caller's [G0] with cells new to [h0]. *)
Definition post (G0 h0 : heap) (j : value) (r : hval) (h' : heap) : Prop :=
  exists G', h0 ⊆ h' /\ G0 ⊆ G' /\ G' ⊆ h'
    /\ (forall l, is_Some (G' !! l) -> is_Some (h0 !! l) -> is_Some (G0 !! l))
    /\ repr G' j r.

Lemma value_ind' (P : value -> Prop) :
  P VUndefined -> P VNull -> (forall b, P (VBool b)) -> (forall n, P (VNum n)) ->
  (forall s, P (VStr s)) ->
  (forall xs, Forall P xs -> P (VArr xs)) ->
  (forall o, Forall (fun kv => P (snd kv)) o -> P (VObj o)) ->
  forall v, P v.
Proof.
  intros Hu Hn Hb Hz Hs Ha Ho. fix IH 1.
  intros [| |b|n|s|xs|o]; [exact Hu|exact Hn|apply Hb|apply Hz|apply Hs| |].
  - apply Ha. induction xs as [|x xs IHxs]; constructor; [apply IH | exact IHxs].
  - apply Ho. induction o as [|kv o IHo]; constructor; [apply IH | exact IHo].
Qed.

Lemma repr_arr h js v :
  repr h (VArr js) v <->
  exists l xs, v = HRef l /\ h !! l = Some (CArr xs) /\ repr_elems h js xs.
Proof.
  simpl. split; intros (l & xs & -> & Hl & H); exists l, xs; (split; [reflexivity|]);
    (split; [exact Hl|]); clear Hl.
  - revert xs H. induction js as [|j js IH]; intros [|x xs] H; try destruct H; constructor; auto.
    now apply IH.
  - induction H as [|j x js xs Hj _ IH]; [exact I | split; assumption].
Qed.

Lemma repr_obj h jo v :
  repr h (VObj jo) v <->
  exists l o, v = HRef l /\ h !! l = Some (CObj o) /\ repr_props h jo o.
Proof.
  simpl. split; intros (l & o & -> & Hl & H); exists l, o; (split; [reflexivity|]);
    (split; [exact Hl|]); clear Hl.
  - revert o H. induction jo as [|j jo IH]; intros [|x o] H; try destruct H; constructor; auto.
    now apply IH.
  - induction H as [|j x jo o Hj _ IH]; [exact I | split; assumption].
Qed.

Lemma repr_prim h j v :
  match j with VArr _ | VObj _ => False | _ => True end ->
  repr h j v <->
  v = match j with
      | VUndefined => HUndefined | VNull => HNull | VBool b => HBool b
      | VNum n => HNum n | VStr s => HStr s | _ => HUndefined
      end.
Proof. destruct j; simpl; tauto. Qed.

Lemma repr_mono j : forall h h' v, h ⊆ h' -> repr h j v -> repr h' j v.
Proof.
  induction j as [| | | | |js IH|jo IH] using value_ind'; intros h h' v Hsub;
    try (simpl; tauto).
  - rewrite !repr_arr. intros (l & xs & -> & Hl & H).
    exists l, xs. split; [reflexivity|]. split; [eapply lookup_weaken; eassumption|].
    unfold repr_elems in *. clear Hl. revert xs H.
    induction IH as [|j js Hj _ IHjs]; intros xs H; inversion H; subst; constructor; eauto.
  - rewrite !repr_obj. intros (l & o & -> & Hl & H).
    exists l, o. split; [reflexivity|]. split; [eapply lookup_weaken; eassumption|].
    unfold repr_props in *. clear Hl. revert o H.
    induction IH as [|j jo Hj _ IHjo]; intros o H; inversion H; subst; constructor.
    + destruct H2 as [Hk Hr]. split; [exact Hk|]. eapply Hj; eassumption.
    + apply IHjo. assumption.
Qed.

Lemma repr_props_mono h h' jo o : h ⊆ h' -> repr_props h jo o -> repr_props h' jo o.
Proof.
  intros Hsub H. induction H as [|jp p jo o [Hk Hr] _ IH]; constructor; [|exact IH].
  split; [exact Hk|]. eapply repr_mono; eassumption.
Qed.

Lemma repr_truthy h j v : repr h j v -> htruthy v = truthy j.
Proof.
  destruct j; try (simpl; intros ->; reflexivity).
  - rewrite repr_arr. intros (l & xs & -> & _). reflexivity.
  - rewrite repr_obj. intros (l & o & -> & _). reflexivity.
Qed.

Lemma repr_props_indexed h js xs i :
  repr_elems h js xs -> repr_props h (indexed i js) (indexed i xs).
Proof.
  intros H. revert i. induction H as [|j x js xs Hj _ IH]; intros i; simpl; constructor.
  - split; [reflexivity | exact Hj].
  - apply IH.
Qed.

Lemma repr_elems_chars h s : repr_elems h (chars s) (hchars s).
Proof.
  unfold chars, hchars. induction (Str.to_list s) as [|c cs IH]; simpl; constructor.
  - reflexivity.
  - exact IH.
Qed.

(** The own properties of a represented value are represented, and are
    the same in every larger heap. *)
Lemma repr_entries G h j v :
  G ⊆ h -> repr G j v ->
  hentries h v = hentries G v /\ repr_props G (own_entries j) (hentries G v).
Proof.
  intros Hsub. destruct j; try (simpl; intros ->; split; [reflexivity | constructor]).
  - simpl. intros ->. split; [reflexivity|]. apply repr_props_indexed, repr_elems_chars.
  - rewrite repr_arr. intros (l & xs & -> & Hl & H). simpl.
    rewrite Hl, (lookup_weaken _ _ _ _ Hl Hsub). split; [reflexivity|].
    now apply repr_props_indexed.
  - rewrite repr_obj. intros (l & o & -> & Hl & H). simpl.
    rewrite Hl, (lookup_weaken _ _ _ _ Hl Hsub). split; [reflexivity | exact H].
Qed.

Lemma repr_props_get h jo o k : repr_props h jo o -> repr_opt h (get k jo) (get k o).
Proof.
  intros H. induction H as [|jp p jo o [Hk Hr] _ IH]; simpl; [exact I|].
  unfold repr_opt in IH. destruct (get k jo), (get k o); try tauto.
  rewrite Hk. destruct (String.eqb (fst p) k); simpl; [exact Hr | exact I].
Qed.

Lemma repr_props_prop h jo o k :
  repr_props h jo o -> repr h (prop k jo) (default HUndefined (get k o)).
Proof.
  intros H. apply (repr_props_get _ _ _ k) in H. unfold prop, repr_opt in *.
  destruct (get k jo), (get k o); simpl; tauto.
Qed.

Lemma repr_props_has h jo o k : repr_props h jo o -> has k jo = has k o.
Proof.
  intros H. unfold has. induction H as [|jp p jo o [Hk _] _ IH]; simpl; [reflexivity|].
  now rewrite Hk, IH.
Qed.

Lemma repr_props_set h jo o k a b :
  repr_props h jo o -> repr h a b -> repr_props h (set k a jo) (set k b o).
Proof.
  intros H Hab. unfold set. rewrite <- (repr_props_has _ _ _ k H).
  destruct (has k jo).
  - induction H as [|jp p jo o [Hk Hr] _ IH]; simpl; constructor; [|exact IH].
    rewrite Hk. destruct (String.eqb (fst p) k); simpl; split; auto.
  - apply Forall2_app; [exact H|]. constructor; [|constructor]. split; [reflexivity | exact Hab].
Qed.

Lemma repr_props_delete h jo o k :
  repr_props h jo o -> repr_props h (delete k jo) (delete k o).
Proof.
  intros H. unfold delete. induction H as [|jp p jo o [Hk Hr] _ IH]; simpl; [constructor|].
  rewrite Hk. destruct (String.eqb (fst p) k); simpl; [exact IH|].
  constructor; [split; assumption | exact IH].
Qed.

Lemma wp_ret {A} (a : A) h (Q : A -> heap -> Prop) : Q a h -> wp (ret a) h Q.
Proof. intros H. exists a, h. split; [reflexivity | exact H]. Qed.

Lemma wp_bind {A B} (m : M A) (k : A -> M B) h (Q : B -> heap -> Prop) :
  wp m h (fun a h' => wp (k a) h' Q) -> wp (bind m k) h Q.
Proof.
  intros (a & h' & Hm & b & h'' & Hk & HQ). exists b, h''.
  unfold bind. rewrite Hm. split; assumption.
Qed.

Lemma wp_conseq {A} (m : M A) h (Q Q' : A -> heap -> Prop) :
  wp m h Q -> (forall a h', Q a h' -> Q' a h') -> wp m h Q'.
Proof. intros (a & h' & Hm & HQ) H. exists a, h'. split; [exact Hm | now apply H]. Qed.

Lemma wlp_ret {A} (a : A) h (Q : A -> heap -> Prop) : Q a h -> wlp (ret a) h Q.
Proof. intros H a' h' [= <- <-]. exact H. Qed.

Lemma wlp_bind {A B} (m : M A) (k : A -> M B) h (Q : B -> heap -> Prop) :
  wlp m h (fun a h' => wlp (k a) h' Q) -> wlp (bind m k) h Q.
Proof.
  intros H b h''. unfold bind. destruct (m h) as [[a h']|] eqn:Hm; [|discriminate].
  intros Hk. exact (H a h' Hm b h'' Hk).
Qed.

Lemma fresh_lookup (h : heap) : h !! fresh (dom h) = None.
Proof. apply not_elem_of_dom, is_fresh. Qed.

(** [keeps h m]: run from a heap that extends [h], the computation [m]
    leaves every cell of [h] as it is. *)
Definition keeps (h : heap) {A} (m : M A) : Prop :=
  forall hc, h ⊆ hc -> wlp m hc (fun _ h' => h ⊆ h').

Lemma keeps_ret h {A} (a : A) : keeps h (ret a).
Proof. intros hc Hsub. now apply wlp_ret. Qed.

Lemma keeps_bind h {A B} (m : M A) (k : A -> M B) :
  keeps h m -> (forall a, keeps h (k a)) -> keeps h (bind m k).
Proof.
  intros Hm Hk hc Hsub. apply wlp_bind. intros a h' Ha.
  apply Hk. exact (Hm hc Hsub a h' Ha).
Qed.

Lemma keeps_read h l k : keeps h (read l k).
Proof. intros hc Hsub a h' [= _ <-]. exact Hsub. Qed.

Lemma keeps_entries_of h v : keeps h (entries_of v).
Proof. intros hc Hsub a h' [= _ <-]. exact Hsub. Qed.

Lemma keeps_write h l k v : h !! l = None -> keeps h (write l k v).
Proof. intros Hl hc Hsub a h' [= _ <-]. now apply insert_subseteq_r. Qed.

Lemma keeps_remove h l k : h !! l = None -> keeps h (remove l k).
Proof. intros Hl hc Hsub a h' [= _ <-]. now apply insert_subseteq_r. Qed.

Lemma keeps_assign h l k v : h !! l = None -> keeps h (assign l k v).
Proof.
  intros Hl. unfold assign.
  destruct (String.eqb k "__proto__"); [apply keeps_ret | now apply keeps_write].
Qed.

Lemma keeps_alloc_bind h {B} o (k : loc -> M B) :
  (forall l, h !! l = None -> keeps h (k l)) -> keeps h (bind (alloc o) k).
Proof.
  intros Hk hc Hsub. apply wlp_bind. intros l h' [= <- <-].
  assert (Hl : h !! fresh (dom hc) = None)
    by (eapply lookup_weaken_None; [apply fresh_lookup | exact Hsub]).
  apply (Hk _ Hl). now apply insert_subseteq_r.
Qed.

Lemma keeps_for_each h {A} (xs : list A) (f : A -> M unit) :
  (forall x, keeps h (f x)) -> keeps h (for_each xs f).
Proof.
  intros Hf. induction xs as [|x xs IH]; simpl.
  - apply keeps_ret.
  - apply keeps_bind; [apply Hf | intros _; exact IH].
Qed.

Lemma keeps_if h {A} (b : bool) (m1 m2 : M A) :
  keeps h m1 -> keeps h m2 -> keeps h (if b then m1 else m2).
Proof. now destruct b. Qed.

Lemma wlp_bind_keeps h {A B} (m : M A) (k : A -> M B) (Q : B -> heap -> Prop) :
  keeps h m ->
  (forall a hc, h ⊆ hc -> wlp (k a) hc Q) ->
  forall hc, h ⊆ hc -> wlp (bind m k) hc Q.
Proof.
  intros Hm Hk hc Hsub. apply wlp_bind. intros a h' Ha.
  apply Hk. exact (Hm hc Hsub a h' Ha).
Qed.

(** Whatever the fuel and the argument, a call that returns has left every
    cell of the caller's heap as it was, and for a truthy argument its
    result is a reference the caller's heap did not hold. *)
Lemma mapSchema_frame fuel :
  forall s h,
    wlp (mapSchema fuel s) h
        (fun r h' => h ⊆ h'
                     /\ (htruthy s = true -> exists l, r = HRef l /\ h !! l = None)).
Proof.
  induction fuel as [|fuel IH]; intros s h; [intros a h' [=]|].
  assert (Hrec : forall h0 v, keeps h0 (mapSchema fuel v)).
  { intros h0 v hc Hsub a h' Hrun. destruct (IH v hc a h' Hrun) as [Hk _].
    now transitivity hc. }
  simpl. unfold mapSchema_body. destruct (htruthy s); simpl.
  2:{ apply wlp_ret. split; [reflexivity | discriminate]. }
  apply wlp_bind. intros own h1 [= <- <-].
  apply wlp_bind. intros l h1 [= <- <-].
  pose proof (fresh_lookup h) as Hl.
  assert (Hsub : h ⊆ <[fresh (dom h) := CObj (hentries h s)]> h)
    by now apply insert_subseteq.
  revert Hsub. generalize (<[fresh (dom h) := CObj (hentries h s)]> h).
  generalize dependent (fresh (dom h)). intros l Hl hc Hsub. revert hc Hsub.
  apply wlp_bind_keeps; [apply keeps_read|]. intros ty.
  apply wlp_bind_keeps; [apply keeps_if; [now apply keeps_write | apply keeps_ret]|].
  intros _.
  apply wlp_bind_keeps; [apply keeps_read|]. intros properties.
  apply wlp_bind_keeps.
  { apply keeps_if; [|apply keeps_ret].
    apply keeps_alloc_bind. intros lp Hlp.
    apply keeps_bind; [apply keeps_entries_of|]. intros entries.
    apply keeps_bind; [|intros _; now apply keeps_write].
    apply keeps_for_each. intros entry.
    apply keeps_bind; [apply Hrec|]. intros r. now apply keeps_assign. }
  intros _.
  apply wlp_bind_keeps; [apply keeps_read|]. intros items.
  apply wlp_bind_keeps.
  { apply keeps_if; [|apply keeps_ret].
    apply keeps_bind; [apply Hrec|]. intros r. now apply keeps_write. }
  intros _.
  apply wlp_bind_keeps; [now apply keeps_remove|]. intros _.
  apply wlp_bind_keeps; [now apply keeps_remove|]. intros _ hc Hsub.
  apply wlp_ret. split; [exact Hsub|]. intros _. now exists l.
Qed.

Section Simulation.

Variable fuel : nat.
Hypothesis Hrec :
  forall j G h s, size j <= fuel -> G ⊆ h -> repr G j s ->
    wp (mapSchema fuel s) h (post G h (Gemini.mapSchema j)).
Variables G0 h0 : heap.

(** The state of a call in progress: [hc] is the current heap and [G] the
    part of it whose cells the call no longer writes. *)
Definition st (G hc : heap) : Prop :=
  h0 ⊆ hc /\ G0 ⊆ G /\ G ⊆ hc
  /\ (forall l, is_Some (G !! l) -> is_Some (h0 !! l) -> is_Some (G0 !! l)).

(** A cell the call is still filling: new, outside [G], holding [jo]. *)
Definition cell_is (G hc : heap) (l : loc) (jo : object) : Prop :=
  G !! l = None /\ h0 !! l = None
  /\ exists o, hc !! l = Some (CObj o) /\ repr_props G jo o.

Lemma cell_is_mono G hc G' h' l jo :
  cell_is G hc l jo -> G ⊆ G' -> G' !! l = None ->
  (forall c, hc !! l = Some c -> h' !! l = Some c) ->
  cell_is G' h' l jo.
Proof.
  intros (_ & Hh0 & o & Ho & Hr) HG Hl Hfr. split; [exact Hl|]. split; [exact Hh0|].
  exists o. split; [now apply Hfr | eapply repr_props_mono; eassumption].
Qed.

Lemma st_read G hc l k jo :
  cell_is G hc l jo ->
  wp (read l k) hc (fun v h' => h' = hc /\ repr G (prop k jo) v).
Proof.
  intros (_ & _ & o & Ho & Hr). eexists _, _. split; [reflexivity|].
  split; [reflexivity|]. unfold props_at. rewrite Ho. now apply repr_props_prop.
Qed.

Lemma st_update G hc l jo (f : list (string * hval) -> list (string * hval)) jo' :
  st G hc -> cell_is G hc l jo ->
  (forall o, repr_props G jo o -> repr_props G jo' (f o)) ->
  let h' := <[l := CObj (f (props_at l hc))]> hc in
  st G h' /\ cell_is G h' l jo'
  /\ (forall l2 c, l2 <> l -> hc !! l2 = Some c -> h' !! l2 = Some c).
Proof.
  intros (H1 & H2 & H3 & H4) (HGl & Hhl & o & Ho & Hr) Hf h'. subst h'.
  unfold props_at. rewrite Ho. repeat split.
  - now apply insert_subseteq_r.
  - exact H2.
  - now apply insert_subseteq_r.
  - exact H4.
  - exact HGl.
  - exact Hhl.
  - exists (f o). split; [apply lookup_insert_eq | now apply Hf].
  - intros l2 c Hne Hc. now rewrite lookup_insert_ne.
Qed.

Lemma st_write G hc l k a b jo :
  st G hc -> cell_is G hc l jo -> repr G a b ->
  wp (write l k b) hc
     (fun _ h' => st G h' /\ cell_is G h' l (set k a jo)
        /\ (forall l2 c, l2 <> l -> hc !! l2 = Some c -> h' !! l2 = Some c)).
Proof.
  intros Hst Hc Hab. eexists tt, _. split; [reflexivity|].
  apply (st_update G hc l jo (set k b)); [exact Hst | exact Hc|].
  intros o Ho. now apply repr_props_set.
Qed.

Lemma st_assign G hc l k a b jo :
  st G hc -> cell_is G hc l jo -> repr G a b ->
  wp (assign l k b) hc
     (fun _ h' => st G h' /\ cell_is G h' l (Gemini.assign k a jo)
        /\ (forall l2 c, l2 <> l -> hc !! l2 = Some c -> h' !! l2 = Some c)).
Proof.
  intros Hst Hc Hab. unfold assign, Gemini.assign.
  destruct (String.eqb k "__proto__"); [|now apply st_write].
  apply wp_ret. repeat split; try apply Hst; try apply Hc. auto.
Qed.

Lemma st_remove G hc l k jo :
  st G hc -> cell_is G hc l jo ->
  wp (remove l k) hc
     (fun _ h' => st G h' /\ cell_is G h' l (delete k jo)
        /\ (forall l2 c, l2 <> l -> hc !! l2 = Some c -> h' !! l2 = Some c)).
Proof.
  intros Hst Hc. eexists tt, _. split; [reflexivity|].
  apply (st_update G hc l jo (delete k)); [exact Hst | exact Hc|].
  intros o Ho. now apply repr_props_delete.
Qed.

Lemma st_rec G hc j v :
  st G hc -> repr G j v -> size j <= fuel ->
  wp (mapSchema fuel v) hc
     (fun r h' => exists G',
        st G' h' /\ G ⊆ G' /\ hc ⊆ h'
        /\ (forall l, is_Some (hc !! l) -> G !! l = None -> G' !! l = None)
        /\ repr G' (Gemini.mapSchema j) r).
Proof.
  intros (H1 & H2 & H3 & H4) Hr Hsz.
  eapply wp_conseq; [apply (Hrec j G hc v Hsz H3 Hr)|].
  intros r h' (G' & P1 & P2 & P3 & P4 & P5). exists G'.
  split; [|split; [exact P2|split; [exact P1|split; [|exact P5]]]].
  - repeat split.
    + now transitivity hc.
    + now transitivity G.
    + exact P3.
    + intros l Hl Hl0. apply H4; [|exact Hl0]. apply P4; [exact Hl|].
      eapply lookup_weaken_is_Some; eassumption.
  - intros l Hl HG. destruct (G' !! l) eqn:E; [|reflexivity].
    destruct (P4 l) as [x Hx]; [now rewrite E | exact Hl|]. congruence.
Qed.

Lemma st_for_each lp jes :
  forall es G hc jacc,
    repr_props G jes es -> Forall (fun jp => size (snd jp) <= fuel) jes ->
    st G hc -> cell_is G hc lp jacc ->
    wp (for_each es (fun entry =>
          do r <~ mapSchema fuel (snd entry) ; assign lp (fst entry) r)) hc
       (fun _ h' => exists G',
          st G' h' /\ G ⊆ G'
          /\ cell_is G' h' lp
               (fold_left (fun newProps entry =>
                             Gemini.assign (fst entry) (Gemini.mapSchema (snd entry))
                                           newProps)
                          jes jacc)
          /\ (forall l2 c, l2 <> lp -> hc !! l2 = Some c -> h' !! l2 = Some c)
          /\ (forall l2, is_Some (hc !! l2) -> G !! l2 = None -> G' !! l2 = None)).
Proof.
  induction jes as [|jp jes IH]; intros es G hc jacc Hes Hsz Hst Hc.
  - inversion Hes; subst. simpl. apply wp_ret. exists G.
    repeat split; try apply Hst; try apply Hc; auto.
  - inversion Hes as [|? p ? es' [Hk Hr] Hes']; subst.
    inversion Hsz as [|? ? Hsz1 Hsz2]; subst. simpl.
    apply wp_bind. apply wp_bind.
    eapply wp_conseq; [apply (st_rec G hc (snd jp) (snd p) Hst Hr); assumption|].
    intros r h1 (G1 & Hst1 & HG1 & Hh1 & Hnew1 & Hr1).
    assert (Hc1 : cell_is G1 h1 lp jacc).
    { eapply cell_is_mono; [exact Hc | exact HG1 | |].
      - destruct Hc as (HGl & _ & o & Ho & _). apply Hnew1; [now rewrite Ho | exact HGl].
      - intros c Hcl. eapply lookup_weaken; eassumption. }
    eapply wp_conseq; [apply (st_assign G1 h1 lp (fst p) _ r jacc Hst1 Hc1 Hr1)|].
    intros _ h2 (Hst2 & Hc2 & Hfr2).
    eapply wp_conseq;
      [apply (IH es' G1 h2 (Gemini.assign (fst jp) (Gemini.mapSchema (snd jp)) jacc)
                 (repr_props_mono _ _ _ _ HG1 Hes') Hsz2 Hst2)|].
    { rewrite Hk. exact Hc2. }
    intros _ h3 (G3 & Hst3 & HG3 & Hc3 & Hfr3 & Hnew3). exists G3.
    split; [exact Hst3|]. split; [now transitivity G1|]. split; [exact Hc3|]. split.
    + intros l2 c Hne Hl2. apply Hfr3; [exact Hne|]. apply Hfr2; [exact Hne|].
      eapply lookup_weaken; eassumption.
    + intros l2 Hl2 HG. apply Hnew3.
      * destruct (decide (l2 = lp)) as [->|Hne].
        -- destruct Hc2 as (_ & _ & o & Ho & _). now rewrite Ho.
        -- destruct Hl2 as [c Hl2]. exists c. apply Hfr2; [exact Hne|].
           eapply lookup_weaken; eassumption.
      * now apply Hnew1.
Qed.

Lemma st_alloc G hc o jo :
  st G hc -> repr_props G jo o ->
  wp (alloc o) hc
     (fun l h' => st G h' /\ cell_is G h' l jo /\ hc ⊆ h' /\ hc !! l = None).
Proof.
  intros (H1 & H2 & H3 & H4) Ho. eexists _, _. split; [reflexivity|].
  pose proof (fresh_lookup hc) as Hl.
  assert (HG : G !! fresh (dom hc) = None) by exact (lookup_weaken_None _ _ _ Hl H3).
  assert (Hh : h0 !! fresh (dom hc) = None) by exact (lookup_weaken_None _ _ _ Hl H1).
  split; [|split; [|split; [now apply insert_subseteq | exact Hl]]].
  - repeat split;
      [now apply insert_subseteq_r | exact H2 | now apply insert_subseteq_r | exact H4].
  - split; [exact HG|]. split; [exact Hh|].
    exists o. split; [apply lookup_insert_eq | exact Ho].
Qed.

(** A filled cell joins the part of the heap that is written no more. *)
Lemma st_finish G hc l jo :
  st G hc -> cell_is G hc l jo ->
  exists G', st G' hc /\ G ⊆ G' /\ repr G' (VObj jo) (HRef l)
    /\ (forall l2, l2 <> l -> G !! l2 = None -> G' !! l2 = None).
Proof.
  intros (H1 & H2 & H3 & H4) (HGl & Hhl & o & Ho & Hr).
  exists (<[l := CObj o]> G).
  assert (HG : G ⊆ <[l := CObj o]> G) by now apply insert_subseteq.
  split; [|split; [exact HG|split]].
  - repeat split; [exact H1 | now transitivity G | now apply insert_subseteq_l |].
    intros l2 Hl2 Hl0. destruct (decide (l2 = l)) as [->|Hne].
    + rewrite Hhl in Hl0. now destruct Hl0.
    + rewrite lookup_insert_ne in Hl2 by congruence. now apply H4.
  - apply repr_obj. exists l, o. split; [reflexivity|].
    split; [apply lookup_insert_eq | eapply repr_props_mono; eassumption].
  - intros l2 Hne Hl2. now rewrite lookup_insert_ne by congruence.
Qed.

Lemma repr_upper G j v :
  repr G j v ->
  repr G (Gemini.upper_if_string j) (upper_if_string v).
Proof.
  destruct j; try (simpl; intros ->; reflexivity).
  - rewrite repr_arr. intros (l & xs & -> & H). apply repr_arr. now exists l, xs.
  - rewrite repr_obj. intros (l & o & -> & H). apply repr_obj. now exists l, o.
Qed.

Lemma body_sim j s :
  size j <= S fuel -> G0 ⊆ h0 -> repr G0 j s ->
  wp (mapSchema_body (mapSchema fuel) s) h0 (post G0 h0 (Gemini.mapSchema j)).
Proof.
  intros Hsz Hsub Hr. unfold mapSchema_body.
  rewrite (repr_truthy _ _ _ Hr). destruct (truthy j) eqn:Ht; simpl negb; cbv iota.
  2:{ apply wp_ret. exists G0. rewrite Gemini.mapSchema_unfold.
      unfold Gemini.mapSchema_body. rewrite Ht. simpl.
      repeat split; auto. }
  pose (jo0 := own_entries j).
  pose (jo1 := if truthy (prop "type" jo0)
               then set "type" (Gemini.upper_if_string (prop "type" jo0)) jo0
               else jo0).
  pose (jo2 := if truthy (prop "properties" jo1)
               then set "properties"
                      (VObj (fold_left
                         (fun newProps entry =>
                            Gemini.assign (fst entry) (Gemini.mapSchema (snd entry))
                                          newProps)
                         (own_entries (prop "properties" jo1)) [])) jo1
               else jo1).
  pose (jo3 := if truthy (prop "items" jo2)
               then set "items" (Gemini.mapSchema (prop "items" jo2)) jo2
               else jo2).
  assert (Epure : Gemini.mapSchema j =
                  VObj (delete "$schema" (delete "additionalProperties" jo3))).
  { rewrite Gemini.mapSchema_unfold. unfold Gemini.mapSchema_body. rewrite Ht.
    reflexivity. }
  assert (Hgp : get "properties" jo1 = get "properties" jo0)
    by apply Gemini.prop_type_step.
  assert (Hgi1 : get "items" jo1 = get "items" jo0)
    by apply Gemini.prop_type_step.
  assert (Hgi : get "items" jo2 = get "items" jo0).
  { subst jo2. destruct (truthy (prop "properties" jo1)); [|exact Hgi1].
    now rewrite get_set_ne. }
  rewrite Epure. clear Epure.
  assert (Hst0 : st G0 h0) by (repeat split; auto).
  destruct (repr_entries G0 h0 j s Hsub Hr) as [Hent Hown].
  apply wp_bind. eexists _, _. split; [reflexivity|]. rewrite Hent.
  apply wp_bind.
  eapply wp_conseq; [apply (st_alloc G0 h0 _ jo0 Hst0 Hown)|].
  intros l h1 (Hst1 & Hc1 & _ & Hl0). clear Hst0.
  (* newSchema.type *)
  apply wp_bind.
  eapply wp_conseq; [apply (st_read _ _ _ "type" _ Hc1)|]. intros ty ? [-> Hty].
  rewrite (repr_truthy _ _ _ Hty).
  apply wp_bind.
  apply (wp_conseq _ _ (fun _ h' => st G0 h' /\ cell_is G0 h' l jo1)).
  { subst jo1. destruct (truthy (prop "type" jo0)).
    - eapply wp_conseq;
        [apply (st_write G0 h1 l "type" _ _ jo0 Hst1 Hc1 (repr_upper _ _ _ Hty))|].
      intros _ h' (? & ? & _). now split.
    - apply wp_ret. now split. }
  clear h1 Hst1 Hc1 ty Hty Hl0. intros _ h1 [Hst1 Hc1].
  (* newSchema.properties *)
  apply wp_bind.
  eapply wp_conseq; [apply (st_read _ _ _ "properties" _ Hc1)|]. intros pv ? [-> Hpv].
  rewrite (repr_truthy _ _ _ Hpv).
  apply wp_bind.
  apply (wp_conseq _ _ (fun _ h' => exists G, st G h' /\ cell_is G h' l jo2)).
  { subst jo2. destruct (truthy (prop "properties" jo1)) eqn:Etp.
    2:{ apply wp_ret. now exists G0. }
    assert (Hszp : Forall (fun jp : string * value => size (snd jp) <= fuel)
                          (own_entries (prop "properties" jo1))).
    { apply Forall_forall. intros [k v] Hin. apply list_elem_of_In in Hin. simpl.
      unfold prop in Hin, Etp. rewrite Hgp in Hin, Etp.
      destruct (get "properties" jo0) as [p|] eqn:Eg; [|discriminate].
      simpl in Hin. apply In_own_entries_le in Hin.
      apply get_own_entries_lt in Eg; [lia | reflexivity]. }
    apply wp_bind.
    eapply wp_conseq; [apply (st_alloc G0 h1 [] [] Hst1); constructor|].
    intros lp h2 (Hst2 & Hcp & Hsub2 & Hlp).
    assert (Hne : l <> lp).
    { intros ->. destruct Hc1 as (_ & _ & o & Ho & _). congruence. }
    assert (Hc2 : cell_is G0 h2 l jo1).
    { eapply cell_is_mono; [exact Hc1 | reflexivity | apply Hc1 |].
      intros c Hc. eapply lookup_weaken; eassumption. }
    destruct (repr_entries G0 h2 _ pv (proj1 (proj2 (proj2 Hst2))) Hpv) as [Hent2 Hes].
    apply wp_bind. eexists _, _. split; [reflexivity|]. rewrite Hent2.
    apply wp_bind.
    eapply wp_conseq; [apply (st_for_each lp _ _ G0 h2 [] Hes Hszp Hst2 Hcp)|].
    intros _ h3 (G3 & Hst3 & HG3 & Hcp3 & Hfr3 & Hnew3).
    assert (Hc3 : cell_is G3 h3 l jo1).
    { eapply cell_is_mono; [exact Hc2 | exact HG3 | |].
      - apply Hnew3; [|apply Hc2]. destruct Hc2 as (_ & _ & o & Ho & _). now rewrite Ho.
      - intros c Hc. now apply Hfr3. }
    destruct (st_finish G3 h3 lp _ Hst3 Hcp3) as (G4 & Hst4 & HG4 & Hrp & Hnew4).
    assert (Hc4 : cell_is G4 h3 l jo1).
    { eapply cell_is_mono; [exact Hc3 | exact HG4 | | auto].
      apply Hnew4; [exact Hne | apply Hc3]. }
    eapply wp_conseq;
      [apply (st_write G4 h3 l "properties" _ _ jo1 Hst4 Hc4 Hrp)|].
    intros _ h4 (? & ? & _). exists G4. now split. }
  clear h1 Hst1 Hc1 pv Hpv. intros _ h1 (G1 & Hst1 & Hc1).
  (* newSchema.items *)
  apply wp_bind.
  eapply wp_conseq; [apply (st_read _ _ _ "items" _ Hc1)|]. intros iv ? [-> Hiv].
  rewrite (repr_truthy _ _ _ Hiv).
  apply wp_bind.
  apply (wp_conseq _ _ (fun _ h' => exists G, st G h' /\ cell_is G h' l jo3)).
  { subst jo3. destruct (truthy (prop "items" jo2)) eqn:Eti.
    2:{ apply wp_ret. now exists G1. }
    assert (Hszi : size (prop "items" jo2) <= fuel).
    { unfold prop in Eti |- *. rewrite Hgi in Eti |- *.
      destruct (get "items" jo0) as [p|] eqn:Eg; [|discriminate].
      simpl. apply get_own_entries_lt in Eg; [lia | reflexivity]. }
    apply wp_bind.
    eapply wp_conseq; [apply (st_rec G1 h1 _ iv Hst1 Hiv Hszi)|].
    intros r h2 (G2 & Hst2 & HG2 & Hsub2 & Hnew2 & Hr2).
    assert (Hc2 : cell_is G2 h2 l jo2).
    { eapply cell_is_mono; [exact Hc1 | exact HG2 | |].
      - apply Hnew2; [|apply Hc1]. destruct Hc1 as (_ & _ & o & Ho & _). now rewrite Ho.
      - intros c Hc. eapply lookup_weaken; eassumption. }
    eapply wp_conseq; [apply (st_write G2 h2 l "items" _ _ jo2 Hst2 Hc2 Hr2)|].
    intros _ h3 (? & ? & _). exists G2. now split. }
  clear h1 G1 Hst1 Hc1 iv Hiv. intros _ h1 (G1 & Hst1 & Hc1).
  (* the two deletions *)
  apply wp_bind.
  eapply wp_conseq; [apply (st_remove G1 h1 l "additionalProperties" _ Hst1 Hc1)|].
  intros _ h2 (Hst2 & Hc2 & _).
  apply wp_bind.
  eapply wp_conseq; [apply (st_remove G1 h2 l "$schema" _ Hst2 Hc2)|].
  intros _ h3 (Hst3 & Hc3 & _).
  apply wp_ret.
  destruct (st_finish G1 h3 l _ Hst3 Hc3) as (G' & (P1 & P2 & P3 & P4) & _ & Hres & _).
  exists G'. repeat split; assumption.
Qed.

End Simulation.

(** Run on a value that is a document [j], with fuel for the depth of [j],
    [mapSchema] returns, and its result is the document that the
    function on values computes from [j]. *)
Lemma mapSchema_sim fuel :
  forall j G h s, size j <= fuel -> G ⊆ h -> repr G j s ->
    wp (mapSchema fuel s) h (post G h (Gemini.mapSchema j)).
Proof.
  induction fuel as [|fuel IH]; intros j G h s Hsz Hsub Hr.
  - pose proof (size_pos j). lia.
  - simpl. now apply body_sim.
Qed.

(** C9.  [mapSchema] is non-destructive.  Called on a value [s] that is a
    schema document [j] in the caller's heap [h], it returns; and whenever
    it returns, every cell of [h] is still what it was, so [s] is still the
    document [j], while the result is the converted document and, for an
    object [s], a reference to a cell that [h] did not have. *)
Theorem mapSchema_leaves_argument_unchanged (h : heap) (s : hval) (j : value) :
  repr h j s ->
  (exists r h', mapSchema (size j) s h = Some (r, h')
                /\ repr h' (Gemini.mapSchema j) r)
  /\ (forall fuel r h',
        mapSchema fuel s h = Some (r, h') ->
        (forall l c, h !! l = Some c -> h' !! l = Some c)
        /\ repr h' j s
        /\ (htruthy s = true -> exists l, r = HRef l /\ h !! l = None)).
Proof.
  intros Hr. split.
  - destruct (mapSchema_sim (size j) j h h s (le_n _) (reflexivity h) Hr)
      as (r & h' & Hrun & G' & _ & _ & HG & _ & Hres).
    exists r, h'. split; [exact Hrun|]. eapply repr_mono; eassumption.
  - intros fuel r h' Hrun.
    destruct (mapSchema_frame fuel s h r h' Hrun) as [Hsub Hnew].
    split; [|split; [eapply repr_mono; eassumption | exact Hnew]].
    intros l c Hl. eapply lookup_weaken; eassumption.
Qed.

(** Scenario C in the heap [scenario_heap]: the schema at cell 1. *)
Lemma mapSchema_leaves_scenario_unchanged :
  (exists r h', mapSchema (size Gemini.scenario_schema) (HRef 1%positive) scenario_heap
                = Some (r, h')
                /\ repr h' (Gemini.mapSchema Gemini.scenario_schema) r)
  /\ (forall fuel r h',
        mapSchema fuel (HRef 1%positive) scenario_heap = Some (r, h') ->
        (forall l c, scenario_heap !! l = Some c -> h' !! l = Some c)
        /\ repr h' Gemini.scenario_schema (HRef 1%positive)
        /\ (htruthy (HRef 1%positive) = true ->
            exists l, r = HRef l /\ scenario_heap !! l = None)).
Proof.
  apply (mapSchema_leaves_argument_unchanged
           scenario_heap (HRef 1%positive) Gemini.scenario_schema).
  simpl. exists 1%positive, [("type", HStr "object"); ("properties", HRef 2%positive)].
  repeat split.
  exists 2%positive, [("x", HRef 3%positive)]. repeat split.
  exists 3%positive, [("type", HStr "string")]. repeat split.
Defined.

End GeminiHeap.

(** ** The Anthropic adapter *)

Module Anthropic.
Import JS Chat.

(** A message of the [messages] parameter. *)
Record MessageParam : Type := {
  param_role : Role;
  param_content : option string
}.

Record Tool : Type := {
  tool_name : string;
  tool_description : string;
  input_schema : value
}.

(** [{ type: 'tool', name }] *)
Record ToolChoice : Type := {
  choice_type : string;
  choice_name : string
}.

(** The value of one parameter of [client.messages.create]. *)
Inductive Param : Type :=
| PString (s : string)
| PSystem (s : option string)
| PMessages (ms : list MessageParam)
| PNumber (n : Z)
| POptNumber (n : option number)
| PTools (ts : list Tool)
| PToolChoice (c : ToolChoice).

Definition blank_line : string := JSON.nl +:+ JSON.nl.

Definition default_description : string := "Output data in this structured format".

(** The loop over [request.messages] (anthropic.ts, lines 21-33): the
    system prompt and the message list it leaves. *)
Definition split_messages (msgs : list Message) : string * list MessageParam :=
  fold_left
    (fun (acc : string * list MessageParam) msg =>
       let '(systemPrompt, messages) := acc in
       match role msg with
       | system | developer =>
           (systemPrompt +:+ JSON.to_string (text_of (content msg)) +:+ blank_line,
            messages)
       | _ =>
           (systemPrompt,
            messages ++ [{| param_role := role msg;
                            param_content := text_of (content msg) |}])
       end)
    msgs ("", []).

(** [s.trim() || undefined] *)
Definition trimmed_or_undefined (s : string) : option string :=
  let t := Str.trim s in
  if String.eqb t "" then None else Some t.

(** [n || d] on optional numbers: zero and [NaN] are falsy. *)
Definition number_or (n : option number) (d : Z) : Z :=
  match n with
  | Some (finite v) => if (v =? 0)%Z then d else v
  | Some NaN => d
  | None => d
  end.

(** The argument of [client.messages.create] (anthropic.ts, lines 18-49),
    as the list of its parameters. *)
Definition create_params (request : Request) (options : ExecutionOptions)
  : list (string * Param) :=
  let model :=
    or_else (opt_model options) (or_else (Chat.model request) "claude-3-opus-20240229") in
  let '(systemPrompt, messages) := split_messages (Chat.messages request) in
  [("model", PString model);
   ("system", PSystem (trimmed_or_undefined systemPrompt));
   ("messages", PMessages messages);
   ("max_tokens", PNumber (number_or (opt_maxTokens options) 4096));
   ("temperature", POptNumber (opt_temperature options))]
  ++ match responseFormat request with
     | Some (json_schema js) =>
         [("tools",
           PTools [{| tool_name := schema_name js;
                      tool_description :=
                        or_else (schema_description js) default_description;
                      input_schema := schema js |}]);
          ("tool_choice",
           PToolChoice {| choice_type := "tool"; choice_name := schema_name js |})]
     | _ => []
     end.

(** A block of [response.content]. *)
Inductive ContentBlock : Type :=
| text_block (text : string)
| tool_use (input : value)
| other_block.

Definition is_tool_use (b : ContentBlock) : bool :=
  match b with
  | tool_use _ => true
  | _ => false
  end.

(** The [content] of the provider response (anthropic.ts, lines 53-64):
    [inl] is the returned content, [None] in it standing for [undefined];
    [inr] is the [TypeError] of reading [type] from a missing first block. *)
Definition response_content (request : Request) (blocks : list ContentBlock)
  : option string + unit :=
  match responseFormat request with
  | Some (json_schema _) =>
      match List.find is_tool_use blocks with
      | Some (tool_use input) => inl (JSON.stringify_indent2 input)
      | _ => inl (Some "")
      end
  | _ =>
      match blocks with
      | text_block text :: _ => inl (Some text)
      | _ :: _ => inl (Some "")
      | [] => inr tt
      end
  end.

(** The claim C4 read to the letter: the [system] string is the contents
    of the system and developer messages put one after the other, and the
    other messages go out with the roles and contents they came with. *)
Definition stated_system (msgs : list Message) : string :=
  String.concat ""
    (flat_map (fun m => match content m with VStr c => [c] | _ => [] end)
              (List.filter is_system msgs)).

Definition stated_messages (msgs : list Message) : list (Role * value) :=
  map (fun m => (role m, content m))
      (List.filter (fun m => negb (is_system m)) msgs).

Definition sent_messages (ps : list MessageParam) : list (Role * value) :=
  map (fun p => (param_role p,
                 match param_content p with Some s => VStr s | None => VUndefined end))
      ps.

(** The claim C2 read to the letter: the tool's description is the
    schema's description whenever one is present. *)
Definition stated_description (js : JsonSchema) : string :=
  match schema_description js with
  | Some d => d
  | None => default_description
  end.

Definition to_param (m : Message) : MessageParam :=
  {| param_role := role m; param_content := text_of (content m) |}.

(** The system prompt: each system or developer content followed by a
    blank line, in message order. *)
Fixpoint system_text (msgs : list Message) : string :=
  match msgs with
  | [] => ""
  | m :: msgs' =>
      if is_system m
      then JSON.to_string (text_of (content m)) +:+ blank_line +:+ system_text msgs'
      else system_text msgs'
  end.

Definition example_request : Request :=
  {| messages :=
       [ {| role := system; content := VStr "Be brief."; name := None |};
         {| role := developer; content := VStr "Use JSON."; name := None |};
         {| role := user; content := VArr [VStr "a"; VStr "b"]; name := None |} ];
     model := None;
     responseFormat := None |}.

Definition no_options : ExecutionOptions :=
  {| opt_model := None; opt_maxTokens := None; opt_temperature := None |}.

Lemma append_assoc (a b c : string) : (a +:+ b) +:+ c = a +:+ (b +:+ c).
Proof.
  induction a as [|x a IH]; [reflexivity|].
  change (String x ((a +:+ b) +:+ c) = String x (a +:+ (b +:+ c))). now rewrite IH.
Qed.

Lemma append_empty_r (a : string) : a +:+ "" = a.
Proof.
  induction a as [|x a IH]; [reflexivity|].
  change (String x (a +:+ "") = String x a). now rewrite IH.
Qed.


Lemma split_messages_from msgs systemPrompt messages :
  fold_left
    (fun (acc : string * list MessageParam) msg =>
       let '(systemPrompt, messages) := acc in
       match role msg with
       | system | developer =>
           (systemPrompt +:+ JSON.to_string (text_of (content msg)) +:+ blank_line,
            messages)
       | _ =>
           (systemPrompt,
            messages ++ [{| param_role := role msg;
                            param_content := text_of (content msg) |}])
       end)
    msgs (systemPrompt, messages)
  = (systemPrompt +:+ system_text msgs,
     messages ++ map to_param (List.filter (fun m => negb (is_system m)) msgs)).
Proof.
  revert systemPrompt messages.
  induction msgs as [|m msgs IH]; intros systemPrompt messages; simpl.
  - now rewrite append_empty_r, app_nil_r.
  - unfold is_system. destruct (role m) eqn:Er; rewrite IH; simpl;
      rewrite ?append_assoc, <- ?app_assoc; try reflexivity;
      unfold to_param; rewrite Er; reflexivity.
Qed.

Lemma split_messages_spec msgs :
  split_messages msgs =
  (system_text msgs, map to_param (List.filter (fun m => negb (is_system m)) msgs)).
Proof. unfold split_messages. now rewrite split_messages_from. Qed.

Lemma create_params_system request options :
  get "system" (create_params request options)
  = Some (PSystem (trimmed_or_undefined (system_text (messages request)))).
Proof.
  unfold create_params. rewrite split_messages_spec.
  now destruct (responseFormat request) as [[js|]|].
Qed.

Lemma all_space_app a b :
  Str.all_space (a +:+ b) = Str.all_space a && Str.all_space b.
Proof. unfold Str.all_space. now rewrite Str.to_list_app, forallb_app. Qed.

Lemma system_text_all_space msgs :
  Forall (fun m => is_system m = true ->
                   Str.all_space (JSON.to_string (text_of (content m))) = true) msgs ->
  Str.all_space (system_text msgs) = true.
Proof.
  induction 1 as [|m msgs Hm _ IH]; simpl; [reflexivity|].
  destruct (is_system m); [|exact IH].
  rewrite !all_space_app, (Hm eq_refl), IH. reflexivity.
Qed.

Lemma system_text_no_system msgs :
  Forall (fun m => is_system m = false) msgs -> system_text msgs = "".
Proof. induction 1 as [|m msgs Hm _ IH]; simpl; [reflexivity | now rewrite Hm]. Qed.

(** At [example_request] the adapter does not do what C4 says to the
    letter: the system string has a blank line between the two contents,
    and the array content of the user message goes out as its JSON text. *)
Lemma anthropic_contents_not_sent_as_is :
  get "system" (create_params example_request no_options)
    = Some (PSystem (Some ("Be brief." +:+ blank_line +:+ "Use JSON.")))
  /\ "Be brief." +:+ blank_line +:+ "Use JSON."
     <> stated_system (messages example_request)
  /\ get "messages" (create_params example_request no_options)
     = Some (PMessages [{| param_role := user;
                           param_content := JSON.stringify (VArr [VStr "a"; VStr "b"]) |}])
  /\ sent_messages [{| param_role := user;
                       param_content := JSON.stringify (VArr [VStr "a"; VStr "b"]) |}]
     <> stated_messages (messages example_request).
Proof.
  split; [reflexivity|]. split; [vm_compute; discriminate|].
  split; [reflexivity|]. vm_compute. discriminate.
Qed.

(** C4, amended.  The [system] parameter is the trimmed text made of every
    system or developer content, in message order, each followed by a blank
    line (or [undefined] when that text is blank); the [messages] parameter
    holds, in order, exactly the other messages, which have role [user] or
    [assistant], each with its role, and with its content when that is a
    string and the JSON text of its content otherwise. *)
Theorem anthropic_splits_system_from_messages (request : Request)
    (options : ExecutionOptions) :
  get "system" (create_params request options)
    = Some (PSystem (trimmed_or_undefined (system_text (messages request))))
  /\ exists sent,
       get "messages" (create_params request options) = Some (PMessages sent)
       /\ Forall2 (fun m p =>
                     param_role p = role m
                     /\ (role m = user \/ role m = assistant)
                     /\ param_content p = text_of (content m)
                     /\ (forall s, content m = VStr s -> param_content p = Some s))
                  (List.filter (fun m => negb (is_system m)) (messages request)) sent.
Proof.
  split; [apply create_params_system|].
  unfold create_params. rewrite split_messages_spec.
  - eexists. split; [now destruct (responseFormat request) as [[js|]|]|].
    induction (messages request) as [|m msgs IH]; simpl; [constructor|].
    destruct (is_system m) eqn:Es; simpl; [exact IH|].
    constructor; [|exact IH]. unfold is_system in Es. simpl.
    split; [reflexivity|]. split; [destruct (role m); try discriminate; tauto|].
    split; [reflexivity|]. intros s ->. reflexivity.
Qed.

(** C10.  When no message has role [system] or [developer], or when the
    contents of those that have are blank, the [system] parameter is
    [undefined]. *)
Theorem anthropic_omits_blank_system (request : Request) (options : ExecutionOptions) :
  Forall (fun m => is_system m = false) (messages request)
  \/ Forall (fun m => is_system m = true ->
                      Str.all_space (JSON.to_string (text_of (content m))) = true)
            (messages request) ->
  get "system" (create_params request options) = Some (PSystem None).
Proof.
  intros H.
  rewrite create_params_system.
  assert (Hs : Str.all_space (system_text (messages request)) = true).
  { destruct H as [H|H].
    - now rewrite system_text_no_system.
    - now apply system_text_all_space. }
  unfold trimmed_or_undefined. now rewrite (Str.trim_all_space _ Hs).
Qed.

(** A request with a blank system message. *)
Lemma anthropic_omits_blank_system_example :
  get "system"
      (create_params
         {| messages :=
              [ {| role := user; content := VStr "hi"; name := None |};
                {| role := system; content := VStr "  "; name := None |} ];
            model := None;
            responseFormat := None |}
         no_options)
  = Some (PSystem None).
Proof.
  apply anthropic_omits_blank_system. right.
  constructor; [intros H; discriminate H|].
  constructor; [intros _; reflexivity|].
  constructor.
Defined.

Definition blank_description_schema : JsonSchema :=
  {| schema_name := "answer";
     schema_description := Some "";
     schema := Gemini.scenario_schema |}.

Definition blank_description_request : Request :=
  {| messages := [ {| role := user; content := VStr "hi"; name := None |} ];
     model := None;
     responseFormat := Some (json_schema blank_description_schema) |}.

(** With a description that is present but empty the adapter does not do
    what C2 says to the letter: the tool gets the default description. *)
Lemma anthropic_empty_description_replaced :
  get "tools" (create_params blank_description_request no_options)
    = Some (PTools [{| tool_name := "answer";
                       tool_description := default_description;
                       input_schema := Gemini.scenario_schema |}])
  /\ stated_description blank_description_schema = ""
  /\ default_description <> stated_description blank_description_schema.
Proof. repeat split. discriminate. Qed.

(** C2, amended.  For a request whose [responseFormat] is of type
    [json_schema] the parameters hold no response-format field; [tools] is
    one tool, named as the schema, described by the schema's description
    when that is present and not empty and by the default otherwise, with
    the schema as [input_schema]; [tool_choice] forces that tool by name;
    and when the response has a [tool_use] block, the returned content is
    the JSON text (indented by two) of the input of the first one, whatever
    text blocks there are. *)
Theorem anthropic_forces_schema_tool (request : Request) (options : ExecutionOptions)
    (js : JsonSchema) :
  responseFormat request = Some (json_schema js) ->
  get "response_format" (create_params request options) = None
  /\ get "responseFormat" (create_params request options) = None
  /\ (exists tool,
        get "tools" (create_params request options) = Some (PTools [tool])
        /\ tool_name tool = schema_name js
        /\ input_schema tool = schema js
        /\ (forall d, schema_description js = Some d -> d <> "" ->
                      tool_description tool = d)
        /\ (schema_description js = None \/ schema_description js = Some "" ->
            tool_description tool = default_description))
  /\ get "tool_choice" (create_params request options)
     = Some (PToolChoice {| choice_type := "tool"; choice_name := schema_name js |})
  /\ (forall blocks input,
        List.find is_tool_use blocks = Some (tool_use input) ->
        response_content request blocks = inl (JSON.stringify_indent2 input)).
Proof.
  intros Hrf. unfold create_params, response_content. rewrite Hrf.
  destruct (split_messages (messages request)) as [systemPrompt msgs].
  split; [reflexivity|]. split; [reflexivity|]. split; [|split; [reflexivity|]].
  - eexists. split; [reflexivity|]. simpl.
    split; [reflexivity|]. split; [reflexivity|]. split.
    + intros d -> Hd. simpl. destruct (String.eqb_spec d ""); [contradiction | reflexivity].
    + intros [-> | ->]; reflexivity.
  - intros blocks input ->. reflexivity.
Qed.

(** A request for structured output, and a response with text before the
    tool call. *)
Lemma anthropic_forces_schema_tool_example :
  get "tool_choice"
      (create_params
         {| messages := [ {| role := user; content := VStr "hi"; name := None |} ];
            model := None;
            responseFormat :=
              Some (json_schema {| schema_name := "answer";
                                   schema_description := Some "The answer";
                                   schema := Gemini.scenario_schema |}) |}
         no_options)
    = Some (PToolChoice {| choice_type := "tool"; choice_name := "answer" |})
  /\ response_content
       {| messages := [ {| role := user; content := VStr "hi"; name := None |} ];
          model := None;
          responseFormat :=
            Some (json_schema {| schema_name := "answer";
                                 schema_description := Some "The answer";
                                 schema := Gemini.scenario_schema |}) |}
       [text_block "Here you are"; tool_use (VObj [("x", VStr "1")])]
     = inl (JSON.stringify_indent2 (VObj [("x", VStr "1")])).
Proof.
  pose proof (anthropic_forces_schema_tool
                {| messages := [ {| role := user; content := VStr "hi"; name := None |} ];
                   model := None;
                   responseFormat :=
                     Some (json_schema {| schema_name := "answer";
                                          schema_description := Some "The answer";
                                          schema := Gemini.scenario_schema |}) |}
                no_options
                {| schema_name := "answer";
                   schema_description := Some "The answer";
                   schema := Gemini.scenario_schema |}
                eq_refl) as (_ & _ & _ & Hchoice & Hresp).
  split; [exact Hchoice|].
  apply Hresp. reflexivity.
Defined.

End Anthropic.

(** ** The OpenAI adapter *)

Module OpenAI.
Import JS Chat.

(** A message of the [messages] parameter. *)
Record MessageParam : Type := {
  param_role : Role;
  param_content : option string;
  param_name : option string
}.

(** The value of one parameter of [client.chat.completions.create]. *)
Inductive Param : Type :=
| PString (s : string)
| PMessages (ms : list MessageParam)
| POptNumber (n : option number)
| PResponseFormat (rf : option ResponseFormat).

(** The function mapped over [request.messages] (lines 21-34). *)
Definition to_param (msg : Message) : MessageParam :=
  let role := match role msg with developer => system | r => r end in
  {| param_role := role;
     param_content := text_of (content msg);
     param_name := name msg |}.

(** The argument of [client.chat.completions.create] (lines 18-42). *)
Definition create_params (request : Request) (options : ExecutionOptions)
  : list (string * Param) :=
  let model := or_else (opt_model options) (or_else (Chat.model request) "gpt-4") in
  let messages := map to_param (messages request) in
  [("model", PString model);
   ("messages", PMessages messages);
   ("temperature", POptNumber (opt_temperature options));
   ("max_tokens", POptNumber (opt_maxTokens options));
   ("response_format", PResponseFormat (responseFormat request))].

(** The claim C3 read to the letter: every message goes out with the role,
    content and name it came with. *)
Definition stated_messages (msgs : list Message) : list (Role * value * option string) :=
  map (fun m => (role m, content m, name m)) msgs.

Definition sent_messages (ps : list MessageParam) : list (Role * value * option string) :=
  map (fun p => (param_role p,
                 match param_content p with Some s => VStr s | None => VUndefined end,
                 param_name p))
      ps.

Definition example_request : Request :=
  {| messages :=
       [ {| role := developer; content := VStr "Be brief."; name := None |};
         {| role := user; content := VArr [VStr "a"; VStr "b"]; name := Some "ann" |} ];
     model := None;
     responseFormat := None |}.

Definition no_options : ExecutionOptions :=
  {| opt_model := None; opt_maxTokens := None; opt_temperature := None |}.

(** At [example_request] the adapter does not do what C3 says to the
    letter: the developer message goes out with role [system], and the
    array content of the user message goes out as its JSON text. *)
Lemma openai_messages_not_sent_as_is :
  get "messages" (create_params example_request no_options)
    = Some (PMessages
              [ {| param_role := system;
                   param_content := Some "Be brief.";
                   param_name := None |};
                {| param_role := user;
                   param_content := JSON.stringify (VArr [VStr "a"; VStr "b"]);
                   param_name := Some "ann" |} ])
  /\ sent_messages (map to_param (messages example_request))
     <> stated_messages (messages example_request).
Proof. split; [reflexivity|]. vm_compute. discriminate. Qed.

(** C3, amended.  The [messages] parameter holds one message for each
    message of the request, in the same order, with the same name, with
    the same content when that is a string and the JSON text of the content
    otherwise, and with the same role when that is [system], [user] or
    [assistant]; [response_format] is the request's [responseFormat]. *)
Theorem openai_passes_messages_and_format (request : Request)
    (options : ExecutionOptions) :
  (exists sent,
      get "messages" (create_params request options) = Some (PMessages sent)
      /\ Forall2 (fun m p =>
                    param_name p = name m
                    /\ param_content p = text_of (content m)
                    /\ (forall s, content m = VStr s -> param_content p = Some s)
                    /\ (role m <> developer -> param_role p = role m))
                 (messages request) sent)
  /\ get "response_format" (create_params request options)
     = Some (PResponseFormat (responseFormat request)).
Proof.
  split; [|reflexivity].
  eexists. split; [reflexivity|].
  induction (messages request) as [|m msgs IH]; simpl; constructor; [|exact IH].
  unfold to_param. simpl.
  split; [reflexivity|]. split; [reflexivity|]. split.
  - intros s Hs. now rewrite Hs.
  - intros Hr. destruct (role m); congruence.
Qed.

End OpenAI.

(** ** Regular expressions

    The patterns the loader uses, as syntax trees, and the backtracking
    matcher of ECMAScript for them. *)

Module Regex.

Inductive node : Type :=
| Empty
| Char (class : ascii -> bool)
| Seq (a b : node)
| Alt (a b : node)
| Group (n : nat) (a : node)
| Repeat (greedy : bool) (min : nat) (max : option nat) (a : node)
| LineStart
| LineEnd.

(** A [RegExp] object: [new RegExp(source, flags)] with flags among [i] and
    [m]. *)
Record RegExp : Type := {
  source : node;
  ignoreCase : bool;
  multiline : bool
}.

(** A position in the input: the characters before it, nearest first, the
    characters from it on, and the groups captured so far. *)
Record state : Type := {
  before : list ascii;
  rest : list ascii;
  captures : list (nat * list ascii)
}.

Definition advance (c : ascii) (cs : list ascii) (st : state) : state :=
  {| before := c :: before st; rest := cs; captures := captures st |}.

(** The characters consumed between two positions of one run. *)
Definition consumed (from to : state) : list ascii :=
  rev (firstn (length (before to) - length (before from)) (before to)).

Definition capture (n : nat) (from to : state) : state :=
  {| before := before to; rest := rest to;
     captures := (n, consumed from to) :: captures to |}.

Section Matcher.
Variable re : RegExp.

Definition in_class (class : ascii -> bool) (c : ascii) : bool :=
  if ignoreCase re
  then class c || class (Str.lower_char c) || class (Str.upper_char c)
  else class c.

Definition at_line_start (st : state) : bool :=
  match before st with
  | [] => true
  | c :: _ => multiline re && Str.is_line_terminator c
  end.

Definition at_line_end (st : state) : bool :=
  match rest st with
  | [] => true
  | c :: _ => multiline re && Str.is_line_terminator c
  end.

(** [run r st k]: match [r] at [st], then continue with [k]; the first
    alternative that lets the whole succeed is taken.  In a repetition, an
    iteration past the first [min] must consume a character, as in
    ECMAScript, so there are at most [min + length (rest st)] iterations:
    the loop's [fuel] never cuts a match short. *)
Fixpoint run (r : node) (st : state) (k : state -> option state) {struct r}
  : option state :=
  match r with
  | Empty => k st
  | Char class =>
      match rest st with
      | c :: cs => if in_class class c then k (advance c cs st) else None
      | [] => None
      end
  | Seq a b => run a st (fun st' => run b st' k)
  | Alt a b =>
      match run a st k with
      | Some e => Some e
      | None => run b st k
      end
  | Group n a => run a st (fun st' => k (capture n st st'))
  | Repeat greedy min max a =>
      (fix loop (fuel count : nat) (st : state) {struct fuel} : option state :=
         let stop := if min <=? count then k st else None in
         match fuel with
         | 0 => stop
         | S fuel' =>
             let again :=
               if match max with Some m => count <? m | None => true end
               then run a st (fun st' =>
                      if (length (rest st') <? length (rest st)) || (count <? min)
                      then loop fuel' (S count) st'
                      else None)
               else None in
             if greedy
             then match again with Some e => Some e | None => stop end
             else match stop with Some e => Some e | None => again end
         end) (min + length (rest st)) 0 st
  | LineStart => if at_line_start st then k st else None
  | LineEnd => if at_line_end st then k st else None
  end.

(** The leftmost match at or after a position. *)
Fixpoint search (prefix : list ascii) (input : list ascii) : option (state * state) :=
  let st := {| before := prefix; rest := input; captures := [] |} in
  match run (source re) st Some with
  | Some e => Some (st, e)
  | None =>
      match input with
      | c :: input' => search (c :: prefix) input'
      | [] => None
      end
  end.

End Matcher.

(** The result of [re.exec(s)]: the text before the match, the match, the
    text after it, and the captured groups. *)
Record MatchResult : Type := {
  preceding : string;
  matched : string;
  following : string;
  groups : list (nat * list ascii)
}.

Definition exec (re : RegExp) (s : string) : option MatchResult :=
  match search re [] (Str.to_list s) with
  | Some (from, to) =>
      Some {| preceding := Str.of_list (rev (before from));
              matched := Str.of_list (consumed from to);
              following := Str.of_list (rest to);
              groups := captures to |}
  | None => None
  end.

(** [m[n]] *)
Definition group (n : nat) (m : MatchResult) : option string :=
  match List.find (fun g => fst g =? n) (groups m) with
  | Some g => Some (Str.of_list (snd g))
  | None => None
  end.

(** [re.test(s)] *)
Definition test (re : RegExp) (s : string) : bool :=
  match exec re s with
  | Some _ => true
  | None => false
  end.

(** [s.replace(re, '')] for a [RegExp] without the [g] flag. *)
Definition remove_first (re : RegExp) (s : string) : string :=
  match exec re s with
  | Some m => preceding m +:+ following m
  | None => s
  end.

Definition just (c : ascii) : ascii -> bool := fun x => Ascii.eqb x c.

(** [.] *)
Definition dot : ascii -> bool := fun c => negb (Str.is_line_terminator c).

(** The characters of a literal, one after the other. *)
Fixpoint literal (s : string) : node :=
  match s with
  | EmptyString => Empty
  | String c s' => Seq (Char (just c)) (literal s')
  end.

(** [(a|b|...)] over literals. *)
Fixpoint one_of (alternatives : list string) : node :=
  match alternatives with
  | [] => Char (fun _ => false)
  | [a] => literal a
  | a :: alternatives' => Alt (literal a) (one_of alternatives')
  end.

End Regex.

(** ** The filesystem loader *)

Module Loader.
Import Regex.

(** [/^(#{1,6})\s+(.+?)(?:\n|$)/m] *)
Definition headerRegex : RegExp :=
  {| source :=
       Seq LineStart
      (Seq (Group 1 (Repeat true 1 (Some 6) (Char (just "#"%char))))
      (Seq (Repeat true 1 None (Char Str.is_space))
      (Seq (Group 2 (Repeat false 1 None (Char dot)))
           (Alt (Char (just (ascii_of_nat 10))) LineEnd))));
     ignoreCase := false;
     multiline := true |}.

(** [extractFirstHeader] (loader.ts, lines 83-93); [None] is [null]. *)
Definition extractFirstHeader (markdownText : string) : option string :=
  match exec headerRegex markdownText with
  | Some m =>
      match group 2 m with
      | Some g => if String.eqb g "" then None else Some (Str.trim g)
      | None => None
      end
  | None => None
  end.

(** [removeFirstHeader] (loader.ts, lines 100-110). *)
Definition removeFirstHeader (markdownText : string) : string :=
  match exec headerRegex markdownText with
  | Some _ => Str.trim (remove_first headerRegex markdownText)
  | None => markdownText
  end.

(** *** Sections *)

(** Modelled from the spec: the [Parameters] of items/parameters (not under
    [src/]), a flat or nested map from keys to values. *)
Definition Parameters : Type := list (string * JS.value).

(** Modelled from the spec: the [SectionOptions] of items/section (not
    under [src/]), each of them optional, as [load] and [add] are given
    them. *)
Record SectionOptions : Type := {
  opt_title : option string;
  opt_weight : option Z;
  opt_itemWeight : option Z;
  opt_parameters : option Parameters
}.

(** [{ ...a, ...b }] *)
Definition spread (a b : Parameters) : Parameters :=
  fold_left (fun o kv => Props.set (fst kv) (snd kv) o) b a.

(** [{ ...options, parameters }] *)
Definition with_parameters (parameters : Parameters) (options : SectionOptions)
  : SectionOptions :=
  {| opt_title := opt_title options;
     opt_weight := opt_weight options;
     opt_itemWeight := opt_itemWeight options;
     opt_parameters := Some parameters |}.

(** Modelled from the spec: [createSection] and [Section.add] (items/section
    is not under [src/]).  Of a section the model keeps the title, the
    ordered items and the parameters that its items inherit; of an item,
    the text.  Weights, which change no title and no text, are carried by
    the options and not kept.  The title is the string the section is made
    with: the specification has the parameters substituted into the text
    of items, as they are made.  [add] appends and returns the section: a
    string becomes an item whose text is the string with the parameters
    substituted, the parameters being those of the call or, when the call
    gives none, those of the section; an item or a section made before is
    appended as it is.  The substitution itself, of items/parameters, is
    taken as the parameter [substitute]: the specification has it replace
    every [{{key.path}}] that the parameters resolve by the value as a
    string and keep the rest of the text. *)
Inductive Section : Type :=
| mkSection (title : string) (items : list (string + Section))
            (parameters : option Parameters).

Definition title (s : Section) : string := let 'mkSection t _ _ := s in t.
Definition items (s : Section) : list (string + Section) :=
  let 'mkSection _ i _ := s in i.
Definition parameters (s : Section) : option Parameters :=
  let 'mkSection _ _ p := s in p.

(** What [add] is given: a string, or an item or a section made before. *)
Inductive addend : Type :=
| raw (text : string)
| made (item : string + Section).

(** [createSection({ ...options, title })] *)
Definition createSection (title : string) (options : SectionOptions) : Section :=
  mkSection title [] (opt_parameters options).

(** The text of the item made of a string under given parameters. *)
Definition item_text (substitute : Parameters -> string -> string)
    (parameters : option Parameters) (text : string) : string :=
  match parameters with
  | Some p => substitute p text
  | None => text
  end.

(** [section.add(item, options)] *)
Definition add (substitute : Parameters -> string -> string) (item : addend)
    (options : SectionOptions) (s : Section) : Section :=
  let entry :=
    match item with
    | raw text =>
        let inherited :=
          match opt_parameters options with
          | Some p => Some p
          | None => parameters s
          end in
        inl (item_text substitute inherited text)
    | made i => i
    end in
  mkSection (title s) (items s ++ [entry]) (parameters s).

(** The sub-sections of a section, in order. *)
Definition subsections (s : Section) : list Section :=
  flat_map (fun i => match i with inr sub => [sub] | inl _ => [] end) (items s).

(** The texts of the items of a section that are no sections, in order. *)
Definition texts (s : Section) : list string :=
  flat_map (fun i => match i with inl text => [text] | inr _ => [] end) (items s).

(** *** Logging and exceptions *)

Inductive level : Type := debug | warn | error | audit.

Definition entry : Type := level * string.

(** A JavaScript [Error]. *)
Record Error : Type := { message : string }.

Inductive outcome (A : Type) : Type :=
| Ok (a : A)
| Throw (e : Error).
Arguments Ok {A} a.
Arguments Throw {A} e.

(** A computation that logs and may throw. *)
Definition M (A : Type) : Type := outcome A * list entry.

Definition ret {A} (a : A) : M A := (Ok a, []).

Definition bind {A B} (m : M A) (k : A -> M B) : M B :=
  match m with
  | (Ok a, l1) => let '(r, l2) := k a in (r, l1 ++ l2)
  | (Throw e, l1) => (Throw e, l1)
  end.

Notation "'do' x <~ m ; k" := (bind m (fun x => k))
  (at level 20, x name, m at level 100, k at level 200).

Definition log (lv : level) (msg : string) : M unit := (Ok tt, [(lv, msg)]).

(** [await] of a storage call. *)
Definition await {A} (r : outcome A) : M A := (r, []).

(** *** What the loader is given from outside the repository *)

(** The result of [SafeRegex.create] and [SafeRegex.globToRegex]. *)
Record SafeRegexResult : Type := {
  safe : bool;
  regex : option RegExp;
  error_text : option string
}.

(** A call of one of the callbacks given to [new SafeRegex]. *)
Inductive callback : Type :=
| onBlock (message pattern : string)
| onWarning (message pattern : string).

(** The packages and the file system [load] runs against: pressurelid's
    [SafeRegex] (each call returns its result and the callbacks it made),
    Node's [path], the storage utility, spotclean's [createSafeError] with
    the context it is given, and the substitution of parameters into a
    text. *)
Record World : Type := {
  safe_create : string -> string -> SafeRegexResult * list callback;
  safe_globToRegex : string -> SafeRegexResult * list callback;
  path_join : string -> string -> string;
  path_basename : string -> string;
  storage_exists : string -> outcome bool;
  storage_readFile : string -> outcome string;
  storage_listFiles : string -> outcome (list string);
  storage_isFile : string -> outcome bool;
  createSafeError : Error -> list (string * string) -> Error;
  substitute : Parameters -> string -> string
}.

(** Modelled from the spec: [DEFAULT_IGNORE_PATTERNS] ([constants.ts] is
    not under [src/]), the list of the loader's documentation: dotfiles,
    then image, audio, video, document and archive extensions. *)
Definition dot_pattern : string := "^\..*".
Definition image_pattern : string := "\.(jpg|jpeg|png|gif|bmp|svg|webp|ico)$".
Definition audio_pattern : string := "\.(mp3|wav|ogg|aac|flac)$".
Definition video_pattern : string := "\.(mp4|mov|avi|mkv|webm)$".
Definition document_pattern : string := "\.(pdf|doc|docx|xls|xlsx|ppt|pptx)$".
Definition archive_pattern : string := "\.(zip|tar|gz|rar|7z)$".

Definition DEFAULT_IGNORE_PATTERNS : list string :=
  [dot_pattern; image_pattern; audio_pattern; video_pattern;
   document_pattern; archive_pattern].

(** [load] called without options. *)
Definition no_options : SectionOptions :=
  {| opt_title := None; opt_weight := None; opt_itemWeight := None;
     opt_parameters := None |}.

Section Load.
Variable world : World.
Variable ignorePatterns : list string.
Variable parameters : Parameters.

(** The callbacks given to [new SafeRegex] (loader.ts, lines 38-49). *)
Definition on_callback (c : callback) : list entry :=
  match c with
  | onBlock message _ =>
      [(warn, "Blocked unsafe ignore pattern: " +:+ message);
       (audit, "Blocked unsafe regex pattern: " +:+ message)]
  | onWarning message _ => [(debug, "Regex warning: " +:+ message)]
  end.

Definition calling {A} (r : A * list callback) : M A :=
  (Ok (fst r), flat_map on_callback (snd r)).

Definition usable (r : SafeRegexResult) : bool :=
  safe r && match regex r with Some _ => true | None => false end.

(** [a || b] in a template: [undefined] prints as such. *)
Definition first_error (a b : option string) : string :=
  match a with
  | Some s => if String.eqb s "" then JSON.to_string b else s
  | None => JSON.to_string b
  end.

(** The function mapped over the patterns (loader.ts, lines 53-70). *)
Definition compile_pattern (pattern : string) : M (option RegExp) :=
  do result <~ calling (safe_create world pattern "i") ;
  if usable result then ret (regex result) else
  do globResult <~ calling (safe_globToRegex world pattern) ;
  if usable globResult then ret (regex globResult) else
  do _ <~ log warn ("Invalid or unsafe ignore pattern " +:+ JSON.dquote +:+ pattern
                    +:+ JSON.dquote +:+ ": "
                    +:+ first_error (error_text result) (error_text globResult)) ;
  ret None.

Fixpoint map_M {A B} (f : A -> M B) (xs : list A) : M (list B) :=
  match xs with
  | [] => ret []
  | x :: xs' => do y <~ f x ; do ys <~ map_M f xs' ; ret (y :: ys)
  end.

(** [createSafeIgnorePatterns] (loader.ts, lines 31-72). *)
Definition createSafeIgnorePatterns (patterns : list string) : M (list RegExp) :=
  do compiled <~ map_M compile_pattern patterns ;
  ret (omap id compiled).

(** [loadOptions] (loader.ts, lines 119-128): the options of the call,
    their parameters laid over those of the loader.  The check of
    [SectionOptionsSchema] is left to the type. *)
Definition loadOptions (sectionOptions : SectionOptions) : SectionOptions :=
  let currentOptions := sectionOptions in
  with_parameters
    (spread parameters (default [] (opt_parameters currentOptions)))
    currentOptions.

(** The predicate of [files.filter] (loader.ts, lines 187-191). *)
Definition kept (ignorePatternsRegex : list RegExp) (contextDir file : string) : bool :=
  let fullPath := path_join world contextDir file in
  negb (existsb (fun regex => test regex file || test regex fullPath)
                ignorePatternsRegex).

(** The section made from one file (loader.ts, lines 200-216). *)
Definition fileSection (sectionOptions : SectionOptions) (file fileContent : string)
  : Section :=
  let '(sectionName, contentToAdd) :=
    if Str.endsWith file ".md"
    then match extractFirstHeader fileContent with
         | Some fileHeader =>
             if String.eqb fileHeader "" then (file, fileContent)
             else (fileHeader, removeFirstHeader fileContent)
         | None => (file, fileContent)
         end
    else (file, fileContent) in
  let fileSection := createSection sectionName sectionOptions in
  add (substitute world) (raw contentToAdd) sectionOptions fileSection.

(** The body of the loop over the filtered files (loader.ts, lines 193-222). *)
Definition addFile (sectionOptions : SectionOptions) (contextDir : string)
    (mainContextSection : Section) (file : string) : M Section :=
  if String.eqb file "context.md" then ret mainContextSection else
  do _ <~ log debug ("Processing file " +:+ file +:+ " in " +:+ contextDir) ;
  let filePath := path_join world contextDir file in
  do isFile <~ await (storage_isFile world filePath) ;
  if isFile : bool then
    do fileContent <~ await (storage_readFile world filePath) ;
    let fileSection := fileSection sectionOptions file fileContent in
    ret (add (substitute world) (made (inr fileSection)) sectionOptions
             mainContextSection)
  else ret mainContextSection.

Fixpoint fold_M {A B} (f : B -> A -> M B) (xs : list A) (b : B) : M B :=
  match xs with
  | [] => ret b
  | x :: xs' => do b' <~ f b x ; fold_M f xs' b'
  end.

(** The directory's own section (loader.ts, lines 157-181). *)
Definition mainSection (sectionOptions : SectionOptions) (contextDir dirName : string)
  : M Section :=
  let contextFile := path_join world contextDir "context.md" in
  do found <~ await (storage_exists world contextFile) ;
  if found : bool then
    do _ <~ log debug ("Found context.md file in " +:+ contextDir) ;
    do mainContextContent <~ await (storage_readFile world contextFile) ;
    match extractFirstHeader mainContextContent with
    | Some firstHeader =>
        if String.eqb firstHeader ""
        then ret (add (substitute world) (raw mainContextContent) sectionOptions
                      (createSection dirName sectionOptions))
        else ret (add (substitute world) (raw (removeFirstHeader mainContextContent))
                      sectionOptions (createSection firstHeader sectionOptions))
    | None => ret (add (substitute world) (raw mainContextContent) sectionOptions
                       (createSection dirName sectionOptions))
    end
  else ret (createSection dirName sectionOptions).

(** The body of the [try] block (loader.ts, lines 155-224). *)
Definition processDirectory (sectionOptions : SectionOptions) (contextDir : string)
  : M Section :=
  let dirName := path_basename world contextDir in
  do _ <~ log debug ("Processing context directory " +:+ dirName) ;
  do mainContextSection <~ mainSection sectionOptions contextDir dirName ;
  do files <~ await (storage_listFiles world contextDir) ;
  do ignorePatternsRegex <~ createSafeIgnorePatterns ignorePatterns ;
  let filteredFiles := List.filter (kept ignorePatternsRegex contextDir) files in
  fold_M (addFile sectionOptions contextDir) filteredFiles mainContextSection.

(** The [catch] block (loader.ts, lines 225-229). *)
Definition on_failure (contextDir : string) (e : Error) : list entry :=
  let safeError :=
    createSafeError world e
      [("operation", "load"); ("directory", path_basename world contextDir)] in
  [(error, "Error processing context directory: " +:+ message safeError)].

(** The loop over the directories (loader.ts, lines 153-230). *)
Fixpoint loadEach (sectionOptions : SectionOptions) (contextDirectories : list string)
    (contextSections : list Section) : list Section * list entry :=
  match contextDirectories with
  | [] => (contextSections, [])
  | contextDir :: others =>
      match processDirectory sectionOptions contextDir with
      | (Ok mainContextSection, l1) =>
          let '(result, l2) :=
            loadEach sectionOptions others (contextSections ++ [mainContextSection]) in
          (result, l1 ++ l2)
      | (Throw e, l1) =>
          let '(result, l2) := loadEach sectionOptions others contextSections in
          (result, l1 ++ on_failure contextDir e ++ l2)
      end
  end.

(** [load] (loader.ts, lines 136-233) of the loader made by
    [create({ ignorePatterns, parameters })]: the sections it resolves to,
    and what it has logged. *)
Definition load (contextDirectories : list string) (options : SectionOptions)
  : list Section * list entry :=
  let sectionOptions := loadOptions options in
  let start := [(debug, "Loading context from " +:+ JSON.join "," contextDirectories)] in
  match contextDirectories with
  | [] =>
      ([], start ++ [(debug, "No context directories provided, returning empty context")])
  | _ =>
      let '(result, l) := loadEach sectionOptions contextDirectories [] in
      (result, start ++ l)
  end.

(** The sections of the directories that did not fail. *)
Definition succeeded (sectionOptions : SectionOptions) (contextDir : string)
  : option Section :=
  match fst (processDirectory sectionOptions contextDir) with
  | Ok mainContextSection => Some mainContextSection
  | Throw _ => None
  end.

End Load.

(** What a pattern compiles to, if anything. *)
Definition compiled (world : World) (pattern : string) : option RegExp :=
  let result := fst (safe_create world pattern "i") in
  if usable result then regex result else
  let globResult := fst (safe_globToRegex world pattern) in
  if usable globResult then regex globResult else None.

(** A result that gives no regular expression to use: [safe] is false, or
    there is no [regex]. *)
Definition unusable (r : SafeRegexResult) : Prop :=
  safe r = false \/ regex r = None.

(** A pattern that neither [create] nor [globToRegex] makes usable. *)
Definition rejected (world : World) (pattern : string) : Prop :=
  unusable (fst (safe_create world pattern "i"))
  /\ unusable (fst (safe_globToRegex world pattern)).

(** The claim C5 read to the letter: a heading counts when the content
    starts with it, and the item is the content. *)
Definition leading_heading (content : string) : bool :=
  match exec headerRegex content with
  | Some m => String.eqb (preceding m) ""
  | None => false
  end.

Definition stated_fileSection (sectionOptions : SectionOptions)
    (file fileContent : string) : Section :=
  if Str.endsWith file ".md" && leading_heading fileContent
  then mkSection (default file (extractFirstHeader fileContent))
                 [inl (removeFirstHeader fileContent)]
                 (opt_parameters sectionOptions)
  else mkSection file [inl fileContent] (opt_parameters sectionOptions).

(** [s.includes(t)] *)
Fixpoint starts_with (t s : list ascii) : bool :=
  match t, s with
  | [], _ => true
  | c :: t', d :: s' => Ascii.eqb c d && starts_with t' s'
  | _ :: _, [] => false
  end.

Fixpoint includes_from (t s : list ascii) : bool :=
  starts_with t s
  || match s with
     | [] => false
     | _ :: s' => includes_from t s'
     end.

Definition includes (s t : string) : bool :=
  includes_from (Str.to_list t) (Str.to_list s).

(** *** A small world for examples *)

(** [new RegExp(pattern, flags)] for the patterns of the examples. *)
Definition extension (names : list string) : node :=
  Seq (Char (just "."%char)) (Seq (Group 1 (one_of names)) LineEnd).

Definition known_sources : list (string * node) :=
  [ (dot_pattern,
     Seq LineStart (Seq (Char (just "."%char)) (Repeat true 0 None (Char dot))));
    (image_pattern, extension ["jpg"; "jpeg"; "png"; "gif"; "bmp"; "svg"; "webp"; "ico"]);
    (audio_pattern, extension ["mp3"; "wav"; "ogg"; "aac"; "flac"]);
    (video_pattern, extension ["mp4"; "mov"; "avi"; "mkv"; "webm"]);
    (document_pattern, extension ["pdf"; "doc"; "docx"; "xls"; "xlsx"; "ppt"; "pptx"]);
    (archive_pattern, extension ["zip"; "tar"; "gz"; "rar"; "7z"]);
    ("^/ctx$", Seq LineStart (Seq (literal "/ctx") LineEnd));
    ("draft", literal "draft") ].

(** The pattern of Scenario D, whose quantifier is nested in another. *)
Definition nested_quantifiers : string := "(a+)+".

Fixpoint assoc {A} (k : string) (l : list (string * A)) : option A :=
  match l with
  | [] => None
  | (k', v) :: l' => if String.eqb k' k then Some v else assoc k l'
  end.

Definition has_flag (c : ascii) (flags : string) : bool :=
  existsb (Ascii.eqb c) (Str.to_list flags).

Definition new_RegExp (pattern flags : string) : option RegExp :=
  match assoc pattern known_sources with
  | Some n => Some {| source := n;
                      ignoreCase := has_flag "i"%char flags;
                      multiline := has_flag "m"%char flags |}
  | None => None
  end.

(** A glob as a regular expression, the usual way: [*] stands for any
    characters, [?] for one, every other character for itself, and the
    whole name is to match. *)
Fixpoint glob_node (cs : list ascii) : node :=
  match cs with
  | [] => LineEnd
  | c :: cs' =>
      Seq (if Ascii.eqb c "*"%char then Repeat true 0 None (Char dot)
           else if Ascii.eqb c "?"%char then Char dot
           else Char (just c))
          (glob_node cs')
  end.

Definition glob_RegExp (pattern : string) : RegExp :=
  {| source := Seq LineStart (glob_node (Str.to_list pattern));
     ignoreCase := false;
     multiline := false |}.

(** The [maxLength] that [createSafeIgnorePatterns] gives to [new SafeRegex]
    (loader.ts, line 36). *)
Definition maxLength : nat := 500.

Definition too_long (pattern : string) : bool := maxLength <? String.length pattern.

Definition blocked (reason message pattern : string) : SafeRegexResult * list callback :=
  ({| safe := false; regex := None; error_text := Some reason |},
   [onBlock message pattern]).

(** A [SafeRegex] for the examples.  [create] blocks a pattern over the
    length limit and the pattern of Scenario D, makes the regular
    expression of a pattern of [known_sources], and has no more syntax than
    these.  [globToRegex] blocks a pattern over the length limit and
    translates any other. *)
Definition sample_create (pattern flags : string) : SafeRegexResult * list callback :=
  if too_long pattern
  then blocked "pattern_too_long" "Pattern exceeds maximum length" pattern
  else if String.eqb pattern nested_quantifiers
  then blocked "nested_quantifiers" "Pattern contains nested quantifiers" pattern
  else match new_RegExp pattern flags with
       | Some r => ({| safe := true; regex := Some r; error_text := None |}, [])
       | None => ({| safe := false; regex := None;
                     error_text := Some "invalid_syntax" |}, [])
       end.

Definition sample_globToRegex (pattern : string) : SafeRegexResult * list callback :=
  if too_long pattern
  then blocked "pattern_too_long" "Pattern exceeds maximum length" pattern
  else ({| safe := true; regex := Some (glob_RegExp pattern); error_text := None |}, []).

(** A substitution for the examples, after the specification: [{{key}}]
    and [{{a.b.c}}] are replaced by what the parameters hold there, as a
    string, and kept when they hold nothing there. *)
Definition is_key_char (c : ascii) : bool :=
  Str.is_digit c || Ascii.eqb c "_"%char || Ascii.eqb c "."%char
  || ((65 <=? Str.code c) && (Str.code c <=? 90))
  || ((97 <=? Str.code c) && (Str.code c <=? 122)).

Fixpoint take_key (cs : list ascii) : list ascii * list ascii :=
  match cs with
  | c :: cs' =>
      if is_key_char c
      then let '(key, rest) := take_key cs' in (c :: key, rest)
      else ([], cs)
  | [] => ([], [])
  end.

(** The parts of a key path, between its dots. *)
Fixpoint path_parts (current : list ascii) (cs : list ascii) : list string :=
  match cs with
  | [] => [Str.of_list (rev current)]
  | c :: cs' =>
      if Ascii.eqb c "."%char
      then Str.of_list (rev current) :: path_parts [] cs'
      else path_parts (c :: current) cs'
  end.

Fixpoint resolve (path : list string) (v : JS.value) : option JS.value :=
  match path with
  | [] => Some v
  | k :: path' =>
      match v with
      | JS.VObj o =>
          match Props.get k o with
          | Some v' => resolve path' v'
          | None => None
          end
      | _ => None
      end
  end.

Definition as_string (v : JS.value) : option string :=
  match v with
  | JS.VStr s => Some s
  | _ => JSON.stringify v
  end.

(** The key of the placeholder that a text starts with, and the text
    after the placeholder. *)
Definition placeholder_at (cs : list ascii) : option (list ascii * list ascii) :=
  match cs with
  | c :: d :: after =>
      if Ascii.eqb c "{"%char && Ascii.eqb d "{"%char
      then
        let '(key, rest) := take_key after in
        match key, rest with
        | _ :: _, e :: f :: rest' =>
            if Ascii.eqb e "}"%char && Ascii.eqb f "}"%char
            then Some (key, rest')
            else None
        | _, _ => None
        end
      else None
  | _ => None
  end.

Definition value_at (p : Parameters) (key : list ascii) : option string :=
  match resolve (path_parts [] key) (JS.VObj p) with
  | Some v => as_string v
  | None => None
  end.

Fixpoint fill (p : Parameters) (fuel : nat) (cs : list ascii) : list ascii :=
  match fuel with
  | 0 => cs
  | S fuel' =>
      let next := match cs with
                  | c :: cs' => c :: fill p fuel' cs'
                  | [] => []
                  end in
      match placeholder_at cs with
      | Some (key, rest) =>
          match value_at p key with
          | Some text => Str.to_list text ++ fill p fuel' rest
          | None => next
          end
      | None => next
      end
  end.

Definition sample_substitute (p : Parameters) (text : string) : string :=
  Str.of_list (fill p (String.length text) (Str.to_list text)).

Definition sample_files : list (string * string) :=
  [ ("/ctx/context.md", "# Context" +:+ JSON.nl +:+ JSON.nl +:+ "Shared facts.");
    ("/ctx/notes.md", "intro" +:+ JSON.nl +:+ "# Title" +:+ JSON.nl +:+ "body");
    ("/ctx/alpha.md", "# Project Alpha" +:+ JSON.nl +:+ JSON.nl +:+ "Details.");
    ("/ctx/a.txt", "# plain");
    ("/ctx/PHOTO.JPG", "binary");
    ("/more/b.txt", "more");
    ("/odd/(a+)+", "odd");
    ("/odd/b.txt", "even");
    ("/plans/plan.md", "# {{project}} plan" +:+ JSON.nl +:+ "Ask {{team.lead}} about {{budget}}.") ].

Definition sample_directories : list (string * list string) :=
  [ ("/ctx", ["context.md"; "notes.md"; "alpha.md"; "a.txt"; "PHOTO.JPG"; "sub"]);
    ("/more", ["b.txt"]);
    ("/odd", ["(a+)+"; "b.txt"]);
    ("/plans", ["plan.md"]) ].

Definition after_last_slash (p : string) : string :=
  Str.of_list
    (rev ((fix upto (cs : list ascii) : list ascii :=
             match cs with
             | [] => []
             | c :: cs' => if Ascii.eqb c "/"%char then [] else c :: upto cs'
             end) (rev (Str.to_list p)))).

Definition quoted (p : string) : string := "'" +:+ p +:+ "'".

(** The world of the examples.  Its [createSafeError] keeps the message.
    [load] configures no sanitizer, so what is taken out of a message is up
    to what the application has configured: paths are redacted in
    production only ([initializeErrorHandling], error-handling.ts, lines
    41-58), and the tests of the repository have the development mode show
    the message. *)
Definition sample_world : World :=
  {| safe_create := sample_create;
     safe_globToRegex := sample_globToRegex;
     path_join := fun dir file => dir +:+ "/" +:+ file;
     path_basename := after_last_slash;
     storage_exists := fun p =>
       Ok (match assoc p sample_files with Some _ => true | None => false end);
     storage_readFile := fun p =>
       match assoc p sample_files with
       | Some c => Ok c
       | None =>
           Throw {| message := "ENOENT: no such file or directory, open " +:+ quoted p |}
       end;
     storage_listFiles := fun d =>
       match assoc d sample_directories with
       | Some l => Ok l
       | None =>
           Throw {| message := "ENOENT: no such file or directory, scandir " +:+ quoted d |}
       end;
     storage_isFile := fun p =>
       Ok (match assoc p sample_files with Some _ => true | None => false end);
     createSafeError := fun e context => e;
     substitute := sample_substitute
  |}.

Definition heading_after_text : string :=
  "intro" +:+ JSON.nl +:+ "# Title" +:+ JSON.nl +:+ "body".

(** The parameters of the example of the loader's documentation. *)
Definition sample_parameters : Parameters :=
  [ ("project", JS.VStr "Alpha");
    ("team", JS.VObj [("lead", JS.VStr "Ann")]) ].

(** A pattern over the length limit. *)
Definition long_pattern : string := String.concat "" (List.repeat "a" 501).

(** The patterns that compile, compiled. *)
Definition compiledPatterns (world : World) (patterns : list string) : list RegExp :=
  omap id (map (compiled world) patterns).

(** The sub-section made from a listed file, if any: none for
    [context.md] and for what is not a file. *)
Definition fileSections (world : World) (sectionOptions : SectionOptions)
    (contextDir file : string) : list Section :=
  if String.eqb file "context.md" then [] else
  match storage_isFile world (path_join world contextDir file),
        storage_readFile world (path_join world contextDir file) with
  | Ok true, Ok fileContent => [fileSection world sectionOptions file fileContent]
  | _, _ => []
  end.

(** The sub-sections made from the listed files [files] of a directory,
    given the compiled patterns. *)
Definition loaded (world : World) (sectionOptions : SectionOptions)
    (ignorePatternsRegex : list RegExp) (contextDir : string) (files : list string)
  : list Section :=
  flat_map (fileSections world sectionOptions contextDir)
           (List.filter (kept world ignorePatternsRegex contextDir) files).



Lemma fst_bind {A B} (m : M A) (k : A -> M B) :
  fst (bind m k) = match fst m with Ok a => fst (k a) | Throw e => Throw e end.
Proof. destruct m as [[a|e] l]; simpl; [now destruct (k a) | reflexivity]. Qed.

Lemma snd_bind {A B} (m : M A) (k : A -> M B) :
  snd (bind m k) = snd m ++ match fst m with Ok a => snd (k a) | Throw _ => [] end.
Proof.
  destruct m as [[a|e] l]; simpl; [now destruct (k a) | now rewrite app_nil_r].
Qed.

Lemma fst_calling {A} (r : A * list callback) : fst (calling r) = Ok (fst r).
Proof. reflexivity. Qed.

Lemma unusable_usable r : unusable r -> usable r = false.
Proof.
  unfold usable. intros [H|H]; rewrite H; [reflexivity | apply andb_false_r].
Qed.

Lemma usable_unusable r : usable r = false -> unusable r.
Proof.
  unfold usable, unusable. destruct (safe r); [|now left].
  destruct (regex r); [discriminate | now right].
Qed.

Lemma fst_compile_pattern world pattern :
  fst (compile_pattern world pattern) = Ok (compiled world pattern).
Proof.
  unfold compile_pattern, compiled. rewrite fst_bind, fst_calling.
  destruct (usable (fst (safe_create world pattern "i"))); [reflexivity|].
  rewrite fst_bind, fst_calling.
  destruct (usable (fst (safe_globToRegex world pattern))); reflexivity.
Qed.

(** What compiling a rejected pattern logs: what the callbacks log during
    the two attempts, then the warning. *)
Lemma snd_compile_pattern_rejected world pattern :
  rejected world pattern ->
  snd (compile_pattern world pattern)
  = flat_map on_callback (snd (safe_create world pattern "i"))
    ++ flat_map on_callback (snd (safe_globToRegex world pattern))
    ++ [(warn, "Invalid or unsafe ignore pattern " +:+ JSON.dquote +:+ pattern
               +:+ JSON.dquote +:+ ": "
               +:+ first_error (error_text (fst (safe_create world pattern "i")))
                               (error_text (fst (safe_globToRegex world pattern))))].
Proof.
  intros [H1 H2]. apply unusable_usable in H1, H2. unfold compile_pattern.
  rewrite snd_bind, fst_calling, H1. rewrite snd_bind, fst_calling, H2.
  reflexivity.
Qed.

Lemma fst_map_M_compile world patterns :
  fst (map_M (compile_pattern world) patterns) = Ok (map (compiled world) patterns).
Proof.
  induction patterns as [|p ps IH]; [reflexivity|]. cbn [map_M map].
  rewrite fst_bind, fst_compile_pattern, fst_bind, IH. reflexivity.
Qed.

Lemma snd_map_M_compile world patterns :
  snd (map_M (compile_pattern world) patterns)
  = flat_map (fun p => snd (compile_pattern world p)) patterns.
Proof.
  induction patterns as [|p ps IH]; [reflexivity|]. cbn [map_M flat_map].
  rewrite snd_bind, fst_compile_pattern, snd_bind, fst_map_M_compile, IH. simpl.
  now rewrite app_nil_r.
Qed.

Lemma fst_createSafeIgnorePatterns world patterns :
  fst (createSafeIgnorePatterns world patterns)
  = Ok (compiledPatterns world patterns).
Proof.
  unfold createSafeIgnorePatterns. now rewrite fst_bind, fst_map_M_compile.
Qed.

Lemma snd_createSafeIgnorePatterns world patterns :
  snd (createSafeIgnorePatterns world patterns)
  = flat_map (fun p => snd (compile_pattern world p)) patterns.
Proof.
  unfold createSafeIgnorePatterns.
  rewrite snd_bind, fst_map_M_compile, snd_map_M_compile. simpl.
  now rewrite app_nil_r.
Qed.

Lemma compiled_without world before pattern after :
  compiled world pattern = None ->
  compiledPatterns world (before ++ pattern :: after)
  = compiledPatterns world (before ++ after).
Proof.
  intros H. unfold compiledPatterns. rewrite !map_app, !omap_app. simpl. now rewrite H.
Qed.

Lemma rejected_compiled world pattern :
  rejected world pattern -> compiled world pattern = None.
Proof.
  intros [H1 H2]. apply unusable_usable in H1, H2. unfold compiled. now rewrite H1, H2.
Qed.

(** The outcome of a directory, with the patterns entering only through
    what they compile to. *)
Lemma fst_processDirectory world patterns sectionOptions contextDir :
  fst (processDirectory world patterns sectionOptions contextDir) =
  match fst (mainSection world sectionOptions contextDir
               (path_basename world contextDir)) with
  | Ok mainContextSection =>
      match storage_listFiles world contextDir with
      | Ok files =>
          fst (fold_M (addFile world sectionOptions contextDir)
                 (List.filter
                    (kept world (compiledPatterns world patterns) contextDir)
                    files)
                 mainContextSection)
      | Throw e => Throw e
      end
  | Throw e => Throw e
  end.
Proof.
  unfold processDirectory. rewrite fst_bind. cbn [log fst]. rewrite fst_bind.
  destruct (fst (mainSection world sectionOptions contextDir
                   (path_basename world contextDir)));
    [|reflexivity].
  rewrite fst_bind. cbn [await fst].
  destruct (storage_listFiles world contextDir); [|reflexivity].
  now rewrite fst_bind, fst_createSafeIgnorePatterns.
Qed.

Lemma succeeded_same_compiled world patterns patterns' sectionOptions contextDir :
  compiledPatterns world patterns = compiledPatterns world patterns' ->
  succeeded world patterns sectionOptions contextDir
  = succeeded world patterns' sectionOptions contextDir.
Proof.
  intros H. unfold succeeded. now rewrite !fst_processDirectory, H.
Qed.

Lemma fst_loadEach world patterns sectionOptions dirs sections :
  fst (loadEach world patterns sectionOptions dirs sections)
  = sections ++ omap (succeeded world patterns sectionOptions) dirs.
Proof.
  revert sections. induction dirs as [|d dirs IH]; intros sections; simpl.
  - now rewrite app_nil_r.
  - unfold succeeded at 1.
    destruct (processDirectory world patterns sectionOptions d) as [[S|e] l1]; simpl.
    + specialize (IH (sections ++ [S])).
      destruct (loadEach world patterns sectionOptions dirs (sections ++ [S]));
        simpl in *.
      now rewrite IH, <- app_assoc.
    + specialize (IH sections).
      now destruct (loadEach world patterns sectionOptions dirs sections).
Qed.

Lemma fst_load world patterns parameters dirs options :
  fst (load world patterns parameters dirs options)
  = omap (succeeded world patterns (loadOptions parameters options)) dirs.
Proof.
  unfold load. destruct dirs as [|d dirs]; [reflexivity|].
  pose proof (fst_loadEach world patterns (loadOptions parameters options)
                (d :: dirs) []) as H.
  now destruct (loadEach world patterns (loadOptions parameters options) (d :: dirs) []).
Qed.


Lemma snd_load_loadEach world patterns parameters options d dirs x :
  In x (snd (loadEach world patterns (loadOptions parameters options) (d :: dirs) [])) ->
  In x (snd (load world patterns parameters (d :: dirs) options)).
Proof.
  unfold load.
  destruct (loadEach world patterns (loadOptions parameters options) (d :: dirs) []).
  cbn [snd app]. intros H. now right.
Qed.

Lemma fst_addFile world sectionOptions contextDir mainContextSection file :
  fst (addFile world sectionOptions contextDir mainContextSection file) =
  if String.eqb file "context.md" then Ok mainContextSection else
  match storage_isFile world (path_join world contextDir file) with
  | Ok true =>
      match storage_readFile world (path_join world contextDir file) with
      | Ok fileContent =>
          Ok (add (substitute world)
                  (made (inr (fileSection world sectionOptions file fileContent)))
                  sectionOptions mainContextSection)
      | Throw e => Throw e
      end
  | Ok false => Ok mainContextSection
  | Throw e => Throw e
  end.
Proof.
  unfold addFile. destruct (String.eqb file "context.md"); [reflexivity|].
  rewrite fst_bind. cbn [log fst]. rewrite fst_bind. cbn [await fst].
  destruct (storage_isFile world (path_join world contextDir file)) as [[|]|e];
    [|reflexivity|reflexivity].
  rewrite fst_bind. cbn [await fst].
  now destruct (storage_readFile world (path_join world contextDir file)).
Qed.

Lemma fst_fold_addFile world sectionOptions contextDir files :
  forall mainContextSection S,
    fst (fold_M (addFile world sectionOptions contextDir) files mainContextSection)
      = Ok S ->
    title S = title mainContextSection
    /\ parameters S = parameters mainContextSection
    /\ items S = items mainContextSection
                 ++ map inr (flat_map (fileSections world sectionOptions contextDir)
                                      files).
Proof.
  induction files as [|file files IH]; intros main S; cbn [fold_M flat_map].
  - intros [= <-]. now rewrite app_nil_r.
  - rewrite fst_bind, fst_addFile. unfold fileSections at 1.
    destruct (String.eqb file "context.md"); [apply IH|].
    destruct (storage_isFile world (path_join world contextDir file)) as [[|]|e];
      [|apply IH|discriminate].
    destruct (storage_readFile world (path_join world contextDir file)) as [c|e];
      [|discriminate].
    intros H. destruct (IH _ _ H) as (Ht & Hp & Hi).
    split; [exact Ht|]. split; [exact Hp|].
    rewrite Hi. cbn [add items title map app]. now rewrite <- app_assoc.
Qed.

(** The directory's own section, before the files are added: its title,
    and the one text it may hold. *)
Lemma fst_mainSection world sectionOptions contextDir dirName :
  fst (mainSection world sectionOptions contextDir dirName) =
  match storage_exists world (path_join world contextDir "context.md") with
  | Ok true =>
      match storage_readFile world (path_join world contextDir "context.md") with
      | Ok mainContextContent =>
          Ok match extractFirstHeader mainContextContent with
             | Some firstHeader =>
                 if String.eqb firstHeader ""
                 then mkSection dirName
                        [inl (item_text (substitute world)
                                (opt_parameters sectionOptions) mainContextContent)]
                        (opt_parameters sectionOptions)
                 else mkSection firstHeader
                        [inl (item_text (substitute world)
                                (opt_parameters sectionOptions)
                                (removeFirstHeader mainContextContent))]
                        (opt_parameters sectionOptions)
             | None => mkSection dirName
                         [inl (item_text (substitute world)
                                 (opt_parameters sectionOptions) mainContextContent)]
                         (opt_parameters sectionOptions)
             end
      | Throw e => Throw e
      end
  | Ok false => Ok (mkSection dirName [] (opt_parameters sectionOptions))
  | Throw e => Throw e
  end.
Proof.
  unfold mainSection. rewrite fst_bind. cbn [await fst].
  destruct (storage_exists world (path_join world contextDir "context.md")) as [[|]|e];
    [|reflexivity|reflexivity].
  rewrite fst_bind. cbn [log fst]. rewrite fst_bind. cbn [await fst].
  destruct (storage_readFile world (path_join world contextDir "context.md")) as [c|e];
    [|reflexivity].
  unfold add, createSection. cbn [title items parameters app].
  destruct (opt_parameters sectionOptions) as [p|];
    destruct (extractFirstHeader c) as [h|]; [destruct (String.eqb h "")| |
                                               destruct (String.eqb h "")|];
    reflexivity.
Qed.

Lemma mainSection_subsections world sectionOptions contextDir dirName S :
  fst (mainSection world sectionOptions contextDir dirName) = Ok S ->
  subsections S = [].
Proof.
  rewrite fst_mainSection.
  destruct (storage_exists world (path_join world contextDir "context.md")) as [[|]|e];
    [|now intros [= <-]|discriminate].
  destruct (storage_readFile world (path_join world contextDir "context.md")) as [c|e];
    [|discriminate].
  destruct (extractFirstHeader c) as [h|]; [destruct (String.eqb h "")|];
    now intros [= <-].
Qed.

Lemma subsections_items S S' subs :
  items S' = items S ++ map inr subs -> subsections S' = subsections S ++ subs.
Proof.
  unfold subsections. intros ->. rewrite flat_map_app. f_equal.
  induction subs as [|x subs IH]; simpl; [reflexivity | now rewrite IH].
Qed.

Lemma texts_app_sections S S' subs :
  items S' = items S ++ map inr subs -> texts S' = texts S.
Proof.
  unfold texts. intros ->. rewrite flat_map_app.
  assert (E : flat_map (fun i : string + Section =>
                          match i with inl text => [text] | inr _ => [] end)
                       (map inr subs) = []).
  { induction subs as [|x subs IH]; simpl; [reflexivity | exact IH]. }
  rewrite E. apply app_nil_r.
Qed.

Lemma snd_processDirectory_patterns world patterns sectionOptions contextDir S x :
  fst (processDirectory world patterns sectionOptions contextDir) = Ok S ->
  In x (snd (createSafeIgnorePatterns world patterns)) ->
  In x (snd (processDirectory world patterns sectionOptions contextDir)).
Proof.
  intros HS Hx. rewrite fst_processDirectory in HS. unfold processDirectory.
  rewrite snd_bind. cbn [log fst]. apply in_or_app. right.
  rewrite snd_bind. apply in_or_app. right.
  destruct (fst (mainSection world sectionOptions contextDir
                   (path_basename world contextDir)));
    [|discriminate].
  rewrite snd_bind. cbn [await fst]. apply in_or_app. right.
  destruct (storage_listFiles world contextDir); [|discriminate].
  rewrite snd_bind. apply in_or_app. now left.
Qed.

Lemma snd_loadEach_directory world patterns sectionOptions dirs sections d x :
  In d dirs -> In x (snd (processDirectory world patterns sectionOptions d)) ->
  In x (snd (loadEach world patterns sectionOptions dirs sections)).
Proof.
  intros Hin Hx. revert sections.
  induction dirs as [|d' dirs IH]; intros sections; [destruct Hin|]. cbn [loadEach].
  destruct Hin as [->|Hin].
  - destruct (processDirectory world patterns sectionOptions d) as [[S|e'] l1];
      cbn [snd] in Hx.
    + destruct (loadEach world patterns sectionOptions dirs (sections ++ [S])).
      cbn [snd]. apply in_or_app. now left.
    + destruct (loadEach world patterns sectionOptions dirs sections). cbn [snd].
      apply in_or_app. now left.
  - destruct (processDirectory world patterns sectionOptions d') as [[S|e'] l1].
    + specialize (IH Hin (sections ++ [S])).
      destruct (loadEach world patterns sectionOptions dirs (sections ++ [S])).
      cbn [snd] in *. apply in_or_app. now right.
    + specialize (IH Hin sections).
      destruct (loadEach world patterns sectionOptions dirs sections). cbn [snd] in *.
      apply in_or_app. right. apply in_or_app. now right.
Qed.

Lemma snd_load_In world patterns parameters options dirs x d :
  In d dirs ->
  In x (snd (loadEach world patterns (loadOptions parameters options) dirs [])) ->
  In x (snd (load world patterns parameters dirs options)).
Proof.
  destruct dirs as [|d' dirs]; [intros []|]. intros _. apply snd_load_loadEach.
Qed.


(** The parameters of the call lie over those of the loader. *)
Lemma get_spread key (a b : Parameters) :
  Props.get key (spread a b)
  = match Props.get key b with
    | Some v => Some v
    | None => Props.get key a
    end.
Proof.
  unfold spread. revert a. induction b as [|[k v] b IH]; intros a; simpl; [reflexivity|].
  rewrite IH. destruct (Props.get key b); [reflexivity|].
  rewrite Props.get_set. now destruct (String.eqb k key).
Qed.

Lemma opt_parameters_loadOptions parameters options :
  opt_parameters (loadOptions parameters options)
  = Some (spread parameters (default [] (opt_parameters options))).
Proof. reflexivity. Qed.

(** What [fileSection] makes of a file, by cases. *)
Lemma fileSection_with_header world sectionOptions file fileContent fileHeader :
  Str.endsWith file ".md" = true ->
  extractFirstHeader fileContent = Some fileHeader -> fileHeader <> "" ->
  fileSection world sectionOptions file fileContent
  = mkSection fileHeader
      [inl (item_text (substitute world) (opt_parameters sectionOptions)
              (removeFirstHeader fileContent))]
      (opt_parameters sectionOptions).
Proof.
  intros He Hh Hne. unfold fileSection. rewrite He, Hh.
  destruct (String.eqb_spec fileHeader ""); [contradiction|].
  unfold add, createSection. cbn [title items parameters app].
  now destruct (opt_parameters sectionOptions).
Qed.

Lemma fileSection_without_header world sectionOptions file fileContent :
  Str.endsWith file ".md" = false
  \/ extractFirstHeader fileContent = None
  \/ extractFirstHeader fileContent = Some "" ->
  fileSection world sectionOptions file fileContent
  = mkSection file
      [inl (item_text (substitute world) (opt_parameters sectionOptions) fileContent)]
      (opt_parameters sectionOptions).
Proof.
  intros H. unfold fileSection.
  assert (E : (if Str.endsWith file ".md"
               then match extractFirstHeader fileContent with
                    | Some fileHeader =>
                        if String.eqb fileHeader "" then (file, fileContent)
                        else (fileHeader, removeFirstHeader fileContent)
                    | None => (file, fileContent)
                    end
               else (file, fileContent)) = (file, fileContent)).
  { destruct (Str.endsWith file ".md"); [|reflexivity].
    destruct H as [H | [-> | ->]]; [discriminate | reflexivity | reflexivity]. }
  rewrite E. unfold add, createSection. cbn [title items parameters app].
  now destruct (opt_parameters sectionOptions).
Qed.

(** The example of the loader's documentation. *)
Example extractFirstHeader_project_alpha :
  extractFirstHeader ("# Project Alpha" +:+ JSON.nl +:+ JSON.nl
                      +:+ "Details about Project Alpha...")
    = Some "Project Alpha"
  /\ removeFirstHeader ("# Project Alpha" +:+ JSON.nl +:+ JSON.nl
                        +:+ "Details about Project Alpha...")
     = "Details about Project Alpha...".
Proof. split; vm_compute; reflexivity. Qed.

(** Seven hashes, or no blank after the hashes, make no heading. *)
Example extractFirstHeader_not_a_heading :
  extractFirstHeader "####### x" = None
  /\ extractFirstHeader "#x" = None
  /\ removeFirstHeader "#x" = "#x".
Proof. repeat split; vm_compute; reflexivity. Qed.

(** Hashes followed by blanks only: the match succeeds with a blank second
    group, and the header is the empty string. *)
Example extractFirstHeader_blank_heading :
  extractFirstHeader "#  " = Some "" /\ removeFirstHeader "#  " = "".
Proof. split; vm_compute; reflexivity. Qed.

(** A loader with parameters, and a call with parameters of its own: the
    placeholders of the text are filled, those of the call first, and the
    title is the heading as the file has it. *)
Example load_with_parameters :
  fst (load sample_world DEFAULT_IGNORE_PATTERNS sample_parameters ["/plans"]
         {| opt_title := None; opt_weight := None; opt_itemWeight := None;
            opt_parameters := Some [("budget", JS.VNum 12);
                                    ("project", JS.VStr "Beta")] |})
  = [mkSection "plans"
       [inr (mkSection "{{project}} plan" [inl "Ask Ann about 12."]
               (Some [("project", JS.VStr "Beta");
                      ("team", JS.VObj [("lead", JS.VStr "Ann")]);
                      ("budget", JS.VNum 12)]))]
       (Some [("project", JS.VStr "Beta");
              ("team", JS.VObj [("lead", JS.VStr "Ann")]);
              ("budget", JS.VNum 12)])].
Proof. vm_compute. reflexivity. Qed.

(** A heading below the first line is taken all the same: here the claim
    C5, read to the letter, keeps the file name and the whole content. *)
Lemma heading_after_text_becomes_title :
  leading_heading heading_after_text = false
  /\ fileSection sample_world (loadOptions [] no_options) "notes.md" heading_after_text
     = mkSection "Title" [inl ("intro" +:+ JSON.nl +:+ "body")] (Some [])
  /\ stated_fileSection (loadOptions [] no_options) "notes.md" heading_after_text
     = mkSection "notes.md" [inl heading_after_text] (Some [])
  /\ fileSection sample_world (loadOptions [] no_options) "notes.md" heading_after_text
     <> stated_fileSection (loadOptions [] no_options) "notes.md" heading_after_text.
Proof. repeat split; try (vm_compute; reflexivity). vm_compute. discriminate. Qed.

(** C5, amended.  When a directory is processed without failure, its
    sub-sections are, in listing order, one for each listed entry that the
    ignore patterns keep, that is not [context.md] and that is a file.  For
    a file whose name ends in [.md] and whose content has a heading line
    with text, wherever in the content the first such line is, the title is
    that heading's trimmed text and the one item is the content with that
    line removed and then trimmed; for any other file the title is the file
    name and the one item is the whole content.  In both cases the item
    holds its text with the parameters substituted: the parameters of the
    loader with those of the call laid over them. *)
Theorem file_becomes_titled_subsection (world : World) (patterns : list string)
    (parameters : Parameters) (options : SectionOptions)
    (contextDir : string) (S : Section) :
  fst (processDirectory world patterns (loadOptions parameters options) contextDir)
    = Ok S ->
  (exists files,
      storage_listFiles world contextDir = Ok files
      /\ subsections S
         = loaded world (loadOptions parameters options)
                  (compiledPatterns world patterns) contextDir files)
  /\ (forall file fileContent fileHeader,
        Str.endsWith file ".md" = true ->
        extractFirstHeader fileContent = Some fileHeader -> fileHeader <> "" ->
        fileSection world (loadOptions parameters options) file fileContent
        = mkSection fileHeader
            [inl (substitute world
                    (spread parameters (default [] (opt_parameters options)))
                    (removeFirstHeader fileContent))]
            (Some (spread parameters (default [] (opt_parameters options)))))
  /\ (forall file fileContent,
        Str.endsWith file ".md" = false
        \/ extractFirstHeader fileContent = None
        \/ extractFirstHeader fileContent = Some "" ->
        fileSection world (loadOptions parameters options) file fileContent
        = mkSection file
            [inl (substitute world
                    (spread parameters (default [] (opt_parameters options)))
                    fileContent)]
            (Some (spread parameters (default [] (opt_parameters options)))))
  /\ (forall key,
        Props.get key (spread parameters (default [] (opt_parameters options)))
        = match Props.get key (default [] (opt_parameters options)) with
          | Some v => Some v
          | None => Props.get key parameters
          end).
Proof.
  intros HS. split; [|split; [|split]].
  - rewrite fst_processDirectory in HS.
    destruct (fst (mainSection world (loadOptions parameters options) contextDir
                     (path_basename world contextDir)))
      as [main|e] eqn:Em; [|discriminate].
    destruct (storage_listFiles world contextDir) as [files|e]; [|discriminate].
    exists files. split; [reflexivity|].
    destruct (fst_fold_addFile _ _ _ _ _ _ HS) as (_ & _ & Hi).
    rewrite (subsections_items _ _ _ Hi), (mainSection_subsections _ _ _ _ _ Em).
    reflexivity.
  - intros file c h He Hh Hne.
    now rewrite (fileSection_with_header _ _ _ _ _ He Hh Hne).
  - intros file c H. now rewrite (fileSection_without_header _ _ _ _ H).
  - intros key. apply get_spread.
Qed.

(** The directory [/ctx] of the sample world under the default patterns,
    for a loader and a call without parameters. *)
Lemma file_becomes_titled_subsection_example :
  exists files,
    storage_listFiles sample_world "/ctx" = Ok files
    /\ subsections
         (mkSection "Context"
            [inl "Shared facts.";
             inr (mkSection "Title" [inl ("intro" +:+ JSON.nl +:+ "body")] (Some []));
             inr (mkSection "Project Alpha" [inl "Details."] (Some []));
             inr (mkSection "a.txt" [inl "# plain"] (Some []))]
            (Some []))
       = loaded sample_world (loadOptions [] no_options)
                (compiledPatterns sample_world DEFAULT_IGNORE_PATTERNS)
                "/ctx" files.
Proof.
  apply (file_becomes_titled_subsection sample_world DEFAULT_IGNORE_PATTERNS
           [] no_options "/ctx").
  vm_compute. reflexivity.
Defined.

(** In the sample world the pattern of Scenario D is blocked as a regular
    expression and then translated as a glob: no warning of an invalid or
    unsafe pattern is logged for it, and it excludes the file of that
    name, which is loaded without it.  C6, read to the letter, has it
    exclude no file. *)
Lemma blocked_pattern_is_compiled_as_glob :
  usable (fst (safe_create sample_world nested_quantifiers "i")) = false
  /\ compiled sample_world nested_quantifiers = Some (glob_RegExp nested_quantifiers)
  /\ existsb (fun e => includes (snd e) "Invalid or unsafe ignore pattern")
             (snd (createSafeIgnorePatterns sample_world
                     (nested_quantifiers :: DEFAULT_IGNORE_PATTERNS))) = false
  /\ kept sample_world
          (compiledPatterns sample_world (nested_quantifiers :: DEFAULT_IGNORE_PATTERNS))
          "/odd" nested_quantifiers = false
  /\ kept sample_world (compiledPatterns sample_world DEFAULT_IGNORE_PATTERNS)
          "/odd" nested_quantifiers = true
  /\ fst (load sample_world (nested_quantifiers :: DEFAULT_IGNORE_PATTERNS) []
            ["/odd"] no_options)
     <> fst (load sample_world DEFAULT_IGNORE_PATTERNS [] ["/odd"] no_options).
Proof. repeat split; try (vm_compute; reflexivity). vm_compute. discriminate. Qed.

(** C6, amended.  A pattern that neither [create] nor the glob fallback
    makes usable is reported and compiles to nothing.  Compiling it logs
    what the callbacks log during the two attempts and then a warning that
    names the pattern and gives the error of [create] or, when that is
    absent or empty, the error of the fallback.  The compiled patterns are
    those of the list without it, and [load] returns the sections it
    returns without it.  In a directory that is processed, the warning is
    in the log, and the sub-sections are those of the listed files that no
    pattern compiled from the rest of the list matches, by name or by
    joined path. *)
Theorem unsafe_pattern_is_skipped (world : World) (before after : list string)
    (pattern : string) :
  rejected world pattern ->
  fst (compile_pattern world pattern) = Ok None
  /\ snd (compile_pattern world pattern)
     = flat_map on_callback (snd (safe_create world pattern "i"))
       ++ flat_map on_callback (snd (safe_globToRegex world pattern))
       ++ [(warn, "Invalid or unsafe ignore pattern " +:+ JSON.dquote +:+ pattern
                  +:+ JSON.dquote +:+ ": "
                  +:+ first_error (error_text (fst (safe_create world pattern "i")))
                                  (error_text (fst (safe_globToRegex world pattern))))]
  /\ (forall e1 e2,
        (forall e, e1 = Some e -> e <> "" -> first_error e1 e2 = e)
        /\ (e1 = None \/ e1 = Some "" ->
            first_error e1 e2 = match e2 with Some e => e | None => "undefined" end))
  /\ fst (createSafeIgnorePatterns world (before ++ pattern :: after))
     = Ok (compiledPatterns world (before ++ after))
  /\ (forall parameters options dirs,
        fst (load world (before ++ pattern :: after) parameters dirs options)
        = fst (load world (before ++ after) parameters dirs options))
  /\ (forall sectionOptions contextDir S,
        fst (processDirectory world (before ++ pattern :: after) sectionOptions
               contextDir) = Ok S ->
        exists files,
          storage_listFiles world contextDir = Ok files
          /\ subsections S
             = flat_map (fileSections world sectionOptions contextDir)
                 (List.filter
                    (fun file =>
                       negb (existsb
                               (fun regex =>
                                  test regex file
                                  || test regex (path_join world contextDir file))
                               (compiledPatterns world (before ++ after))))
                    files))
  /\ (forall parameters options dirs d S,
        In d dirs ->
        fst (processDirectory world (before ++ pattern :: after)
               (loadOptions parameters options) d) = Ok S ->
        In (warn, "Invalid or unsafe ignore pattern " +:+ JSON.dquote +:+ pattern
                  +:+ JSON.dquote +:+ ": "
                  +:+ first_error (error_text (fst (safe_create world pattern "i")))
                                  (error_text (fst (safe_globToRegex world pattern))))
           (snd (load world (before ++ pattern :: after) parameters dirs options))).
Proof.
  intros Hrej.
  pose proof (snd_compile_pattern_rejected world pattern Hrej) as Hlog.
  assert (Hc : compiledPatterns world (before ++ pattern :: after)
               = compiledPatterns world (before ++ after))
    by (apply compiled_without; now apply rejected_compiled).
  split; [now rewrite fst_compile_pattern, rejected_compiled|].
  split; [exact Hlog|]. split; [|split; [|split; [|split]]].
  - intros e1 e2. unfold first_error. split.
    + intros e -> He. now destruct (String.eqb_spec e "").
    + intros [-> | ->]; now destruct e2.
  - now rewrite fst_createSafeIgnorePatterns, Hc.
  - intros parameters options dirs. rewrite !fst_load. apply list_omap_ext.
    induction dirs as [|d dirs IH]; constructor; [|exact IH].
    now apply succeeded_same_compiled.
  - intros sectionOptions contextDir S HS.
    rewrite fst_processDirectory, Hc in HS.
    destruct (fst (mainSection world sectionOptions contextDir
                     (path_basename world contextDir)))
      as [main|e] eqn:Em; [|discriminate].
    destruct (storage_listFiles world contextDir) as [files|e]; [|discriminate].
    exists files. split; [reflexivity|].
    destruct (fst_fold_addFile _ _ _ _ _ _ HS) as (_ & _ & Hi).
    rewrite (subsections_items _ _ _ Hi), (mainSection_subsections _ _ _ _ _ Em).
    reflexivity.
  - intros parameters options dirs d S Hin HS.
    apply (snd_load_In _ _ _ _ _ _ d Hin).
    apply (snd_loadEach_directory _ _ _ _ _ d); [exact Hin|].
    eapply snd_processDirectory_patterns; [exact HS|].
    rewrite snd_createSafeIgnorePatterns. apply in_flat_map. exists pattern.
    split; [apply in_or_app; right; now left|].
    rewrite Hlog. apply in_or_app. right. apply in_or_app. right. now left.
Qed.

(** A pattern over the length limit, which the sample world blocks on both
    ways, before the default patterns: the directory [/odd] is loaded as
    without it. *)
Lemma unsafe_pattern_is_skipped_scenario :
  rejected sample_world long_pattern
  /\ fst (compile_pattern sample_world long_pattern) = Ok None
  /\ fst (load sample_world (long_pattern :: DEFAULT_IGNORE_PATTERNS) [] ["/odd"]
            no_options)
     = fst (load sample_world DEFAULT_IGNORE_PATTERNS [] ["/odd"] no_options).
Proof.
  assert (Hrej : rejected sample_world long_pattern)
    by (split; left; vm_compute; reflexivity).
  split; [exact Hrej|].
  destruct (unsafe_pattern_is_skipped sample_world [] DEFAULT_IGNORE_PATTERNS
              long_pattern Hrej)
    as (Hnone & _ & _ & _ & Hload & _).
  split; [exact Hnone | exact (Hload [] no_options ["/odd"])].
Defined.






End Loader.

(** ** Laws of [mapSchema] *)

Module SchemaLaws.
Import JS Gemini.

(** Every entry of [o] under key [k] holds [v]. *)
Definition uniform {A} (k : string) (v : A) (o : list (string * A)) : Prop :=
  forall w, In (k, w) o -> w = v.

(** The stages of [mapSchema]'s body. *)
Definition step_type (o : object) : object :=
  if truthy (prop "type" o)
  then set "type" (upper_if_string (prop "type" o)) o
  else o.

(** [newProps], from the entries of [properties]. *)
Definition converted (f : value -> value) (es : object) : object :=
  fold_left (fun newProps entry => assign (fst entry) (f (snd entry)) newProps) es [].

Definition step_properties (f : value -> value) (o : object) : object :=
  if truthy (prop "properties" o)
  then set "properties" (VObj (converted f (own_entries (prop "properties" o)))) o
  else o.

Definition step_items (f : value -> value) (o : object) : object :=
  if truthy (prop "items" o)
  then set "items" (f (prop "items" o)) o
  else o.

Definition strip (o : object) : object :=
  delete "$schema" (delete "additionalProperties" o).

(** The keys that [mapSchema] leaves in place. *)
Definition supported (k : string) : bool :=
  negb (String.eqb k "additionalProperties") && negb (String.eqb k "$schema").

(** A schema with a description, a [$schema] marker and alternatives that
    [mapSchema] does not descend into. *)
Definition annotated_schema : value :=
  VObj [("$schema", VStr "http://json-schema.org/draft-07/schema#");
        ("description", VStr "a point");
        ("type", VStr "object");
        ("anyOf", VArr [VObj [("type", VStr "null"); ("additionalProperties", VBool false)]]);
        ("additionalProperties", VBool false)].

Section Uniform.
Context {A : Type}.
Implicit Types (o : list (string * A)).

Lemma get_has k o v : get k o = Some v -> has k o = true.
Proof.
  intros H. destruct (has k o) eqn:E; [reflexivity|].
  rewrite (has_false_get _ _ E) in H. discriminate.
Qed.

Lemma set_uniform k v o : has k o = true -> uniform k v o -> set k v o = o.
Proof.
  intros Hh Hu. unfold set. rewrite Hh. clear Hh.
  induction o as [|[k' w] o IH]; simpl; [reflexivity|].
  rewrite IH by (intros w' Hw; apply Hu; now right).
  destruct (String.eqb_spec k' k) as [->|]; [|reflexivity].
  now rewrite (Hu w (or_introl eq_refl)).
Qed.

Lemma uniform_set k v o : uniform k v (set k v o).
Proof.
  unfold uniform, set. intros w. destruct (has k o) eqn:Hh.
  - rewrite in_map_iff. intros ([k' w'] & E & _). simpl in E.
    destruct (String.eqb_spec k' k); congruence.
  - rewrite in_app_iff. intros [H|[H|[]]]; [|congruence].
    exfalso. unfold has in Hh. rewrite <- not_true_iff_false, existsb_exists in Hh.
    apply Hh. exists (k, w). split; [exact H|]. apply String.eqb_refl.
Qed.

Lemma uniform_set_ne k k' v v' o :
  k <> k' -> uniform k v o -> uniform k v (set k' v' o).
Proof.
  unfold uniform, set. intros Hne Hu w. destruct (has k' o).
  - rewrite in_map_iff. intros ([k0 w0] & E & Hin). simpl in E.
    destruct (String.eqb_spec k0 k'); [congruence|].
    injection E as -> ->. now apply Hu.
  - rewrite in_app_iff. intros [H|[H|[]]]; [now apply Hu | congruence].
Qed.

Lemma uniform_delete k k' v o : uniform k v o -> uniform k v (delete k' o).
Proof.
  unfold uniform, delete. intros Hu w Hw. apply filter_In in Hw as [Hw _]. now apply Hu.
Qed.

Lemma has_set k k' v o : has k (set k' v o) = has k o || String.eqb k' k.
Proof.
  unfold set. destruct (has k' o) eqn:Hh.
  - assert (E : has k (map (fun kv : string * A =>
                              if String.eqb (fst kv) k' then (fst kv, v) else kv) o)
                = has k o).
    { unfold has. clear Hh. induction o as [|[k0 w] o IH]; simpl; [reflexivity|].
      rewrite IH. now destruct (String.eqb k0 k'). }
    rewrite E. destruct (String.eqb_spec k' k) as [<-|]; [now rewrite Hh|].
    now rewrite orb_false_r.
  - unfold has. rewrite existsb_app. simpl. now rewrite orb_false_r.
Qed.

Lemma has_delete k k' o :
  has k (delete k' o) = has k o && negb (String.eqb k' k).
Proof.
  unfold has, delete. induction o as [|[k0 w] o IH]; simpl; [reflexivity|].
  destruct (String.eqb_spec k0 k') as [->|Hne]; simpl; rewrite IH;
    destruct (String.eqb_spec k' k) as [->|Hne']; simpl;
    rewrite ?andb_false_r, ?andb_true_r; try reflexivity.
  now destruct (String.eqb_spec k0 k).
Qed.

Lemma delete_absent k o : has k o = false -> delete k o = o.
Proof.
  unfold has, delete. induction o as [|[k0 w] o IH]; simpl; [reflexivity|].
  intros H. apply orb_false_iff in H as [-> H]. simpl. now rewrite (IH H).
Qed.

Lemma keys_set k v o : has k o = true -> map fst (set k v o) = map fst o.
Proof.
  intros Hh. unfold set. rewrite Hh. rewrite map_map. apply map_ext.
  intros [k' w]. simpl. now destruct (String.eqb k' k).
Qed.

Lemma keys_delete k o :
  map fst (delete k o) = List.filter (fun x => negb (String.eqb x k)) (map fst o).
Proof.
  unfold delete. induction o as [|[k0 w] o IH]; simpl; [reflexivity|].
  destruct (String.eqb k0 k); simpl; now rewrite IH.
Qed.

Lemma has_false_not_In k o : has k o = false -> ~ In k (map fst o).
Proof.
  unfold has. intros H Hin. apply in_map_iff in Hin as ([k' w] & E & Hin). simpl in E.
  subst k'. rewrite <- not_true_iff_false, existsb_exists in H. apply H.
  exists (k, w). split; [exact Hin | apply String.eqb_refl].
Qed.

Lemma not_In_has_false k o : ~ In k (map fst o) -> has k o = false.
Proof.
  intros H. destruct (has k o) eqn:E; [|reflexivity]. exfalso. apply H.
  unfold has in E. apply existsb_exists in E as ([k' w] & Hin & E). simpl in E.
  apply String.eqb_eq in E as ->. apply in_map_iff. now exists (k, w).
Qed.

Lemma In_set k v k' w o : In (k', w) (set k v o) -> (k' = k /\ w = v) \/ In (k', w) o.
Proof.
  unfold set. destruct (has k o).
  - rewrite in_map_iff. intros ([k0 w0] & E & Hin). simpl in E.
    destruct (String.eqb_spec k0 k) as [->|]; injection E as <- <-; auto.
  - rewrite in_app_iff. intros [H|[H|[]]]; [auto|]. injection H as <- <-. auto.
Qed.

Lemma NoDup_keys_set k v o : List.NoDup (map fst o) -> List.NoDup (map fst (set k v o)).
Proof.
  intros H. destruct (has k o) eqn:Hh; [now rewrite keys_set|].
  unfold set. rewrite Hh, map_app. simpl.
  apply List.NoDup_app; [exact H | repeat constructor; intros [] |].
  intros x Hx [<-|[]]. now apply has_false_not_In in Hh.
Qed.

End Uniform.

Lemma mapSchema_body_steps f s :
  mapSchema_body f s =
  if negb (truthy s) then VUndefined
  else VObj (strip (step_items f (step_properties f (step_type (own_entries s))))).
Proof. reflexivity. Qed.

Lemma truthy_prop_has k (o : object) : truthy (prop k o) = true -> has k o = true.
Proof.
  unfold prop. destruct (get k o) as [v|] eqn:E; [|discriminate].
  intros _. now apply (get_has k o v).
Qed.

Lemma toUpperCase_idem s : Str.toUpperCase (Str.toUpperCase s) = Str.toUpperCase s.
Proof.
  induction s as [|c s IH]; simpl; [reflexivity|]. rewrite IH. f_equal.
  destruct c as [[] [] [] [] [] [] [] []]; vm_compute; reflexivity.
Qed.

Lemma upper_if_string_idem t : upper_if_string (upper_if_string t) = upper_if_string t.
Proof. destruct t; simpl; try reflexivity. now rewrite toUpperCase_idem. Qed.

Lemma truthy_upper t : truthy (upper_if_string t) = truthy t.
Proof. destruct t as [| | | | s | |]; simpl; try reflexivity. now destruct s. Qed.

(** *** Each stage touches its own key only *)

Lemma step_type_get k o : k <> "type" -> get k (step_type o) = get k o.
Proof.
  intros Hk. unfold step_type. destruct (truthy (prop "type" o)); [|reflexivity].
  apply get_set_ne. congruence.
Qed.

Lemma step_properties_get f k o :
  k <> "properties" -> get k (step_properties f o) = get k o.
Proof.
  intros Hk. unfold step_properties. destruct (truthy (prop "properties" o)); [|reflexivity].
  apply get_set_ne. congruence.
Qed.

Lemma step_items_get f k o : k <> "items" -> get k (step_items f o) = get k o.
Proof.
  intros Hk. unfold step_items. destruct (truthy (prop "items" o)); [|reflexivity].
  apply get_set_ne. congruence.
Qed.

Lemma strip_get k o : supported k = true -> get k (strip o) = get k o.
Proof.
  unfold supported, strip. intros H. apply andb_true_iff in H as [H1 H2].
  rewrite !get_delete.
  destruct (String.eqb_spec "$schema" k) as [<-|]; [discriminate|].
  destruct (String.eqb_spec "additionalProperties" k) as [<-|]; [discriminate|].
  reflexivity.
Qed.

Lemma step_type_keys o : map fst (step_type o) = map fst o.
Proof.
  unfold step_type. destruct (truthy (prop "type" o)) eqn:E; [|reflexivity].
  apply keys_set. now apply truthy_prop_has.
Qed.

Lemma step_properties_keys f o : map fst (step_properties f o) = map fst o.
Proof.
  unfold step_properties. destruct (truthy (prop "properties" o)) eqn:E; [|reflexivity].
  apply keys_set. now apply truthy_prop_has.
Qed.

Lemma step_items_keys f o : map fst (step_items f o) = map fst o.
Proof.
  unfold step_items. destruct (truthy (prop "items" o)) eqn:E; [|reflexivity].
  apply keys_set. now apply truthy_prop_has.
Qed.

Lemma strip_keys o : map fst (strip o) = List.filter supported (map fst o).
Proof.
  unfold strip. rewrite !keys_delete. unfold supported.
  induction (map fst o) as [|k ks IH]; simpl; [reflexivity|].
  destruct (String.eqb k "additionalProperties"); simpl; [exact IH|].
  destruct (String.eqb k "$schema"); simpl; now rewrite IH.
Qed.

(** *** Uniformity through the stages *)

Lemma step_type_uniform o :
  truthy (prop "type" o) = true ->
  uniform "type" (upper_if_string (prop "type" o)) (step_type o).
Proof. intros H. unfold step_type. rewrite H. apply uniform_set. Qed.

Lemma step_type_keeps k v o : k <> "type" -> uniform k v o -> uniform k v (step_type o).
Proof.
  intros Hk H. unfold step_type. destruct (truthy (prop "type" o)); [|exact H].
  now apply uniform_set_ne.
Qed.

Lemma step_properties_keeps f k v o :
  k <> "properties" -> uniform k v o -> uniform k v (step_properties f o).
Proof.
  intros Hk H. unfold step_properties. destruct (truthy (prop "properties" o)); [|exact H].
  now apply uniform_set_ne.
Qed.

Lemma step_items_keeps f k v o :
  k <> "items" -> uniform k v o -> uniform k v (step_items f o).
Proof.
  intros Hk H. unfold step_items. destruct (truthy (prop "items" o)); [|exact H].
  now apply uniform_set_ne.
Qed.

Lemma strip_keeps k v o : uniform k v o -> uniform k v (strip o).
Proof. intros H. unfold strip. now do 2 apply uniform_delete. Qed.

(** *** Fixed points of the stages *)

Lemma step_type_fixed r :
  (truthy (prop "type" r) = true ->
   upper_if_string (prop "type" r) = prop "type" r
   /\ uniform "type" (prop "type" r) r) ->
  step_type r = r.
Proof.
  intros H. unfold step_type. destruct (truthy (prop "type" r)) eqn:E; [|reflexivity].
  destruct (H eq_refl) as [-> Hu]. apply set_uniform; [|exact Hu].
  now apply truthy_prop_has.
Qed.

Lemma step_properties_fixed f r :
  (truthy (prop "properties" r) = true ->
   VObj (converted f (own_entries (prop "properties" r))) = prop "properties" r
   /\ uniform "properties" (prop "properties" r) r) ->
  step_properties f r = r.
Proof.
  intros H. unfold step_properties.
  destruct (truthy (prop "properties" r)) eqn:E; [|reflexivity].
  destruct (H eq_refl) as [-> Hu]. apply set_uniform; [|exact Hu].
  now apply truthy_prop_has.
Qed.

Lemma step_items_fixed f r :
  (truthy (prop "items" r) = true ->
   f (prop "items" r) = prop "items" r /\ uniform "items" (prop "items" r) r) ->
  step_items f r = r.
Proof.
  intros H. unfold step_items. destruct (truthy (prop "items" r)) eqn:E; [|reflexivity].
  destruct (H eq_refl) as [-> Hu]. apply set_uniform; [|exact Hu].
  now apply truthy_prop_has.
Qed.

Lemma strip_strip o : strip (strip o) = strip o.
Proof.
  unfold strip.
  rewrite (delete_absent "additionalProperties").
  - apply delete_absent. rewrite has_delete. simpl. apply andb_false_r.
  - rewrite !has_delete. simpl. now rewrite andb_false_r.
Qed.

(** *** The converted properties *)

Lemma NoDup_keys_assign k v (o : object) :
  List.NoDup (map fst o) -> List.NoDup (map fst (assign k v o)).
Proof.
  intros H. unfold assign. destruct (String.eqb k "__proto__"); [exact H|].
  now apply NoDup_keys_set.
Qed.

Lemma In_assign k v k' w (o : object) :
  In (k', w) (assign k v o) -> (k' = k /\ k <> "__proto__" /\ w = v) \/ In (k', w) o.
Proof.
  unfold assign. destruct (String.eqb_spec k "__proto__") as [->|Hk]; [auto|].
  intros H. apply In_set in H as [[-> ->]|H]; auto.
Qed.

Lemma converted_from_NoDup (f : value -> value) (es acc : object) :
  List.NoDup (map fst acc) ->
  List.NoDup (map fst (fold_left (fun newProps entry =>
                               assign (fst entry) (f (snd entry)) newProps) es acc)).
Proof.
  revert acc. induction es as [|[k v] es IH]; intros acc H; simpl; [exact H|].
  apply IH. now apply NoDup_keys_assign.
Qed.

(** Every new property is a converted value, under a name other than
    [__proto__]. *)
Lemma converted_from_values (Q : string -> value -> Prop) (f : value -> value)
    (es acc : object) :
  (forall k w, In (k, w) acc -> Q k w) ->
  (forall k v, In (k, v) es -> k <> "__proto__" -> Q k (f v)) ->
  forall k w,
    In (k, w) (fold_left (fun newProps entry =>
                            assign (fst entry) (f (snd entry)) newProps) es acc) -> Q k w.
Proof.
  revert acc. induction es as [|[k0 v0] es IH]; intros acc Ha He k w; simpl.
  - apply Ha.
  - apply IH.
    + intros k' w' Hin. apply In_assign in Hin as [(-> & Hk & ->)|Hin].
      * apply He; [now left | exact Hk].
      * now apply Ha.
    + intros k' v' Hin. apply (He k'). now right.
Qed.

Lemma converted_from_fixed (g : value -> value) (es acc : object) :
  List.NoDup (map fst (acc ++ es)) ->
  (forall k w, In (k, w) es -> k <> "__proto__" /\ g w = w) ->
  fold_left (fun newProps entry => assign (fst entry) (g (snd entry)) newProps) es acc
  = acc ++ es.
Proof.
  revert acc. induction es as [|[k w] es IH]; intros acc Hnd Hg; simpl.
  - now rewrite app_nil_r.
  - assert (Hh : has k acc = false).
    { apply not_In_has_false. intros Hin.
      rewrite map_app in Hnd. simpl in Hnd. apply NoDup_remove_2 in Hnd.
      apply Hnd. apply in_or_app. now left. }
    destruct (Hg k w (or_introl eq_refl)) as [Hk Hw].
    assert (E : assign k (g w) acc = acc ++ [(k, w)]).
    { unfold assign. destruct (String.eqb_spec k "__proto__"); [contradiction|].
      unfold set. now rewrite Hh, Hw. }
    rewrite E, IH.
    + now rewrite <- app_assoc.
    + now rewrite <- app_assoc.
    + intros k' w' Hin. apply (Hg k'). now right.
Qed.

Lemma converted_fixed (f g : value -> value) (es : object) :
  (forall k v, In (k, v) es -> g (f v) = f v) ->
  converted g (converted f es) = converted f es.
Proof.
  intros H. unfold converted at 1.
  rewrite converted_from_fixed; [reflexivity| |].
  - simpl. apply converted_from_NoDup. constructor.
  - apply (converted_from_values (fun k w => k <> "__proto__" /\ g w = w) f es []).
    + intros k w [].
    + intros k v Hin Hk. split; [exact Hk | now apply (H k)].
Qed.

(** *** The converted schema, stage by stage *)

Lemma converted_get_type f o :
  prop "type" (strip (step_items f (step_properties f (step_type o))))
  = if truthy (prop "type" o) then upper_if_string (prop "type" o) else prop "type" o.
Proof.
  unfold prop at 1.
  rewrite strip_get, step_items_get, step_properties_get by (reflexivity || discriminate).
  unfold step_type. destruct (truthy (prop "type" o)); [|reflexivity].
  now rewrite get_set_eq.
Qed.

Lemma step_type_prop k o : k <> "type" -> prop k (step_type o) = prop k o.
Proof. intros H. unfold prop. now rewrite step_type_get. Qed.

Lemma step_properties_prop f k o :
  k <> "properties" -> prop k (step_properties f o) = prop k o.
Proof. intros H. unfold prop. now rewrite step_properties_get. Qed.

Lemma converted_get_properties f o :
  prop "properties" (strip (step_items f (step_properties f (step_type o))))
  = if truthy (prop "properties" o)
    then VObj (converted f (own_entries (prop "properties" o)))
    else prop "properties" o.
Proof.
  unfold prop at 1.
  rewrite strip_get, step_items_get by (reflexivity || discriminate).
  unfold step_properties. rewrite !(step_type_prop "properties") by discriminate.
  destruct (truthy (prop "properties" o)).
  - now rewrite get_set_eq.
  - apply (step_type_prop "properties"). discriminate.
Qed.

Lemma converted_get_items f o :
  prop "items" (strip (step_items f (step_properties f (step_type o))))
  = if truthy (prop "items" o) then f (prop "items" o) else prop "items" o.
Proof.
  unfold prop at 1. rewrite strip_get by reflexivity.
  unfold step_items.
  rewrite !(step_properties_prop f "items"), !(step_type_prop "items") by discriminate.
  destruct (truthy (prop "items" o)).
  - now rewrite get_set_eq.
  - fold (prop "items" (step_properties f (step_type o))).
    now rewrite (step_properties_prop f "items"), (step_type_prop "items") by discriminate.
Qed.

Lemma converted_uniform_type f o :
  truthy (prop "type" o) = true ->
  uniform "type" (upper_if_string (prop "type" o))
          (strip (step_items f (step_properties f (step_type o)))).
Proof.
  intros H. apply strip_keeps, step_items_keeps, step_properties_keeps; try discriminate.
  now apply step_type_uniform.
Qed.

Lemma converted_uniform_properties f o :
  truthy (prop "properties" o) = true ->
  uniform "properties" (VObj (converted f (own_entries (prop "properties" o))))
          (strip (step_items f (step_properties f (step_type o)))).
Proof.
  intros H. apply strip_keeps, step_items_keeps; try discriminate.
  unfold step_properties. rewrite !(step_type_prop "properties") by discriminate.
  rewrite H. apply uniform_set.
Qed.

Lemma converted_uniform_items f o :
  truthy (prop "items" o) = true ->
  uniform "items" (f (prop "items" o))
          (strip (step_items f (step_properties f (step_type o)))).
Proof.
  intros H. apply strip_keeps. unfold step_items.
  rewrite !(step_properties_prop f "items"), !(step_type_prop "items") by discriminate.
  rewrite H. apply uniform_set.
Qed.

Lemma mapSchema_object s : truthy s = true -> truthy (mapSchema s) = true.
Proof. intros H. rewrite mapSchema_unfold, mapSchema_body_steps, H. reflexivity. Qed.

Lemma mapSchema_twice_below n :
  forall s, size s < n -> mapSchema (mapSchema s) = mapSchema s.
Proof.
  induction n as [|n IH]; intros s Hs; [lia|].
  rewrite (mapSchema_unfold s), mapSchema_body_steps.
  destruct (truthy s) eqn:Ht; simpl; [|reflexivity].
  set (o := own_entries s).
  rewrite mapSchema_unfold, mapSchema_body_steps. simpl. f_equal.
  set (r := strip (step_items mapSchema (step_properties mapSchema (step_type o)))).
  assert (Et : step_type r = r).
  { apply step_type_fixed. subst r. rewrite converted_get_type.
    destruct (truthy (prop "type" o)) eqn:E; [|congruence].
    intros _. split; [apply upper_if_string_idem | now apply converted_uniform_type]. }
  assert (Ep : step_properties mapSchema r = r).
  { apply step_properties_fixed. subst r. rewrite converted_get_properties.
    destruct (truthy (prop "properties" o)) eqn:E; [|congruence].
    intros _. split; [|now apply converted_uniform_properties].
    simpl. f_equal. apply converted_fixed. intros k v Hin. apply IH.
    unfold prop in Hin, E.
    destruct (get "properties" o) as [p|] eqn:Eg; [|discriminate].
    simpl in Hin. apply In_own_entries_le in Hin.
    apply get_own_entries_lt in Eg; [lia | reflexivity]. }
  assert (Ei : step_items mapSchema r = r).
  { apply step_items_fixed. subst r. rewrite converted_get_items.
    destruct (truthy (prop "items" o)) eqn:E; [|congruence].
    intros _. split; [|now apply converted_uniform_items].
    apply IH. unfold prop in *.
    destruct (get "items" o) as [p|] eqn:Eg; [|discriminate].
    simpl. apply get_own_entries_lt in Eg; [lia | reflexivity]. }
  rewrite Et, Ep, Ei. apply strip_strip.
Qed.

(** X1.  Converting a converted schema changes nothing. *)
Theorem mapSchema_idempotent (s : value) : mapSchema (mapSchema s) = mapSchema s.
Proof. apply (mapSchema_twice_below (S (size s))). lia. Qed.

(** X2.  A truthy schema is converted to an object with the keys of the
    schema, in their order, less [additionalProperties] and [$schema]; the
    value under any key other than [type], [properties] and [items] is the
    one the schema has there, whatever it holds. *)
Theorem mapSchema_keeps_other_properties (s : value) :
  truthy s = true ->
  exists o',
    mapSchema s = VObj o'
    /\ map fst o' = List.filter supported (map fst (own_entries s))
    /\ forall k,
         k <> "type" -> k <> "properties" -> k <> "items" -> supported k = true ->
         get k o' = get k (own_entries s).
Proof.
  intros Ht. rewrite mapSchema_unfold, mapSchema_body_steps, Ht. simpl.
  eexists. split; [reflexivity|]. split.
  - now rewrite strip_keys, step_items_keys, step_properties_keys, step_type_keys.
  - intros k H1 H2 H3 H4.
    now rewrite strip_get, step_items_get, step_properties_get, step_type_get.
Qed.

Lemma mapSchema_keeps_annotations :
  exists o',
    mapSchema annotated_schema = VObj o'
    /\ map fst o' = List.filter supported (map fst (own_entries annotated_schema))
    /\ forall k,
         k <> "type" -> k <> "properties" -> k <> "items" -> supported k = true ->
         get k o' = get k (own_entries annotated_schema).
Proof. apply (mapSchema_keeps_other_properties annotated_schema). reflexivity. Defined.

End SchemaLaws.

(** ** The Gemini adapter: [execute] *)

Module GeminiProvider.
Import JS Chat.

(** [a || b] on optional strings, as a condition or an optional value:
    [None] when both are falsy. *)
Definition first_truthy (a b : option string) : option string :=
  match a with
  | Some s => if String.eqb s "" then b else Some s
  | None => b
  end.

(** [process.env], as far as [execute] reads it. *)
Record Env : Type := {
  GEMINI_API_KEY : option string;
  https_proxy : option string;
  HTTPS_PROXY : option string
}.

(** [getProxyUrl] (proxy-gemini.ts, lines 18-20). *)
Definition getProxyUrl (env : Env) : option string :=
  first_truthy (https_proxy env) (HTTPS_PROXY env).

(** [!!s] on an optional string. *)
Definition truthy_string (s : option string) : bool :=
  match s with
  | Some v => negb (String.eqb v "")
  | None => false
  end.

(** A turn of the chat history: [{ role, parts: [{ text }] }]. *)
Record Content : Type := {
  content_role : string;
  text : option string
}.

(** The argument of [getGenerativeModel]. *)
Record ModelParams : Type := {
  params_model : string;
  systemInstruction : option string;
  generationConfig : object
}.

(** The request made of the configured model: [startChat({ history })]
    followed by [sendMessage(text)], or [generateContent(prompt)]. *)
Inductive Call : Type :=
| sendMessage (history : list Content) (message : string)
| generateContent (prompt : string).

Record UsageMetadata : Type := {
  promptTokenCount : Z;
  candidatesTokenCount : Z
}.

(** What the SDK answers: [response.text()] and [response.usageMetadata]. *)
Record Response : Type := {
  response_text : string;
  usageMetadata : option UsageMetadata
}.

Record Usage : Type := {
  inputTokens : Z;
  outputTokens : Z
}.

Record ProviderResponse : Type := {
  response_content : string;
  response_model : string;
  usage : option Usage
}.

(** [modelName] (gemini.ts, line 16). *)
Definition modelName (request : Request) (options : ExecutionOptions) : string :=
  or_else (opt_model options) (or_else (model request) "gemini-1.5-pro").

(** The loop that gathers the system prompt (gemini.ts, lines 79-86). *)
Definition gather_system (msgs : list Message) : string :=
  fold_left
    (fun systemInstruction msg =>
       match role msg with
       | system | developer =>
           systemInstruction +:+ JSON.to_string (text_of (content msg))
                             +:+ Anthropic.blank_line
       | _ => systemInstruction
       end)
    msgs "".

(** The argument of [getGenerativeModel] (gemini.ts, lines 92-96). *)
Definition model_params (request : Request) (options : ExecutionOptions) : ModelParams :=
  let systemInstruction := gather_system (messages request) in
  {| params_model := modelName request options;
     systemInstruction :=
       if String.eqb systemInstruction "" then None
       else Some (Str.trim systemInstruction);
     generationConfig := Gemini.generationConfig request |}.

(** The loop that builds [chatHistory] and [lastUserMessage] (gemini.ts,
    lines 102-119). *)
Definition gather_turns (msgs : list Message) : list Content * option string :=
  fold_left
    (fun (acc : list Content * option string) msg =>
       let '(chatHistory, lastUserMessage) := acc in
       match role msg with
       | system | developer => acc
       | _ =>
           let content := text_of (content msg) in
           let lastUserMessage :=
             match role msg with
             | user => content
             | _ => lastUserMessage
             end in
           (chatHistory ++ [{| content_role :=
                                 match role msg with
                                 | assistant => "model"
                                 | _ => "user"
                                 end;
                               text := content |}],
            lastUserMessage)
       end)
    msgs ([], Some "").

(** [chatHistory.pop()]: the last element, if any, and the array it leaves. *)
Fixpoint pop {A} (xs : list A) : option A * list A :=
  match xs with
  | [] => (None, [])
  | [x] => (Some x, [])
  | x :: xs' => let '(last, others) := pop xs' in (last, x :: others)
  end.

(** The request made of the model (gemini.ts, lines 128-138). *)
Definition call (request : Request) : Call :=
  let '(chatHistory, lastUserMessage) := gather_turns (messages request) in
  if 1 <? length chatHistory then
    let '(lastMsg, chatHistory) := pop chatHistory in
    sendMessage chatHistory
      (or_else (match lastMsg with Some m => text m | None => None end) "")
  else generateContent (or_else lastUserMessage " ").

(** *** The global [fetch] *)

Section Execute.

(** What [execute] is given from outside the repository: the values
    [globalThis.fetch] may hold, undici's proxied [fetch] for a proxy URL
    (making the agent may throw), and the SDK, which answers a call through
    whatever [globalThis.fetch] holds when the call is made. *)
Variable Fetch : Type.
Variable proxied : string -> Loader.outcome Fetch.
Variable sdk : Fetch -> string -> ModelParams -> Call -> Loader.outcome Response.

(** A computation that reads and writes [globalThis.fetch] and may throw. *)
Definition M (A : Type) : Type := Fetch -> Loader.outcome A * Fetch.

Definition ret {A} (a : A) : M A := fun g => (Loader.Ok a, g).

Definition throw {A} (e : Loader.Error) : M A := fun g => (Loader.Throw e, g).

Definition bind {A B} (m : M A) (k : A -> M B) : M B :=
  fun g =>
    match m g with
    | (Loader.Ok a, g') => k a g'
    | (Loader.Throw e, g') => (Loader.Throw e, g')
    end.

Notation "'do' x <~ m ; k" := (bind m (fun x => k))
  (at level 20, x name, m at level 100, k at level 200).

Definition get_fetch : M Fetch := fun g => (Loader.Ok g, g).

Definition set_fetch (f : Fetch) : M unit := fun _ => (Loader.Ok tt, f).

Definition lift {A} (r : Loader.outcome A) : M A := fun g => (r, g).

(** [try { body } finally { final }] *)
Definition try_finally {A} (body : M A) (final : M unit) : M A :=
  fun g =>
    let '(r, g1) := body g in
    match final g1 with
    | (Loader.Ok _, g2) => (r, g2)
    | (Loader.Throw e, g2) => (Loader.Throw e, g2)
    end.

(** [createProxyFetch] (proxy-gemini.ts, lines 28-32). *)
Definition createProxyFetch (proxyUrl : string) : M Fetch := lift (proxied proxyUrl).

(** [withProxyFetch] (proxy-gemini.ts, lines 42-53). *)
Definition withProxyFetch {T} (proxyUrl : string) (fn : M T) : M T :=
  do originalFetch <~ get_fetch ;
  try_finally
    (do proxyFetch <~ createProxyFetch proxyUrl ;
     do _ <~ set_fetch proxyFetch ;
     fn)
    (set_fetch originalFetch).

(** The two parts of a call of [withProxyFetch] between which other work
    runs: what it does before it awaits the callback (lines 46-49), when
    the proxied [fetch] can be made, and what it does when the callback has
    settled (line 51). *)
Definition enter (proxyUrl : string) : M Fetch :=
  do originalFetch <~ get_fetch ;
  do proxyFetch <~ createProxyFetch proxyUrl ;
  do _ <~ set_fetch proxyFetch ;
  ret originalFetch.

Definition leave (originalFetch : Fetch) : M unit := set_fetch originalFetch.

(** [runWithGenAI] (gemini.ts, lines 13-152). *)
Definition runWithGenAI (apiKey : string) (request : Request) (options : ExecutionOptions)
  : M ProviderResponse :=
  do fetch <~ get_fetch ;
  do response <~ lift (sdk fetch apiKey (model_params request options) (call request)) ;
  ret {| response_content := response_text response;
         response_model := modelName request options;
         usage :=
           match usageMetadata response with
           | Some u => Some {| inputTokens := promptTokenCount u;
                               outputTokens := candidatesTokenCount u |}
           | None => None
           end |}.

(** [execute] (gemini.ts, lines 7-155); [options_apiKey] is
    [options.apiKey]. *)
Definition execute (env : Env) (options_apiKey : option string) (request : Request)
    (options : ExecutionOptions) : M ProviderResponse :=
  let apiKey := first_truthy options_apiKey (GEMINI_API_KEY env) in
  if negb (truthy_string apiKey)
  then throw {| Loader.message := "Gemini API key is required" |}
  else
    let apiKey := default "" apiKey in
    let proxyUrl := getProxyUrl env in
    if truthy_string proxyUrl
    then withProxyFetch (default "" proxyUrl) (runWithGenAI apiKey request options)
    else runWithGenAI apiKey request options.

End Execute.

(** Undici's proxied [fetch], by name. *)
Definition named_proxy (proxyUrl : string) : Loader.outcome string :=
  Loader.Ok ("proxy " +:+ proxyUrl).

(** The turn made of a message that is not a system message. *)
Definition to_content (m : Message) : Content :=
  {| content_role := match role m with assistant => "model" | _ => "user" end;
     text := text_of (content m) |}.

Definition conversation (msgs : list Message) : list Message :=
  List.filter (fun m => negb (is_system m)) msgs.

(** The content of the last user message of a conversation, [start] when
    there is none. *)
Fixpoint last_user (msgs : list Message) (start : option string) : option string :=
  match msgs with
  | [] => start
  | m :: msgs' =>
      last_user msgs' (match role m with
                       | user => text_of (content m)
                       | _ => start
                       end)
  end.

(** A request of one system message and three turns. *)
Definition example_request : Request :=
  {| messages :=
       [ {| role := system; content := VStr "Be brief."; name := None |};
         {| role := user; content := VStr "Hello"; name := None |};
         {| role := assistant; content := VStr "Hi, how can I help?"; name := None |};
         {| role := user; content := VObj [("q", VNum 1)]; name := None |} ];
     model := None;
     responseFormat := None |}.

Lemma gather_system_from msgs start :
  fold_left
    (fun systemInstruction msg =>
       match role msg with
       | system | developer =>
           systemInstruction +:+ JSON.to_string (text_of (content msg))
                             +:+ Anthropic.blank_line
       | _ => systemInstruction
       end)
    msgs start
  = start +:+ Anthropic.system_text msgs.
Proof.
  revert start. induction msgs as [|m msgs IH]; intros start; simpl.
  - now rewrite Anthropic.append_empty_r.
  - rewrite IH. unfold is_system.
    destruct (role m); simpl; now rewrite ?Anthropic.append_assoc.
Qed.

Lemma gather_system_spec msgs : gather_system msgs = Anthropic.system_text msgs.
Proof. unfold gather_system. now rewrite gather_system_from. Qed.

Lemma append_empty_inv (a b : string) : a +:+ b = "" -> a = "" /\ b = "".
Proof. destruct a; simpl; [now split | discriminate]. Qed.

Lemma system_text_empty msgs :
  String.eqb (Anthropic.system_text msgs) "" = negb (existsb is_system msgs).
Proof.
  induction msgs as [|m msgs IH]; simpl; [reflexivity|].
  destruct (is_system m); simpl; [|exact IH].
  destruct (String.eqb_spec (JSON.to_string (text_of (content m)) +:+ Anthropic.blank_line
                             +:+ Anthropic.system_text msgs) "") as [E|]; [|reflexivity].
  apply append_empty_inv in E as [_ E]. apply append_empty_inv in E as [E _].
  discriminate.
Qed.

Lemma gather_turns_from msgs chatHistory lastUserMessage :
  fold_left
    (fun (acc : list Content * option string) msg =>
       let '(chatHistory, lastUserMessage) := acc in
       match role msg with
       | system | developer => acc
       | _ =>
           let content := text_of (content msg) in
           let lastUserMessage :=
             match role msg with
             | user => content
             | _ => lastUserMessage
             end in
           (chatHistory ++ [{| content_role :=
                                 match role msg with
                                 | assistant => "model"
                                 | _ => "user"
                                 end;
                               text := content |}],
            lastUserMessage)
       end)
    msgs (chatHistory, lastUserMessage)
  = (chatHistory ++ map to_content (conversation msgs), last_user msgs lastUserMessage).
Proof.
  revert chatHistory lastUserMessage.
  induction msgs as [|m msgs IH]; intros chatHistory lastUserMessage; simpl.
  - now rewrite app_nil_r.
  - unfold is_system, to_content.
    destruct (role m) eqn:Er; rewrite IH; simpl; rewrite ?Er, <- ?app_assoc; reflexivity.
Qed.

Lemma gather_turns_spec msgs :
  gather_turns msgs = (map to_content (conversation msgs), last_user msgs (Some "")).
Proof. unfold gather_turns. now rewrite gather_turns_from. Qed.

Lemma pop_app {A} (xs : list A) (x : A) : pop (xs ++ [x]) = (Some x, xs).
Proof.
  induction xs as [|y xs IH]; [reflexivity|].
  change ((y :: xs) ++ [x]) with (y :: (xs ++ [x])).
  cbn [pop]. rewrite IH. now destruct (xs ++ [x]) eqn:E; [destruct xs; discriminate|].
Qed.

(** The system messages are skipped by [last_user]. *)
Lemma last_user_conversation msgs start :
  last_user msgs start = last_user (conversation msgs) start.
Proof.
  revert start. induction msgs as [|m msgs IH]; intros start; [reflexivity|].
  unfold conversation, is_system in *. simpl.
  destruct (role m) eqn:Er; simpl; rewrite ?Er; apply IH.
Qed.

Lemma or_else_nonempty a b : b <> "" -> or_else a b <> "".
Proof.
  intros Hb. unfold or_else. destruct a as [s|]; [|exact Hb].
  now destruct (String.eqb_spec s "").
Qed.

Lemma withProxyFetch_spec {Fetch T} (proxied : string -> Loader.outcome Fetch)
    (proxyUrl : string) (fn : M Fetch T) (g : Fetch) :
  withProxyFetch Fetch proxied proxyUrl fn g =
  (match proxied proxyUrl with
   | Loader.Ok proxyFetch => fst (fn proxyFetch)
   | Loader.Throw e => Loader.Throw e
   end, g).
Proof.
  unfold withProxyFetch, bind, get_fetch, try_finally, createProxyFetch, lift, set_fetch.
  destruct (proxied proxyUrl) as [proxyFetch|e]; [|reflexivity].
  now destruct (fn proxyFetch).
Qed.

Lemma snd_runWithGenAI {Fetch} sdk apiKey request options (g : Fetch) :
  snd (runWithGenAI Fetch sdk apiKey request options g) = g.
Proof.
  unfold runWithGenAI, bind, get_fetch, lift, ret.
  now destruct (sdk g apiKey (model_params request options) (call request)).
Qed.

Lemma model_params_systemInstruction request options :
  systemInstruction (model_params request options)
  = if existsb is_system (messages request)
    then Some (Str.trim (Anthropic.system_text (messages request)))
    else None.
Proof.
  unfold model_params. cbn [systemInstruction].
  rewrite gather_system_spec, system_text_empty.
  now destruct (existsb is_system (messages request)).
Qed.

(** X3.  The system instruction given to the model is [undefined] exactly when
    the request has no system or developer message; otherwise it is the
    trimmed text made of their contents, each followed by a blank line,
    which is the empty string when those contents are blank. *)
Theorem gemini_system_instruction (request : Request) (options : ExecutionOptions) :
  systemInstruction (model_params request options)
  = if existsb is_system (messages request)
    then Some (Str.trim (Anthropic.system_text (messages request)))
    else None.
Proof. apply model_params_systemInstruction. Qed.

(** X4.  With two or more messages that are not system messages, the last of
    them, whatever its role, is what [sendMessage] is given ([''] when its
    text is empty or undefined), and the ones before it are the history,
    in order, an assistant message as a [model] turn and any other as a
    [user] turn. *)
Theorem gemini_multi_turn_sends_last (request : Request) (before : list Message)
    (m : Message) :
  conversation (messages request) = before ++ [m] ->
  before <> [] ->
  call request
  = sendMessage (map to_content before) (or_else (text_of (content m)) "").
Proof.
  intros Hc Hb. unfold call. rewrite gather_turns_spec, Hc, map_app. cbn [map].
  rewrite length_app, length_map. cbn [length].
  destruct before as [|b before]; [contradiction|]. cbn [length].
  replace (1 <? S (length before) + 1) with true
    by (symmetry; apply Nat.ltb_lt; lia).
  now rewrite pop_app.
Qed.

Lemma gemini_multi_turn_example :
  call example_request
  = sendMessage
      [ {| content_role := "user"; text := Some "Hello" |};
        {| content_role := "model"; text := Some "Hi, how can I help?" |} ]
      (or_else (text_of (VObj [("q", VNum 1)])) "").
Proof.
  apply (gemini_multi_turn_sends_last example_request
           [ {| role := user; content := VStr "Hello"; name := None |};
             {| role := assistant; content := VStr "Hi, how can I help?"; name := None |} ]
           {| role := user; content := VObj [("q", VNum 1)]; name := None |}).
  - reflexivity.
  - discriminate.
Defined.

(** X5.  With at most one message that is not a system message, the model is
    asked by [generateContent]: for the text of that message when it is a
    user message with a text that is not empty, and for a single blank
    otherwise, so the text of a lone assistant message is not sent.  The
    prompt given to [generateContent] is never empty. *)
Theorem gemini_single_turn_prompt (request : Request) :
  (conversation (messages request) = [] -> call request = generateContent " ")
  /\ (forall m,
        conversation (messages request) = [m] ->
        call request
        = generateContent (match role m with
                           | user => or_else (text_of (content m)) " "
                           | _ => " "
                           end))
  /\ (forall prompt, call request = generateContent prompt -> prompt <> "").
Proof.
  unfold call. rewrite gather_turns_spec, last_user_conversation.
  split; [|split].
  - intros ->. reflexivity.
  - intros m Hm. rewrite Hm. cbn [map length last_user]. simpl (1 <? 1).
    assert (Hs : is_system m = false).
    { assert (Hin : In m (conversation (messages request))) by (rewrite Hm; now left).
      apply filter_In in Hin as [_ Hin]. now apply negb_true_iff in Hin. }
    unfold is_system in Hs. destruct (role m); try discriminate; reflexivity.
  - intros prompt.
    destruct (1 <? length (map to_content (conversation (messages request)))).
    + destruct (pop (map to_content (conversation (messages request)))). discriminate.
    + intros [= <-]. apply or_else_nonempty. discriminate.
Qed.

(** X6.  [withProxyFetch] leaves [globalThis.fetch] as it found it, whether the
    callback returns or throws, whatever the callback does to it, and also
    when the proxied [fetch] cannot be made; the callback runs with the
    proxied [fetch] in place, and its result or exception is the call's.
    So [execute] never leaves a replaced [fetch] behind; with a key and a
    proxy URL it asks the SDK through the proxied [fetch], and without a
    key it fails before anything else is done. *)
Theorem gemini_proxy_fetch_is_restored (Fetch : Type)
    (proxied : string -> Loader.outcome Fetch)
    (sdk : Fetch -> string -> ModelParams -> Call -> Loader.outcome Response)
    (g : Fetch) :
  (forall (T : Type) (proxyUrl : string) (fn : M Fetch T),
      snd (withProxyFetch Fetch proxied proxyUrl fn g) = g
      /\ fst (withProxyFetch Fetch proxied proxyUrl fn g)
         = match proxied proxyUrl with
           | Loader.Ok proxyFetch => fst (fn proxyFetch)
           | Loader.Throw e => Loader.Throw e
           end)
  /\ (forall env options_apiKey request options,
        snd (execute Fetch proxied sdk env options_apiKey request options g) = g)
  /\ (forall env options_apiKey request options proxyFetch,
        truthy_string (first_truthy options_apiKey (GEMINI_API_KEY env)) = true ->
        truthy_string (getProxyUrl env) = true ->
        proxied (default "" (getProxyUrl env)) = Loader.Ok proxyFetch ->
        fst (execute Fetch proxied sdk env options_apiKey request options g)
        = fst (runWithGenAI Fetch sdk
                 (default "" (first_truthy options_apiKey (GEMINI_API_KEY env)))
                 request options proxyFetch))
  /\ (forall env options_apiKey request options,
        truthy_string (first_truthy options_apiKey (GEMINI_API_KEY env)) = false ->
        fst (execute Fetch proxied sdk env options_apiKey request options g)
        = Loader.Throw {| Loader.message := "Gemini API key is required" |}).
Proof.
  split; [|split; [|split]].
  - intros T proxyUrl fn. now rewrite withProxyFetch_spec.
  - intros env options_apiKey request options. unfold execute.
    destruct (truthy_string (first_truthy options_apiKey (GEMINI_API_KEY env)));
      [|reflexivity].
    cbn [negb]. destruct (truthy_string (getProxyUrl env)).
    + now rewrite withProxyFetch_spec.
    + apply snd_runWithGenAI.
  - intros env options_apiKey request options proxyFetch Hk Hp Hf.
    unfold execute. rewrite Hk, Hp. cbn [negb]. now rewrite withProxyFetch_spec, Hf.
  - intros env options_apiKey request options Hk. unfold execute. now rewrite Hk.
Qed.

(** X24.  Two calls of [withProxyFetch] that overlap, the second starting while
    the first awaits its callback: when the second settles first, the
    global [fetch] ends as it was before both; when the first settles
    first, the global [fetch] ends as the proxied [fetch] of the first
    call, since that is what the second call found and puts back. *)
Theorem overlapping_proxy_calls (Fetch : Type) (proxied : string -> Loader.outcome Fetch)
    (first second : string) (firstFetch secondFetch g : Fetch) :
  proxied first = Loader.Ok firstFetch ->
  proxied second = Loader.Ok secondFetch ->
  (forall (T : Type) (fn : M Fetch T),
      withProxyFetch Fetch proxied first fn g
      = bind Fetch (enter Fetch proxied first)
          (fun originalFetch => try_finally Fetch fn (leave Fetch originalFetch)) g)
  /\ snd (bind Fetch (enter Fetch proxied first) (fun original1 =>
          bind Fetch (enter Fetch proxied second) (fun original2 =>
          bind Fetch (leave Fetch original2) (fun _ =>
          leave Fetch original1))) g) = g
  /\ snd (bind Fetch (enter Fetch proxied first) (fun original1 =>
          bind Fetch (enter Fetch proxied second) (fun original2 =>
          bind Fetch (leave Fetch original1) (fun _ =>
          leave Fetch original2))) g) = firstFetch.
Proof.
  intros H1 H2. split; [|split].
  - intros T fn.
    unfold withProxyFetch, enter, leave, bind, get_fetch, try_finally, createProxyFetch,
      lift, set_fetch, ret.
    rewrite H1. now destruct (fn firstFetch).
  - unfold enter, leave, bind, get_fetch, createProxyFetch, lift, set_fetch, ret.
    now rewrite H1, H2.
  - unfold enter, leave, bind, get_fetch, createProxyFetch, lift, set_fetch, ret.
    now rewrite H1, H2.
Qed.

Lemma overlapping_proxy_calls_example :
  snd (bind string (enter string named_proxy "http://a:1") (fun original1 =>
       bind string (enter string named_proxy "http://b:2") (fun original2 =>
       bind string (leave string original1) (fun _ =>
       leave string original2))) "global fetch") = "proxy http://a:1".
Proof.
  apply (overlapping_proxy_calls string named_proxy "http://a:1" "http://b:2"
           "proxy http://a:1" "proxy http://b:2" "global fetch");
    reflexivity.
Defined.

End GeminiProvider.

(** ** The adapters side by side *)

Module Providers.
Import JS Chat.

(** [options.model || request.model || fallback] picks [sent]. *)
Definition chooses (fallback sent : string) (request : Request)
    (options : ExecutionOptions) : Prop :=
  sent <> ""
  /\ (forall m, opt_model options = Some m -> m <> "" -> sent = m)
  /\ (opt_model options = None \/ opt_model options = Some "" ->
      forall m, model request = Some m -> m <> "" -> sent = m)
  /\ (opt_model options = None \/ opt_model options = Some "" ->
      model request = None \/ model request = Some "" ->
      sent = fallback).

Lemma or_else_chooses fallback request options :
  fallback <> "" ->
  chooses fallback (or_else (opt_model options) (or_else (model request) fallback))
          request options.
Proof.
  intros Hf. unfold chooses, or_else.
  destruct (opt_model options) as [a|], (model request) as [b|];
    try destruct (String.eqb_spec a ""); try destruct (String.eqb_spec b "");
    repeat split; try congruence;
    try (intros m [= <-] ?; congruence);
    try (intros [?|?] m [= <-] ?; congruence);
    try (intros [?|?] [?|?]; congruence);
    try (intros [?|?] m ?; congruence).
Qed.

Lemma anthropic_model request options :
  get "model" (Anthropic.create_params request options)
  = Some (Anthropic.PString
            (or_else (opt_model options)
                     (or_else (model request) "claude-3-opus-20240229"))).
Proof.
  unfold Anthropic.create_params.
  destruct (Anthropic.split_messages (messages request)).
  now destruct (responseFormat request) as [[js|]|].
Qed.

Lemma anthropic_max_tokens request options :
  get "max_tokens" (Anthropic.create_params request options)
  = Some (Anthropic.PNumber (Anthropic.number_or (opt_maxTokens options) 4096)).
Proof.
  unfold Anthropic.create_params.
  destruct (Anthropic.split_messages (messages request)).
  now destruct (responseFormat request) as [[js|]|].
Qed.

(** X7.  Each adapter names the model by [options.model], or else by
    [request.model], or else by its own default, an empty string counting
    as absent: the model named is never the empty string. *)
Theorem model_is_option_then_request_then_default (request : Request)
    (options : ExecutionOptions) :
  (exists sent,
      get "model" (Anthropic.create_params request options) = Some (Anthropic.PString sent)
      /\ chooses "claude-3-opus-20240229" sent request options)
  /\ (exists sent,
        get "model" (OpenAI.create_params request options) = Some (OpenAI.PString sent)
        /\ chooses "gpt-4" sent request options)
  /\ chooses "gemini-1.5-pro"
             (GeminiProvider.params_model (GeminiProvider.model_params request options))
             request options.
Proof.
  split; [|split].
  - eexists. split; [apply anthropic_model|]. now apply or_else_chooses.
  - eexists. split; [reflexivity|]. now apply or_else_chooses.
  - now apply or_else_chooses.
Qed.

(** X8.  Anthropic is always given a [max_tokens] that is a number other
    than zero: the option when it is a number other than zero, and 4096
    when it is absent, zero or [NaN].  OpenAI is given the option as it
    is, absent, zero or [NaN]. *)
Theorem anthropic_max_tokens_defaults (request : Request) (options : ExecutionOptions) :
  (exists n,
      get "max_tokens" (Anthropic.create_params request options)
        = Some (Anthropic.PNumber n)
      /\ n <> 0%Z
      /\ (forall m, opt_maxTokens options = Some (finite m) -> m <> 0%Z -> n = m)
      /\ (opt_maxTokens options = None
          \/ opt_maxTokens options = Some (finite 0)
          \/ opt_maxTokens options = Some NaN ->
          n = 4096%Z))
  /\ get "max_tokens" (OpenAI.create_params request options)
     = Some (OpenAI.POptNumber (opt_maxTokens options)).
Proof.
  split; [|reflexivity].
  eexists. split; [apply anthropic_max_tokens|].
  unfold Anthropic.number_or.
  destruct (opt_maxTokens options) as [[|m]|]; [|destruct (Z.eqb_spec m 0)|].
  - repeat split; [discriminate | intros m H; discriminate].
  - subst m. repeat split; [discriminate | intros m [= <-] H; congruence].
  - repeat split; [exact n | intros m' [= <-] _; reflexivity |].
    intros [H|[[= H]|H]]; [discriminate | contradiction | discriminate].
  - repeat split; [discriminate | intros m H; discriminate].
Qed.

(** X9.  Anthropic and Gemini are given the same system text: where Gemini is
    given a text that is not empty, Anthropic is given that text; where
    Gemini is given the empty string or nothing, Anthropic is given
    nothing. *)
Theorem anthropic_and_gemini_system_text_agree (request : Request)
    (options options' : ExecutionOptions) :
  get "system" (Anthropic.create_params request options)
  = Some (Anthropic.PSystem
            match GeminiProvider.systemInstruction
                    (GeminiProvider.model_params request options') with
            | Some t => if String.eqb t "" then None else Some t
            | None => None
            end).
Proof.
  rewrite Anthropic.create_params_system, GeminiProvider.model_params_systemInstruction.
  unfold Anthropic.trimmed_or_undefined.
  pose proof (GeminiProvider.system_text_empty (messages request)) as H.
  destruct (existsb is_system (messages request)); [reflexivity|].
  apply String.eqb_eq in H. rewrite H. reflexivity.
Qed.

(** X10.  OpenAI is never sent a message with role [developer]: a developer
    message goes out as a [system] message, in its place. *)
Theorem openai_never_sends_developer (request : Request) (options : ExecutionOptions) :
  exists sent,
    get "messages" (OpenAI.create_params request options) = Some (OpenAI.PMessages sent)
    /\ Forall (fun p => OpenAI.param_role p <> developer) sent
    /\ Forall2 (fun m p => role m = developer -> OpenAI.param_role p = system)
               (messages request) sent.
Proof.
  eexists. split; [reflexivity|].
  induction (messages request) as [|m msgs IH]; simpl; [split; constructor|].
  destruct IH as [IH1 IH2]. split; constructor; try assumption.
  - unfold OpenAI.to_param. simpl. destruct (role m); discriminate.
  - unfold OpenAI.to_param. simpl. now intros ->.
Qed.

(** X11.  When structured output was asked for and the response holds no
    [tool_use] block, the content returned is the empty string, whatever
    text the response holds. *)
Theorem anthropic_structured_without_tool_use (request : Request) (js : JsonSchema)
    (blocks : list Anthropic.ContentBlock) :
  responseFormat request = Some (json_schema js) ->
  Forall (fun b => Anthropic.is_tool_use b = false) blocks ->
  Anthropic.response_content request blocks = inl (Some "").
Proof.
  intros Hrf Hb. unfold Anthropic.response_content. rewrite Hrf.
  assert (Hf : List.find Anthropic.is_tool_use blocks = None).
  { induction Hb as [|b bs Hb _ IH]; simpl; [reflexivity|]. now rewrite Hb. }
  now rewrite Hf.
Qed.

Lemma anthropic_structured_text_only :
  Anthropic.response_content Anthropic.blank_description_request
    [Anthropic.text_block "The answer is 4."]
  = inl (Some "").
Proof.
  apply (anthropic_structured_without_tool_use Anthropic.blank_description_request
           Anthropic.blank_description_schema).
  - reflexivity.
  - constructor; [reflexivity | constructor].
Defined.

(** X12.  When no structured output was asked for, the content returned is read
    off the first block of the response alone: its text when it is a text
    block and the empty string when it is not, whatever blocks follow; a
    response without blocks makes the adapter fail. *)
Theorem anthropic_plain_reads_first_block (request : Request) :
  (forall js, responseFormat request <> Some (json_schema js)) ->
  Anthropic.response_content request [] = inr tt
  /\ forall b bs,
       Anthropic.response_content request (b :: bs)
       = inl (Some match b with Anthropic.text_block t => t | _ => "" end).
Proof.
  intros Hrf. unfold Anthropic.response_content.
  destruct (responseFormat request) as [[js|t]|]; [now destruct (Hrf js)| |];
    (split; [reflexivity|]); intros [t'|i|] bs; reflexivity.
Qed.

Lemma anthropic_plain_response_example :
  Anthropic.response_content Anthropic.example_request [] = inr tt
  /\ forall b bs,
       Anthropic.response_content Anthropic.example_request (b :: bs)
       = inl (Some match b with Anthropic.text_block t => t | _ => "" end).
Proof.
  apply (anthropic_plain_reads_first_block Anthropic.example_request).
  intros js. discriminate.
Defined.

End Providers.

(** ** Laws of the matcher *)

Module RegexLaws.
Import Regex.


(** The loop of a repetition, as [run] runs it. *)
Definition repeat_loop (re : RegExp) (greedy : bool) (min : nat) (max : option nat)
    (a : node) (k : state -> option state) : nat -> nat -> state -> option state :=
  fix loop (fuel count : nat) (st : state) {struct fuel} : option state :=
    let stop := if min <=? count then k st else None in
    match fuel with
    | 0 => stop
    | S fuel' =>
        let again :=
          if match max with Some m => count <? m | None => true end
          then run re a st (fun st' =>
                 if (length (rest st') <? length (rest st)) || (count <? min)
                 then loop fuel' (S count) st'
                 else None)
          else None in
        if greedy
        then match again with Some e => Some e | None => stop end
        else match stop with Some e => Some e | None => again end
    end.

(** Every character that [r] can take is an allowed one. *)
Fixpoint takes_allowed (re : RegExp) (allowed : ascii -> Prop) (r : node) : Prop :=
  match r with
  | Char class => forall c, in_class re class c = true -> allowed c
  | Seq a b | Alt a b => takes_allowed re allowed a /\ takes_allowed re allowed b
  | Group _ a | Repeat _ _ _ a => takes_allowed re allowed a
  | Empty | LineStart | LineEnd => True
  end.

(** The positions of one text that lie at or after a given position,
    with allowed characters in between. *)
Definition reached_from (allowed : ascii -> Prop) (from st : state) : Prop :=
  exists taken,
    before st = rev taken ++ before from
    /\ rest from = taken ++ rest st
    /\ Forall allowed taken.

Lemma run_Repeat re greedy min max a st k :
  run re (Repeat greedy min max a) st k
  = repeat_loop re greedy min max a k (min + length (rest st)) 0 st.
Proof. reflexivity. Qed.

Lemma run_Seq re a b st k :
  run re (Seq a b) st k = run re a st (fun st' => run re b st' k).
Proof. reflexivity. Qed.

Lemma run_Group re n a st k :
  run re (Group n a) st k = run re a st (fun st' => k (capture n st st')).
Proof. reflexivity. Qed.

Lemma run_Char re class st k :
  run re (Char class) st k
  = match rest st with
    | c :: cs => if in_class re class c then k (advance c cs st) else None
    | [] => None
    end.
Proof. reflexivity. Qed.

(** A greedy run of one class takes every character of a stretch that
    ends where the class does, when the rest of the match goes through
    from there. *)
Lemma greedy_class re min max class k (pre : list ascii) :
  forall fuel count b caps tl e,
    forallb (in_class re class) pre = true ->
    match tl with [] => True | c :: _ => in_class re class c = false end ->
    match max with Some m => count + length pre <= m | None => True end ->
    min <= count + length pre ->
    length pre <= fuel ->
    k {| before := rev pre ++ b; rest := tl; captures := caps |} = Some e ->
    repeat_loop re true min max (Char class) k fuel count
      {| before := b; rest := pre ++ tl; captures := caps |} = Some e.
Proof.
  induction pre as [|c pre IH]; intros fuel count b caps tl e Hpre Htl Hmax Hmin Hfuel Hk.
  - simpl in *. assert (Hs : (min <=? count) = true) by (apply Nat.leb_le; lia).
    destruct fuel as [|fuel]; simpl; rewrite Hs; [exact Hk|].
    assert (Ha : run re (Char class) {| before := b; rest := tl; captures := caps |}
                   (fun st' =>
                      if (length (rest st') <? length tl) || (count <? min)
                      then repeat_loop re true min max (Char class) k fuel (S count) st'
                      else None) = None).
    { rewrite run_Char. simpl. destruct tl as [|c cs]; [reflexivity|]. now rewrite Htl. }
    destruct max as [m|]; [destruct (count <? m)|]; simpl in Ha |- *; rewrite ?Ha; exact Hk.
  - simpl in Hpre. apply andb_true_iff in Hpre as [Hc Hpre]. simpl in Hfuel, Hmax, Hmin.
    destruct fuel as [|fuel]; [lia|]. simpl.
    assert (Hm : match max with Some m => count <? m | None => true end = true).
    { destruct max as [m|]; [apply Nat.ltb_lt; lia | reflexivity]. }
    rewrite Hm, Hc. simpl.
    assert (Hl : (length (pre ++ tl) <? S (length (pre ++ tl))) = true)
      by (apply Nat.ltb_lt; lia).
    rewrite Hl. simpl.
    unfold advance. simpl.
    erewrite (IH fuel (S count) (c :: b) caps tl e); try eassumption; try reflexivity.
    + destruct max as [m|]; [lia | exact I].
    + lia.
    + lia.
    + simpl in Hk. now rewrite <- app_assoc in Hk.
Qed.

(** A lazy run of one class goes on to the first place from which the
    rest of the match goes through. *)
Lemma lazy_class re min class k (pre : list ascii) :
  forall fuel count b caps tl e,
    forallb (in_class re class) pre = true ->
    (forall pre1 c pre2,
        pre = pre1 ++ c :: pre2 ->
        k {| before := rev pre1 ++ b; rest := c :: pre2 ++ tl; captures := caps |} = None) ->
    min <= count + length pre ->
    length pre <= fuel ->
    k {| before := rev pre ++ b; rest := tl; captures := caps |} = Some e ->
    repeat_loop re false min None (Char class) k fuel count
      {| before := b; rest := pre ++ tl; captures := caps |} = Some e.
Proof.
  induction pre as [|c pre IH]; intros fuel count b caps tl e Hpre Hearly Hmin Hfuel Hk.
  - simpl in *. assert (Hs : (min <=? count) = true) by (apply Nat.leb_le; lia).
    destruct fuel as [|fuel]; simpl; rewrite Hs; [exact Hk|]. now rewrite Hk.
  - simpl in Hpre. apply andb_true_iff in Hpre as [Hc Hpre]. simpl in Hfuel, Hmin.
    destruct fuel as [|fuel]; [lia|]. simpl.
    assert (Hstop : (if min <=? count
                     then k {| before := b; rest := c :: pre ++ tl; captures := caps |}
                     else None) = None).
    { destruct (min <=? count); [|reflexivity]. apply (Hearly [] c pre eq_refl). }
    rewrite Hstop, Hc. simpl.
    assert (Hl : (length (pre ++ tl) <? S (length (pre ++ tl))) = true)
      by (apply Nat.ltb_lt; lia).
    rewrite Hl. simpl. unfold advance. simpl.
    apply (IH fuel (S count) (c :: b) caps tl e); try assumption; try lia.
    + intros pre1 c' pre2 E. specialize (Hearly (c :: pre1) c' pre2).
      simpl in Hearly. rewrite <- app_assoc in Hearly. apply Hearly. now rewrite E.
    + simpl in Hk. now rewrite <- app_assoc in Hk.
Qed.

Lemma run_LineStart re st k :
  run re LineStart st k = if at_line_start re st then k st else None.
Proof. reflexivity. Qed.

Lemma run_LineEnd re st k :
  run re LineEnd st k = if at_line_end re st then k st else None.
Proof. reflexivity. Qed.

Lemma run_Alt re a b st k :
  run re (Alt a b) st k
  = match run re a st k with Some e => Some e | None => run re b st k end.
Proof. reflexivity. Qed.

Lemma consumed_app b p r1 r2 c1 c2 :
  consumed {| before := b; rest := r1; captures := c1 |}
           {| before := rev p ++ b; rest := r2; captures := c2 |} = p.
Proof.
  unfold consumed. cbn [before].
  rewrite length_app, length_rev.
  replace (length p + length b - length b) with (length (rev p) + 0)
    by (rewrite length_rev; lia).
  rewrite firstn_app_2. simpl. now rewrite app_nil_r, rev_involutive.
Qed.

(** *** What a match leaves of the position *)

Section Invariant.
Variable re : RegExp.
Variable allowed : ascii -> Prop.
Variable P : state -> Prop.
Hypothesis P_advance :
  forall c cs st, allowed c -> P st -> rest st = c :: cs -> P (advance c cs st).
Hypothesis P_capture : forall n from to, P to -> P (capture n from to).

Lemma loop_invariant greedy min max a k e
    (IHa : forall st k', P st -> run re a st k' = Some e ->
                         exists st', P st' /\ k' st' = Some e) :
  forall fuel count st,
    P st ->
    repeat_loop re greedy min max a k fuel count st = Some e ->
    exists st', P st' /\ k st' = Some e.
Proof.
  induction fuel as [|fuel IH]; intros count st HP H; simpl in H.
  - destruct (min <=? count); [now exists st | discriminate].
  - set (again := if match max with Some m => count <? m | None => true end
                  then run re a st (fun st' =>
                         if (length (rest st') <? length (rest st)) || (count <? min)
                         then repeat_loop re greedy min max a k fuel (S count) st'
                         else None)
                  else None) in H.
    assert (Hagain : again = Some e -> exists st', P st' /\ k st' = Some e).
    { subst again. destruct (match max with Some m => count <? m | None => true end);
        [|discriminate].
      intros Hr. destruct (IHa _ _ HP Hr) as (st' & HP' & Hk).
      destruct ((length (rest st') <? length (rest st)) || (count <? min));
        [|discriminate].
      now apply (IH (S count) st'). }
    assert (Hstop : (if min <=? count then k st else None) = Some e ->
                    exists st', P st' /\ k st' = Some e).
    { destruct (min <=? count); [now exists st | discriminate]. }
    destruct greedy.
    + destruct again as [e'|]; [|now apply Hstop].
      apply Hagain. exact H.
    + destruct (if min <=? count then k st else None) as [e'|]; [now apply Hstop|].
      now apply Hagain.
Qed.

(** A successful run hands its continuation a position reached from the
    start by taking allowed characters and recording groups. *)
Lemma run_invariant r :
  takes_allowed re allowed r ->
  forall st k e,
    P st -> run re r st k = Some e -> exists st', P st' /\ k st' = Some e.
Proof.
  induction r as [|class|a IHa b IHb|a IHa b IHb|n a IHa|greedy min max a IHa| |];
    intros Hr st k e HP H.
  - now exists st.
  - rewrite run_Char in H. destruct (rest st) as [|c cs] eqn:Er; [discriminate|].
    destruct (in_class re class c) eqn:Ec; [|discriminate].
    exists (advance c cs st). split; [|exact H].
    apply P_advance; [now apply Hr | exact HP | exact Er].
  - destruct Hr as [Ha Hb]. rewrite run_Seq in H.
    destruct (IHa Ha _ _ _ HP H) as (st' & HP' & H'). now apply (IHb Hb st').
  - destruct Hr as [Ha Hb]. rewrite run_Alt in H.
    destruct (run re a st k) as [e'|] eqn:Ea.
    + apply (IHa Ha st k e HP). now rewrite Ea.
    + now apply (IHb Hb st).
  - rewrite run_Group in H. destruct (IHa Hr _ _ _ HP H) as (st' & HP' & H').
    exists (capture n st st'). split; [now apply P_capture | exact H'].
  - rewrite run_Repeat in H.
    apply (loop_invariant greedy min max a k e) in H; [exact H| |exact HP].
    intros st0 k' HP0 H0. now apply (IHa Hr st0 k' e).
  - rewrite run_LineStart in H. destruct (at_line_start re st); [|discriminate].
    now exists st.
  - rewrite run_LineEnd in H. destruct (at_line_end re st); [|discriminate].
    now exists st.
Qed.

End Invariant.

Lemma reached_from_refl allowed st : reached_from allowed st st.
Proof. exists []. now repeat split. Qed.

Lemma reached_from_advance allowed from c cs st :
  allowed c ->
  reached_from allowed from st -> rest st = c :: cs ->
  reached_from allowed from (advance c cs st).
Proof.
  intros Hc (taken & Hb & Hr & Ha) E. exists (taken ++ [c]).
  unfold advance. cbn [before rest]. split; [|split].
  - rewrite Hb, rev_app_distr. reflexivity.
  - rewrite Hr, E, <- app_assoc. reflexivity.
  - apply Forall_app. split; [exact Ha | now constructor].
Qed.

Lemma reached_from_capture allowed from n st0 st :
  reached_from allowed from st -> reached_from allowed from (capture n st0 st).
Proof. intros H. exact H. Qed.

Lemma takes_anything re r : takes_allowed re (fun _ => True) r.
Proof. induction r; simpl; auto. Qed.

Lemma run_reached re r st e :
  run re r st Some = Some e -> reached_from (fun _ => True) st e.
Proof.
  intros H.
  destruct (run_invariant re (fun _ => True) (reached_from (fun _ => True) st)
              (reached_from_advance _ st) (reached_from_capture _ st)
              r (takes_anything re r) st Some e (reached_from_refl _ st) H)
    as (st' & HP & [= <-]).
  exact HP.
Qed.

Lemma search_found re input :
  forall prefix from to,
    search re prefix input = Some (from, to) ->
    exists skipped,
      input = skipped ++ rest from
      /\ before from = rev skipped ++ prefix
      /\ run re (source re) from Some = Some to.
Proof.
  induction input as [|c input IH]; intros prefix from to H; cbn [search] in H.
  - destruct (run re (source re) {| before := prefix; rest := []; captures := [] |} Some)
      as [e|] eqn:Er; [|discriminate].
    injection H as <- <-. now exists [].
  - destruct (run re (source re)
                {| before := prefix; rest := c :: input; captures := [] |} Some)
      as [e|] eqn:Er.
    + injection H as <- <-. now exists [].
    + destruct (IH _ _ _ H) as (skipped & Hi & Hb & Hr).
      exists (c :: skipped). rewrite Hi at 1. simpl. rewrite Hb, <- app_assoc.
      now repeat split.
Qed.

(** [exec] splits the text: what precedes the match, the match and what
    follows it make up the text. *)
Lemma exec_splits re s m :
  exec re s = Some m ->
  s = preceding m +:+ matched m +:+ following m
  /\ exists from to,
       search re [] (Str.to_list s) = Some (from, to)
       /\ preceding m = Str.of_list (rev (before from))
       /\ matched m +:+ following m = Str.of_list (rest from).
Proof.
  unfold exec. destruct (search re [] (Str.to_list s)) as [[from to]|] eqn:Es;
    [|discriminate].
  intros [= <-]. cbn [preceding matched following].
  destruct (search_found _ _ _ _ _ Es) as (skipped & Hi & Hb & Hr).
  destruct (run_reached _ _ _ _ Hr) as (taken & Hb' & Hr' & _).
  assert (Hc : consumed from to = taken).
  { unfold consumed. rewrite Hb', length_app, length_rev.
    replace (length taken + length (before from) - length (before from))
      with (length (rev taken) + 0) by (rewrite length_rev; lia).
    rewrite firstn_app_2. simpl. now rewrite app_nil_r, rev_involutive. }
  assert (Hm : Str.of_list (consumed from to) +:+ Str.of_list (rest to)
               = Str.of_list (rest from)).
  { rewrite Hc, Hr'. rewrite <- (Str.of_to_list (_ +:+ _)).
    now rewrite Str.to_list_app, !Str.to_of_list. }
  split.
  - rewrite Hm. rewrite <- (Str.of_to_list s) at 1. rewrite Hi.
    rewrite <- (Str.of_to_list (_ +:+ _)). rewrite Str.to_list_app, !Str.to_of_list.
    rewrite Hb, app_nil_r, rev_involutive. reflexivity.
  - exists from, to. now repeat split.
Qed.

Lemma search_here re prefix input e :
  run re (source re) {| before := prefix; rest := input; captures := [] |} Some = Some e ->
  search re prefix input
  = Some ({| before := prefix; rest := input; captures := [] |}, e).
Proof. intros H. destruct input; cbn [search]; now rewrite H. Qed.

Lemma length_to_list s : length (Str.to_list s) = String.length s.
Proof. induction s as [|c s IH]; simpl; [reflexivity | now rewrite IH]. Qed.

Lemma consumed_reached allowed from to taken :
  before to = rev taken ++ before from ->
  rest from = taken ++ rest to ->
  Forall allowed taken ->
  consumed from to = taken.
Proof.
  intros Hb _ _. unfold consumed. rewrite Hb, length_app, length_rev.
  replace (length taken + length (before from) - length (before from))
    with (length (rev taken) + 0) by (rewrite length_rev; lia).
  rewrite firstn_app_2. simpl. now rewrite app_nil_r, rev_involutive.
Qed.

End RegexLaws.

(** ** Heading lines *)

Module Headings.
Import Regex Loader RegexLaws.

(** Does some line of the text start with [#]?  [at_start] tells whether
    the text itself starts a line. *)
Fixpoint line_starts_with_hash (at_start : bool) (cs : list ascii) : bool :=
  match cs with
  | [] => false
  | c :: cs' =>
      (at_start && Ascii.eqb c "#") || line_starts_with_hash (Str.is_line_terminator c) cs'
  end.

(** The first character is there and is not a blank. *)
Definition starts_with_text (s : string) : bool :=
  match s with
  | String c _ => negb (Str.is_space c)
  | EmptyString => false
  end.

(** The line break after the heading, if there is one, and what follows. *)
Definition after_heading (tail : option (list ascii)) : list ascii :=
  match tail with
  | Some body => ascii_of_nat 10 :: body
  | None => []
  end.

(** Does the text end a line, so that what follows it starts one? *)
Definition ends_a_line (s : string) : bool :=
  match rev (Str.to_list s) with
  | [] => true
  | c :: _ => Str.is_line_terminator c
  end.

(** *** Text without a heading line *)

Lemma run_header_none st k :
  at_line_start headerRegex st
  && match rest st with c :: _ => Ascii.eqb c "#" | [] => false end = false ->
  run headerRegex (source headerRegex) st k = None.
Proof.
  intros H. unfold headerRegex at 2. cbn [source].
  rewrite run_Seq, run_LineStart.
  destruct (at_line_start headerRegex st); [|reflexivity]. simpl in H.
  rewrite run_Seq, run_Group, run_Repeat.
  cbn [repeat_loop Nat.add Nat.leb Nat.ltb].
  rewrite run_Char. destruct (rest st) as [|c cs]; [reflexivity|].
  change (in_class headerRegex (just "#") c) with (Ascii.eqb c "#"). now rewrite H.
Qed.

Lemma search_header_none input :
  forall prefix,
    line_starts_with_hash
      (match prefix with [] => true | c :: _ => Str.is_line_terminator c end) input
    = false ->
    search headerRegex prefix input = None.
Proof.
  induction input as [|c input IH]; intros prefix H.
  - cbn [search]. rewrite run_header_none; [reflexivity|]. apply andb_false_r.
  - cbn [line_starts_with_hash] in H. apply orb_false_iff in H as [H1 H2].
    cbn [search]. rewrite run_header_none.
    + apply IH. exact H2.
    + unfold at_line_start. simpl. destruct prefix; exact H1.
Qed.

(** *** A heading line at the start *)

Lemma space_is_not_hash c : Str.is_space c = true -> just "#"%char c = false.
Proof. destruct c as [[] [] [] [] [] [] [] []]; vm_compute; congruence. Qed.

Lemma dot_is_not_newline c : dot c = true -> just (ascii_of_nat 10) c = false.
Proof. destruct c as [[] [] [] [] [] [] [] []]; vm_compute; congruence. Qed.

Lemma dot_is_not_terminator c : dot c = true -> Str.is_line_terminator c = false.
Proof. unfold dot. now intros H%negb_true_iff. Qed.

Lemma run_heading_to (marks blanks text tl : list ascii) (e : state) :
  1 <= length marks <= 6 ->
  forallb (just "#"%char) marks = true ->
  blanks <> [] ->
  forallb Str.is_space blanks = true ->
  forallb dot text = true ->
  match text with c :: _ => Str.is_space c = false | [] => False end ->
  run headerRegex (Alt (Char (just (ascii_of_nat 10))) LineEnd)
    {| before := rev text ++ rev blanks ++ rev marks ++ []; rest := tl;
       captures := [(2, text); (1, marks)] |} Some = Some e ->
  run headerRegex (source headerRegex)
    {| before := []; rest := marks ++ blanks ++ text ++ tl; captures := [] |} Some
  = Some e.
Proof.
  intros Hlen Hmarks Hne Hblanks Htext Hfirst He.
  unfold headerRegex at 2. cbn [source].
  rewrite run_Seq, run_LineStart. cbn [at_line_start before].
  rewrite run_Seq, run_Group, run_Repeat.
  apply greedy_class.
  - exact Hmarks.
  - destruct blanks as [|c blanks]; [contradiction|]. simpl in Hblanks |- *.
    apply andb_true_iff in Hblanks as [Hc _]. now apply space_is_not_hash.
  - lia.
  - lia.
  - cbn [rest]. rewrite length_app. lia.
  - unfold capture at 1. cbn [before rest captures]. rewrite consumed_app.
    rewrite run_Seq, run_Repeat.
    apply greedy_class.
    + exact Hblanks.
    + destruct text as [|c text]; [contradiction|]. simpl. exact Hfirst.
    + exact I.
    + destruct blanks; [contradiction|]. simpl. lia.
    + cbn [rest]. rewrite length_app. lia.
    + rewrite run_Seq, run_Group, run_Repeat.
      apply lazy_class.
      * exact Htext.
      * intros pre1 c pre2 E. unfold capture at 1. cbn [before rest captures].
        assert (Hc : dot c = true).
        { rewrite E, forallb_app in Htext. simpl in Htext.
          apply andb_true_iff in Htext as [_ Htext].
          now apply andb_true_iff in Htext as [Htext _]. }
        rewrite run_Alt, run_Char, run_LineEnd. cbn [rest].
        change (in_class headerRegex (just (ascii_of_nat 10)) c)
          with (just (ascii_of_nat 10) c).
        rewrite (dot_is_not_newline _ Hc).
        unfold at_line_end. cbn [rest]. rewrite (dot_is_not_terminator _ Hc).
        reflexivity.
      * destruct text; [contradiction|]. simpl. lia.
      * cbn [rest]. rewrite length_app. lia.
      * unfold capture at 1. cbn [before rest captures].
        rewrite consumed_app. exact He.
Qed.

Lemma run_heading (marks blanks text : list ascii) (tail : option (list ascii)) :
  1 <= length marks <= 6 ->
  forallb (just "#"%char) marks = true ->
  blanks <> [] ->
  forallb Str.is_space blanks = true ->
  forallb dot text = true ->
  match text with c :: _ => Str.is_space c = false | [] => False end ->
  exists e,
    run headerRegex (source headerRegex)
      {| before := []; rest := marks ++ blanks ++ text ++ after_heading tail;
         captures := [] |} Some = Some e
    /\ rest e = default [] tail
    /\ List.find (fun g => fst g =? 2) (captures e) = Some (2, text).
Proof.
  intros Hlen Hmarks Hne Hblanks Htext Hfirst.
  destruct tail as [body|]; cbn [after_heading default];
    (eexists; split;
     [apply run_heading_to; try assumption; reflexivity | split; reflexivity]).
Qed.

Lemma starts_with_text_to_list s :
  starts_with_text s = true ->
  match Str.to_list s with c :: _ => Str.is_space c = false | [] => False end.
Proof. destruct s as [|c s]; simpl; [discriminate|]. now intros H%negb_true_iff. Qed.

Lemma starts_with_text_trim s : starts_with_text s = true -> Str.trim s <> "".
Proof.
  intros H E. apply Str.trim_empty_inv in E. destruct s as [|c s]; [discriminate|].
  unfold Str.all_space in E. simpl in E, H. apply andb_true_iff in E as [E _].
  now rewrite E in H.
Qed.

(** What [headerRegex] finds in a text that starts with a heading line. *)
Lemma exec_heading (marks blanks text : string) (tail : option string) :
  1 <= String.length marks <= 6 ->
  forallb (just "#"%char) (Str.to_list marks) = true ->
  blanks <> "" ->
  Str.all_space blanks = true ->
  forallb dot (Str.to_list text) = true ->
  starts_with_text text = true ->
  exists m,
    exec headerRegex
      (marks +:+ (blanks +:+ (text +:+ match tail with
                                       | Some body => JSON.nl +:+ body
                                       | None => ""
                                       end))) = Some m
    /\ preceding m = ""
    /\ following m = default "" tail
    /\ group 2 m = Some text.
Proof.
  intros Hlen Hmarks Hne Hblanks Htext Hfirst.
  destruct (run_heading (Str.to_list marks) (Str.to_list blanks) (Str.to_list text)
              (option_map Str.to_list tail)) as (e & He & Hrest & Hgroup);
    try assumption.
  - now rewrite length_to_list.
  - intros E. apply Hne. rewrite <- (Str.of_to_list blanks), E. reflexivity.
  - now apply starts_with_text_to_list.
  - unfold exec. rewrite !Str.to_list_app.
    replace (Str.to_list match tail with Some body => JSON.nl +:+ body | None => "" end)
      with (after_heading (option_map Str.to_list tail))
      by (now destruct tail).
    rewrite (search_here _ _ _ _ He). eexists. split; [reflexivity|].
    cbn [preceding following]. unfold group. cbn [groups]. rewrite Hgroup, Hrest.
    split; [reflexivity|]. split.
    + destruct tail as [body|]; simpl; [apply Str.of_to_list | reflexivity].
    + cbn [snd]. now rewrite Str.of_to_list.
Qed.

Lemma heading_extract (marks blanks text : string) (tail : option string) :
  1 <= String.length marks <= 6 ->
  forallb (just "#"%char) (Str.to_list marks) = true ->
  blanks <> "" ->
  Str.all_space blanks = true ->
  forallb dot (Str.to_list text) = true ->
  starts_with_text text = true ->
  extractFirstHeader
    (marks +:+ (blanks +:+ (text +:+ match tail with
                                     | Some body => JSON.nl +:+ body
                                     | None => ""
                                     end))) = Some (Str.trim text)
  /\ removeFirstHeader
       (marks +:+ (blanks +:+ (text +:+ match tail with
                                        | Some body => JSON.nl +:+ body
                                        | None => ""
                                        end))) = Str.trim (default "" tail).
Proof.
  intros Hlen Hmarks Hne Hblanks Htext Hfirst.
  destruct (exec_heading marks blanks text tail) as (m & Hm & Hp & Hf & Hg);
    try assumption.
  unfold extractFirstHeader, removeFirstHeader, remove_first. rewrite Hm, Hg, Hp, Hf.
  split; [|reflexivity].
  destruct text as [|c text]; [discriminate | reflexivity].
Qed.

(** X13.  A text that starts with a heading line: one to six [#], blanks, then a
    text on the same line.  The header is the trimmed text of that line,
    and what [removeFirstHeader] leaves is the trimmed rest of the text;
    so a Markdown file that starts like this becomes a section titled by
    its heading, whose one item holds the rest with the parameters
    substituted, those of the loader with those of the call laid over
    them. *)
Theorem heading_line_gives_title_and_body (marks blanks text body : string) :
  1 <= String.length marks <= 6 ->
  forallb (just "#"%char) (Str.to_list marks) = true ->
  blanks <> "" ->
  Str.all_space blanks = true ->
  forallb dot (Str.to_list text) = true ->
  starts_with_text text = true ->
  extractFirstHeader (marks +:+ (blanks +:+ (text +:+ (JSON.nl +:+ body))))
    = Some (Str.trim text)
  /\ removeFirstHeader (marks +:+ (blanks +:+ (text +:+ (JSON.nl +:+ body))))
     = Str.trim body
  /\ (forall world parameters options file,
        Str.endsWith file ".md" = true ->
        fileSection world (loadOptions parameters options) file
          (marks +:+ (blanks +:+ (text +:+ (JSON.nl +:+ body))))
        = mkSection (Str.trim text)
            [inl (substitute world
                    (spread parameters (default [] (opt_parameters options)))
                    (Str.trim body))]
            (Some (spread parameters (default [] (opt_parameters options)))))
  /\ extractFirstHeader (marks +:+ (blanks +:+ (text +:+ ""))) = Some (Str.trim text)
  /\ removeFirstHeader (marks +:+ (blanks +:+ (text +:+ ""))) = "".
Proof.
  intros Hlen Hmarks Hne Hblanks Htext Hfirst.
  destruct (heading_extract marks blanks text (Some body)) as [He Hr]; try assumption.
  destruct (heading_extract marks blanks text None) as [He' Hr']; try assumption.
  cbn [default] in Hr, Hr'.
  split; [exact He|]. split; [exact Hr|]. split; [|split; [exact He' | exact Hr']].
  intros world parameters options file Hmd.
  rewrite (fileSection_with_header world _ file _ (Str.trim text) Hmd He).
  - now rewrite Hr.
  - intros E. now apply starts_with_text_trim in E.
Qed.

Lemma heading_line_example :
  extractFirstHeader ("##" +:+ (" " +:+ ("Project Alpha  " +:+ (JSON.nl +:+ "Details."))))
    = Some (Str.trim "Project Alpha  ")
  /\ removeFirstHeader ("##" +:+ (" " +:+ ("Project Alpha  " +:+ (JSON.nl +:+ "Details."))))
     = Str.trim "Details."
  /\ (forall world parameters options file,
        Str.endsWith file ".md" = true ->
        fileSection world (loadOptions parameters options) file
          ("##" +:+ (" " +:+ ("Project Alpha  " +:+ (JSON.nl +:+ "Details."))))
        = mkSection (Str.trim "Project Alpha  ")
            [inl (substitute world
                    (spread parameters (default [] (opt_parameters options)))
                    (Str.trim "Details."))]
            (Some (spread parameters (default [] (opt_parameters options)))))
  /\ extractFirstHeader ("##" +:+ (" " +:+ ("Project Alpha  " +:+ "")))
     = Some (Str.trim "Project Alpha  ")
  /\ removeFirstHeader ("##" +:+ (" " +:+ ("Project Alpha  " +:+ ""))) = "".
Proof.
  apply (heading_line_gives_title_and_body "##" " " "Project Alpha  " "Details.").
  - simpl. lia.
  - reflexivity.
  - discriminate.
  - reflexivity.
  - reflexivity.
  - reflexivity.
Defined.

(** X14.  A text none of whose lines starts with [#] has no header, and
    [removeFirstHeader] returns it as it is: a file with such a content
    becomes a section titled by the file name, whose one item holds the
    whole content with the parameters substituted, those of the loader
    with those of the call laid over them. *)
Theorem text_without_heading_mark_is_kept (markdownText : string) :
  line_starts_with_hash true (Str.to_list markdownText) = false ->
  extractFirstHeader markdownText = None
  /\ removeFirstHeader markdownText = markdownText
  /\ forall world parameters options file,
       fileSection world (loadOptions parameters options) file markdownText
       = mkSection file
           [inl (substitute world
                   (spread parameters (default [] (opt_parameters options)))
                   markdownText)]
           (Some (spread parameters (default [] (opt_parameters options)))).
Proof.
  intros H.
  assert (He : exec headerRegex markdownText = None).
  { unfold exec. now rewrite (search_header_none _ [] H). }
  assert (Hx : extractFirstHeader markdownText = None).
  { unfold extractFirstHeader. now rewrite He. }
  split; [exact Hx|]. split.
  - unfold removeFirstHeader. now rewrite He.
  - intros world parameters options file.
    now rewrite (fileSection_without_header world _ file _ (or_intror (or_introl Hx))).
Qed.

Lemma text_without_heading_mark_example :
  extractFirstHeader ("Issue #12 is open." +:+ JSON.nl +:+ "See the notes.") = None
  /\ removeFirstHeader ("Issue #12 is open." +:+ JSON.nl +:+ "See the notes.")
     = "Issue #12 is open." +:+ JSON.nl +:+ "See the notes."
  /\ forall world parameters options file,
       fileSection world (loadOptions parameters options) file
         ("Issue #12 is open." +:+ JSON.nl +:+ "See the notes.")
       = mkSection file
           [inl (substitute world
                   (spread parameters (default [] (opt_parameters options)))
                   ("Issue #12 is open." +:+ JSON.nl +:+ "See the notes."))]
           (Some (spread parameters (default [] (opt_parameters options)))).
Proof.
  apply (text_without_heading_mark_is_kept
           ("Issue #12 is open." +:+ JSON.nl +:+ "See the notes.")).
  reflexivity.
Defined.

(** *** What [removeFirstHeader] removes *)

Lemma header_match_starts st e :
  run headerRegex (source headerRegex) st Some = Some e ->
  at_line_start headerRegex st = true
  /\ exists cs,
       rest st = "#"%char :: cs
       /\ reached_from (fun _ => True) (advance "#"%char cs st) e.
Proof.
  unfold headerRegex at 2. cbn [source].
  rewrite run_Seq, run_LineStart.
  destruct (at_line_start headerRegex st); [|discriminate].
  rewrite run_Seq, run_Group, run_Repeat.
  cbn [repeat_loop Nat.add Nat.leb Nat.ltb].
  rewrite run_Char. destruct (rest st) as [|c cs] eqn:Er; [discriminate|].
  change (in_class headerRegex (just "#") c) with (Ascii.eqb c "#").
  destruct (Ascii.eqb_spec c "#") as [->|]; [|discriminate].
  rewrite orb_true_r. intros H. split; [reflexivity|]. exists cs. split; [reflexivity|].
  match type of H with
  | match ?l with Some e0 => Some e0 | None => None end = _ =>
      assert (Hl : l = Some e) by (destruct l; congruence)
  end.
  clear H.
  apply (loop_invariant headerRegex
           (reached_from (fun _ => True) (advance "#" cs st))) in Hl.
  - destruct Hl as (st' & HP & Hk).
    destruct (run_invariant headerRegex (fun _ => True)
                (reached_from (fun _ => True) (advance "#" cs st))
                (reached_from_advance _ _) (reached_from_capture _ _)
                _ (takes_anything _ _) _ _ _
                (reached_from_capture _ _ 1 st _ HP) Hk) as (st'' & HP' & [= <-]).
    exact HP'.
  - intros st0 k' HP0 H0.
    exact (run_invariant headerRegex (fun _ => True)
             (reached_from (fun _ => True) (advance "#" cs st))
             (reached_from_advance _ _) (reached_from_capture _ _)
             (Char (just "#"%char)) (takes_anything _ _) st0 k' e HP0 H0).
  - apply reached_from_refl.
Qed.

(** X15.  [removeFirstHeader] returns the text as it is, or cuts one piece out
    of it and trims what is left: the piece starts with a [#] that starts
    a line of the text.  Nothing else of the text is changed. *)
Theorem removeFirstHeader_cuts_one_piece (markdownText : string) :
  (extractFirstHeader markdownText = None
   /\ removeFirstHeader markdownText = markdownText)
  \/ exists before piece after,
       markdownText = before +:+ ("#" +:+ piece) +:+ after
       /\ ends_a_line before = true
       /\ removeFirstHeader markdownText = Str.trim (before +:+ after).
Proof.
  destruct (exec headerRegex markdownText) as [m|] eqn:Em.
  - right. destruct (exec_splits _ _ _ Em) as (Hs & from & to & Hsearch & Hp & Hm).
    destruct (search_found _ _ _ _ _ Hsearch) as (skipped & _ & Hb & Hr).
    destruct (header_match_starts _ _ Hr) as (Hstart & cs & Hcs & taken & Hb' & Hr' & _).
    unfold advance in Hb', Hr'. cbn [before rest] in Hb', Hr'.
    assert (Hc : matched m = "#" +:+ Str.of_list taken).
    { unfold exec in Em. rewrite Hsearch in Em. injection Em as <-. cbn [matched].
      unfold consumed.
      replace (before to) with (rev ("#"%char :: taken) ++ before from)
        by (rewrite Hb'; simpl; now rewrite <- app_assoc).
      rewrite length_app.
      replace (length (rev ("#"%char :: taken)) + length (before from)
               - length (before from))
        with (length (rev ("#"%char :: taken)) + 0) by lia.
      rewrite firstn_app_2. simpl firstn. rewrite app_nil_r, rev_involutive.
      reflexivity. }
    exists (preceding m), (Str.of_list taken), (following m).
    split; [now rewrite <- Hc|]. split.
    + unfold ends_a_line. rewrite Hp, Str.to_of_list, rev_involutive.
      unfold at_line_start in Hstart. destruct (before from); [reflexivity|exact Hstart].
    + unfold removeFirstHeader, remove_first. now rewrite Em.
  - left. unfold extractFirstHeader, removeFirstHeader. now rewrite Em.
Qed.

(** *** The header is one trimmed line *)

Lemma drop_space_In c cs : In c (Str.drop_space cs) -> In c cs.
Proof.
  induction cs as [|x cs IH]; simpl; [tauto|].
  destruct (Str.is_space x); [right; now apply IH | tauto].
Qed.

Lemma drop_space_split cs :
  exists pre, cs = pre ++ Str.drop_space cs /\ forallb Str.is_space pre = true.
Proof.
  induction cs as [|x cs IH]; simpl.
  - now exists [].
  - destruct (Str.is_space x) eqn:E.
    + destruct IH as (pre & H1 & H2). exists (x :: pre). simpl.
      rewrite E, H2. split; [now rewrite <- H1 | reflexivity].
    + now exists [].
Qed.

Lemma drop_space_head cs :
  match Str.drop_space cs with c :: _ => Str.is_space c = false | [] => True end.
Proof.
  induction cs as [|x cs IH]; simpl; [exact I|].
  destruct (Str.is_space x) eqn:E; [exact IH | exact E].
Qed.

Lemma drop_space_fixed cs :
  match cs with c :: _ => Str.is_space c = false | [] => True end ->
  Str.drop_space cs = cs.
Proof. destruct cs as [|c cs]; simpl; [reflexivity|]. now intros ->. Qed.

Lemma trim_In c s : In c (Str.to_list (Str.trim s)) -> In c (Str.to_list s).
Proof.
  unfold Str.trim. rewrite Str.to_of_list. intros H.
  apply in_rev, drop_space_In in H. apply in_rev in H. now apply drop_space_In.
Qed.

Lemma trim_idempotent s : Str.trim (Str.trim s) = Str.trim s.
Proof.
  unfold Str.trim. rewrite Str.to_of_list.
  set (a := Str.drop_space (Str.to_list s)).
  set (b := Str.drop_space (rev a)).
  assert (Hb : Str.drop_space b = b) by (apply drop_space_fixed, drop_space_head).
  assert (Ha : Str.drop_space (rev b) = rev b).
  { apply drop_space_fixed.
    destruct (drop_space_split (rev a)) as (pre & H1 & _). fold b in H1.
    apply (f_equal (@rev ascii)) in H1. rewrite rev_involutive, rev_app_distr in H1.
    destruct (rev b) as [|c r]; [exact I|].
    pose proof (drop_space_head (Str.to_list s)) as Hh. fold a in Hh.
    rewrite H1 in Hh. exact Hh. }
  now rewrite Ha, rev_involutive, Hb.
Qed.

(** What the second group of [headerRegex] holds after a match. *)
Lemma header_match_group st e :
  run headerRegex (source headerRegex) st Some = Some e ->
  exists taken,
    List.find (fun g => fst g =? 2) (captures e) = Some (2, taken)
    /\ Forall (fun c => dot c = true) taken.
Proof.
  unfold headerRegex at 2. cbn [source].
  rewrite run_Seq, run_LineStart.
  destruct (at_line_start headerRegex st); [|discriminate].
  rewrite run_Seq. intros H.
  apply (run_invariant headerRegex (fun _ => True) (fun _ => True)) in H;
    [|auto|auto|apply takes_anything|exact I].
  destruct H as (st1 & _ & H). rewrite run_Seq in H.
  apply (run_invariant headerRegex (fun _ => True) (fun _ => True)) in H;
    [|auto|auto|apply takes_anything|exact I].
  destruct H as (st2 & _ & H). rewrite run_Seq, run_Group in H.
  apply (run_invariant headerRegex (fun c => dot c = true)
           (reached_from (fun c => dot c = true) st2)) in H;
    [|apply reached_from_advance|apply reached_from_capture
     |intros c Hc; exact Hc|apply reached_from_refl].
  destruct H as (st3 & (taken & Hb & Hr & Hd) & H).
  exists taken. split; [|exact Hd].
  assert (Hc : captures e = (2, taken) :: captures st3).
  { rewrite run_Alt, run_Char, run_LineEnd in H. unfold capture in H.
    cbn [rest before captures] in H.
    rewrite (consumed_reached _ _ _ _ Hb Hr Hd) in H.
    destruct (rest st3) as [|c cs].
    - destruct (at_line_end headerRegex _); [|discriminate]. now injection H as <-.
    - destruct (in_class headerRegex (just (ascii_of_nat 10)) c).
      + now injection H as <-.
      + destruct (at_line_end headerRegex _); [|discriminate]. now injection H as <-. }
  rewrite Hc. reflexivity.
Qed.

(** X16.  A header is one line, trimmed: it holds no line break, and it neither
    starts nor ends with a blank. *)
Theorem header_is_one_trimmed_line (markdownText header : string) :
  extractFirstHeader markdownText = Some header ->
  forallb dot (Str.to_list header) = true /\ Str.trim header = header.
Proof.
  unfold extractFirstHeader, exec.
  destruct (search headerRegex [] (Str.to_list markdownText)) as [[from to]|] eqn:Es;
    [|discriminate].
  destruct (search_found _ _ _ _ _ Es) as (skipped & _ & _ & Hr).
  destruct (header_match_group _ _ Hr) as (taken & Hg & Hd).
  unfold group. cbn [groups]. rewrite Hg. cbn [snd].
  destruct (String.eqb (Str.of_list taken) ""); [discriminate|].
  intros [= <-]. split; [|apply trim_idempotent].
  apply forallb_forall. intros c Hc. apply trim_In in Hc.
  rewrite Str.to_of_list in Hc. exact (proj1 (List.Forall_forall _ _) Hd c Hc).
Qed.

Lemma header_of_second_line :
  forallb dot (Str.to_list "Title") = true /\ Str.trim "Title" = "Title".
Proof.
  apply (header_is_one_trimmed_line
           ("intro" +:+ JSON.nl +:+ "##  Title  " +:+ JSON.nl +:+ "body") "Title").
  vm_compute. reflexivity.
Defined.

End Headings.

(** ** The section of a directory *)

Module Directories.
Import Regex Loader.

(** The sample world with every listed entry taken for a file, so that
    reading the sub-directory [sub] of [/ctx] fails. *)
Definition careless_world : World :=
  {| safe_create := safe_create sample_world;
     safe_globToRegex := safe_globToRegex sample_world;
     path_join := path_join sample_world;
     path_basename := path_basename sample_world;
     storage_exists := storage_exists sample_world;
     storage_readFile := storage_readFile sample_world;
     storage_listFiles := storage_listFiles sample_world;
     storage_isFile := fun _ => Ok true;
     createSafeError := createSafeError sample_world;
     substitute := substitute sample_world |}.

(** Whatever the section so far, a file that cannot be told from a
    directory, or that is a file and cannot be read, breaks the loop. *)
Lemma fold_addFile_throws world sectionOptions contextDir file files :
  In file files ->
  file <> "context.md" ->
  (exists e, storage_isFile world (path_join world contextDir file) = Throw e)
  \/ (storage_isFile world (path_join world contextDir file) = Ok true
      /\ exists e, storage_readFile world (path_join world contextDir file) = Throw e) ->
  forall mainContextSection,
  exists e,
    fst (fold_M (addFile world sectionOptions contextDir) files mainContextSection)
    = Throw e.
Proof.
  intros Hin Hne Hbad. induction files as [|f files IH]; [destruct Hin|].
  intros main. cbn [fold_M]. rewrite fst_bind.
  destruct (fst (addFile world sectionOptions contextDir main f)) as [main'|e] eqn:Ef;
    [|now exists e].
  destruct Hin as [->|Hin]; [|now apply IH].
  exfalso. rewrite fst_addFile in Ef.
  destruct (String.eqb_spec file "context.md"); [contradiction|].
  destruct Hbad as [[e He]|[Hf [e He]]].
  - rewrite He in Ef. discriminate.
  - rewrite Hf, He in Ef. discriminate.
Qed.

(** X17.  The section of a directory that is processed without failure has the
    title and the text that [context.md] gives it, and the files add
    sub-sections only, after the text: with a [context.md] that has a
    heading with text, the title is that heading and the text is the
    content without it; with a [context.md] without one, the title is the
    directory's base name and the text is the whole content; without
    [context.md], the title is the base name and there is no text.  The
    text is held with the parameters substituted, those of the loader with
    those of the call laid over them, which are also the parameters of
    the section. *)
Theorem directory_section_title_and_text (world : World) (patterns : list string)
    (parameters : Parameters) (options : SectionOptions)
    (contextDir : string) (S : Section) :
  fst (processDirectory world patterns (loadOptions parameters options) contextDir)
    = Ok S ->
  items S = map inl (texts S) ++ map inr (subsections S)
  /\ Loader.parameters S
     = Some (spread parameters (default [] (opt_parameters options)))
  /\ match storage_exists world (path_join world contextDir "context.md") with
     | Ok true =>
         exists mainContextContent,
           storage_readFile world (path_join world contextDir "context.md")
             = Ok mainContextContent
           /\ match extractFirstHeader mainContextContent with
              | Some firstHeader =>
                  if String.eqb firstHeader ""
                  then title S = path_basename world contextDir
                       /\ texts S
                          = [substitute world
                               (spread parameters (default [] (opt_parameters options)))
                               mainContextContent]
                  else title S = firstHeader
                       /\ texts S
                          = [substitute world
                               (spread parameters (default [] (opt_parameters options)))
                               (removeFirstHeader mainContextContent)]
              | None =>
                  title S = path_basename world contextDir
                  /\ texts S
                     = [substitute world
                          (spread parameters (default [] (opt_parameters options)))
                          mainContextContent]
              end
     | Ok false => title S = path_basename world contextDir /\ texts S = []
     | Throw _ => False
     end.
Proof.
  intros HS. rewrite fst_processDirectory in HS.
  destruct (fst (mainSection world (loadOptions parameters options) contextDir
                   (path_basename world contextDir)))
    as [main|e] eqn:Em; [|discriminate].
  destruct (storage_listFiles world contextDir) as [files|e]; [|discriminate].
  destruct (fst_fold_addFile _ _ _ _ _ _ HS) as (Ht & Hp & Hi).
  pose proof (texts_app_sections _ _ _ Hi) as Htx.
  pose proof (subsections_items _ _ _ Hi) as Hsub.
  rewrite (mainSection_subsections _ _ _ _ _ Em) in Hsub. simpl in Hsub.
  rewrite fst_mainSection in Em.
  destruct (storage_exists world (path_join world contextDir "context.md")) as [[|]|e];
    [| |discriminate].
  - destruct (storage_readFile world (path_join world contextDir "context.md")) as [c|e];
      [|discriminate].
    injection Em as <-.
    assert (Hitems : items S = map inl (texts S) ++ map inr (subsections S)).
    { rewrite Hi, Htx, Hsub.
      destruct (extractFirstHeader c) as [h|]; [destruct (String.eqb h "")|];
        reflexivity. }
    split; [exact Hitems|]. split.
    { rewrite Hp.
      destruct (extractFirstHeader c) as [h|]; [destruct (String.eqb h "")|];
        reflexivity. }
    exists c. split; [reflexivity|].
    rewrite Ht, Htx.
    destruct (extractFirstHeader c) as [h|]; [destruct (String.eqb h "")|];
      split; reflexivity.
  - injection Em as <-. rewrite Hi, Htx, Hsub, Ht, Hp. repeat split.
Qed.

Lemma directory_section_of_sample :
  items (mkSection "Context"
           [inl "Shared facts.";
            inr (mkSection "Title" [inl ("intro" +:+ JSON.nl +:+ "body")] (Some []));
            inr (mkSection "Project Alpha" [inl "Details."] (Some []));
            inr (mkSection "a.txt" [inl "# plain"] (Some []))]
           (Some []))
  = map inl (texts (mkSection "Context"
           [inl "Shared facts.";
            inr (mkSection "Title" [inl ("intro" +:+ JSON.nl +:+ "body")] (Some []));
            inr (mkSection "Project Alpha" [inl "Details."] (Some []));
            inr (mkSection "a.txt" [inl "# plain"] (Some []))]
           (Some [])))
    ++ map inr (subsections (mkSection "Context"
           [inl "Shared facts.";
            inr (mkSection "Title" [inl ("intro" +:+ JSON.nl +:+ "body")] (Some []));
            inr (mkSection "Project Alpha" [inl "Details."] (Some []));
            inr (mkSection "a.txt" [inl "# plain"] (Some []))]
           (Some []))).
Proof.
  apply (directory_section_title_and_text sample_world DEFAULT_IGNORE_PATTERNS
           [] no_options "/ctx").
  vm_compute. reflexivity.
Defined.

(** X18.  One listed file that the patterns keep and that cannot be read, or
    cannot be told from a directory, loses the whole directory: no section
    is returned for it, not even for the files read before. *)
Theorem unreadable_file_loses_directory (world : World) (patterns : list string)
    (parameters : Parameters) (options : SectionOptions)
    (contextDir : string) (files : list string) (file : string) :
  storage_listFiles world contextDir = Ok files ->
  In file files ->
  kept world (compiledPatterns world patterns) contextDir file = true ->
  file <> "context.md" ->
  (exists e, storage_isFile world (path_join world contextDir file) = Throw e)
  \/ (storage_isFile world (path_join world contextDir file) = Ok true
      /\ exists e, storage_readFile world (path_join world contextDir file) = Throw e) ->
  succeeded world patterns (loadOptions parameters options) contextDir = None
  /\ fst (load world patterns parameters [contextDir] options) = [].
Proof.
  intros Hl Hin Hk Hne Hbad.
  assert (Hs : succeeded world patterns (loadOptions parameters options) contextDir
               = None).
  { unfold succeeded. rewrite fst_processDirectory.
    destruct (fst (mainSection world (loadOptions parameters options) contextDir
                     (path_basename world contextDir)))
      as [main|e]; [|reflexivity].
    rewrite Hl.
    destruct (fold_addFile_throws world (loadOptions parameters options) contextDir file
                (List.filter (kept world (compiledPatterns world patterns) contextDir)
                             files)) with (mainContextSection := main) as [e He];
      try assumption.
    - apply filter_In. now split.
    - now rewrite He. }
  split; [exact Hs|]. rewrite fst_load. cbn [omap list_omap]. now rewrite Hs.
Qed.

Lemma unreadable_entry_loses_sample_directory :
  succeeded careless_world DEFAULT_IGNORE_PATTERNS (loadOptions [] no_options) "/ctx"
    = None
  /\ fst (load careless_world DEFAULT_IGNORE_PATTERNS [] ["/ctx"] no_options) = [].
Proof.
  apply (unreadable_file_loses_directory careless_world DEFAULT_IGNORE_PATTERNS
           [] no_options "/ctx"
           ["context.md"; "notes.md"; "alpha.md"; "a.txt"; "PHOTO.JPG"; "sub"] "sub").
  - reflexivity.
  - simpl. tauto.
  - vm_compute. reflexivity.
  - discriminate.
  - right. split; [reflexivity|]. eexists. vm_compute. reflexivity.
Defined.

Lemma length_omap {A B} (f : A -> option B) (xs : list A) :
  length (omap f xs) <= length xs.
Proof.
  induction xs as [|x xs IH]; [reflexivity|].
  cbn [omap list_omap length]. fold (omap f xs).
  destruct (f x); cbn [length]; lia.
Qed.

(** X19.  [load] treats each directory on its own: the sections of a list of
    directories are those of its front part followed by those of its back
    part, and there is at most one section for each directory. *)
Theorem load_of_a_list_is_load_of_its_parts (world : World) (patterns : list string)
    (parameters : Parameters) (options : SectionOptions)
    (front back : list string) :
  fst (load world patterns parameters (front ++ back) options)
  = fst (load world patterns parameters front options)
    ++ fst (load world patterns parameters back options)
  /\ length (fst (load world patterns parameters (front ++ back) options))
     <= length (front ++ back).
Proof.
  rewrite !fst_load. split; [apply omap_app | apply length_omap].
Qed.

End Directories.

(** ** The command line: a prompt from a directory *)

Module Cli.
Import Loader.

(** Modelled from the spec: [createPrompt] and [createInstruction]
    ([riotprompt.ts] is not under [src/]).  A prompt holds an optional
    persona section, an instructions section and an optional context
    section; an instruction made of a text is that text as an item. *)
Record Prompt : Type := {
  persona : option Section;
  instructions : Section;
  contexts : option Section
}.

(** Node's [fs/promises], as far as [cli.ts] uses it here: [stat]
    answers whether the path is a directory. *)
Record Fs : Type := {
  fs_stat : string -> outcome bool;
  fs_access : string -> outcome unit;
  fs_readFile : string -> outcome string
}.

(** A computation that writes lines to the console and may throw. *)
Definition M (A : Type) : Type := outcome A * list string.

Definition ret {A} (a : A) : M A := (Ok a, []).

Definition throw {A} (e : Error) : M A := (Throw e, []).

Definition bind {A B} (m : M A) (k : A -> M B) : M B :=
  match m with
  | (Ok a, l1) => let '(r, l2) := k a in (r, l1 ++ l2)
  | (Throw e, l1) => (Throw e, l1)
  end.

#[warnings="-notation-overridden"] Notation "'do' x <~ m ; k" := (bind m (fun x => k))
  (at level 20, x name, m at level 100, k at level 200).

Definition console_log (line : string) : M unit := (Ok tt, [line]).

Definition await {A} (r : outcome A) : M A := (r, []).

Section LoadPrompt.
Variable world : World.
Variable fs : Fs.

(** [isDirectory] (cli.ts, lines 27-34). *)
Definition isDirectory (path : string) : bool :=
  match fs_stat fs path with
  | Ok stat => stat
  | Throw _ => false
  end.

(** [fileExists] (cli.ts, lines 36-43). *)
Definition fileExists (path : string) : bool :=
  match fs_access fs path with
  | Ok _ => true
  | Throw _ => false
  end.

(** [loader.load] of the loader made by [Loader.create()], which has the
    default ignore patterns and no parameters, called without options. *)
Definition loader_load (contextDirectories : list string) : list Section :=
  fst (load world DEFAULT_IGNORE_PATTERNS [] contextDirectories no_options).

(** [createSection({ title })] with each of the sections added. *)
Definition gathered (title : string) (sections : list Section) : Section :=
  fold_left (fun section s => add (substitute world) (made (inr s)) no_options section)
            sections (createSection title no_options).

(** [createSection({ title })] with [createInstruction(content)] added: an
    instruction made beforehand is added as it is. *)
Definition single (title content : string) : Section :=
  add (substitute world) (made (inl content)) no_options
      (createSection title no_options).

Definition required : Error :=
  {| message := "instructions (directory or .md file) is required." |}.

(** [loadPromptFromDirectory] (cli.ts, lines 45-120). *)
Definition loadPromptFromDirectory (absolutePromptPath : string) : M Prompt :=
  let personaDir := path_join world absolutePromptPath "persona" in
  let personaFile := path_join world absolutePromptPath "persona.md" in
  do personaSection <~
    (if isDirectory personaDir then
       do _ <~ console_log "Loading persona from directory..." ;
       let personaSections := loader_load [personaDir] in
       if 0 <? length personaSections
       then ret (Some (gathered "Persona" personaSections))
       else ret None
     else if fileExists personaFile then
       do _ <~ console_log "Loading persona from file..." ;
       do personaContent <~ await (fs_readFile fs personaFile) ;
       ret (Some (single "Persona" personaContent))
     else
       do _ <~ console_log "No persona found, skipping." ;
       ret None) ;
  let instructionsDir := path_join world absolutePromptPath "instructions" in
  let instructionsFile := path_join world absolutePromptPath "instructions.md" in
  do instructionsSection <~
    (if isDirectory instructionsDir then
       do _ <~ console_log "Loading instructions from directory..." ;
       let instructionSections := loader_load [instructionsDir] in
       if 0 <? length instructionSections
       then ret (Some (gathered "Instructions" instructionSections))
       else ret None
     else if fileExists instructionsFile then
       do _ <~ console_log "Loading instructions from file..." ;
       do instructionsContent <~ await (fs_readFile fs instructionsFile) ;
       ret (Some (single "Instructions" instructionsContent))
     else ret None) ;
  match instructionsSection with
  | None => throw required
  | Some instructionsSection =>
      let contextDir := path_join world absolutePromptPath "context" in
      do contextSection <~
        (if isDirectory contextDir then
           do _ <~ console_log "Loading context from directory..." ;
           let contextSections := loader_load [contextDir] in
           if 0 <? length contextSections
           then ret (Some (gathered "Context" contextSections))
           else ret None
         else
           do _ <~ console_log "No context directory found, skipping context." ;
           ret None) ;
      ret {| persona := personaSection;
             instructions := instructionsSection;
             contexts := contextSection |}
  end.

End LoadPrompt.

(** A prompt directory whose [instructions] is a directory that cannot be
    listed, beside an [instructions.md] that can be read. *)
Definition broken_instructions : Fs :=
  {| fs_stat := fun path =>
       if String.eqb path "/prompt/instructions" then Ok true
       else Throw {| message := "ENOENT: no such file or directory, stat " +:+ path |};
     fs_access := fun path =>
       if String.eqb path "/prompt/instructions.md" then Ok tt
       else Throw {| message := "ENOENT: no such file or directory, access " +:+ path |};
     fs_readFile := fun path =>
       if String.eqb path "/prompt/instructions.md" then Ok "Answer briefly."
       else Throw {| message := "ENOENT: no such file or directory, open " +:+ path |} |}.

Lemma fst_bind_console {A B} (m : M A) (k : A -> M B) :
  fst (bind m k) = match fst m with Ok a => fst (k a) | Throw e => Throw e end.
Proof. destruct m as [[a|e] l]; simpl; [now destruct (k a) | reflexivity]. Qed.

Lemma gathered_items world title sections :
  gathered world title sections = mkSection title (map inr sections) None.
Proof.
  unfold gathered, createSection. cbn [opt_parameters no_options].
  assert (H : forall items0,
             fold_left (fun section s =>
                          add (substitute world) (made (inr s)) no_options section)
                       sections (mkSection title items0 None)
             = mkSection title (items0 ++ map inr sections) None).
  { induction sections as [|s sections IH]; intros items0; cbn [fold_left map].
    - now rewrite app_nil_r.
    - change (add (substitute world) (made (inr s)) no_options
                  (mkSection title items0 None))
        with (mkSection title (items0 ++ [inr s]) None).
      rewrite IH. now rewrite <- app_assoc. }
  apply H.
Qed.

(** X20.  An [instructions] directory takes precedence over [instructions.md],
    which is then not looked at: when loading the directory gives
    sections, the instructions of the prompt are the section
    [Instructions] holding them, in order; when it gives none, the call
    fails for want of instructions, whether or not [instructions.md]
    exists.  The only other failure is that of reading a [persona.md] that
    exists beside no [persona] directory. *)
Theorem instructions_directory_takes_precedence (world : World) (fs : Fs)
    (absolutePromptPath : string) :
  isDirectory fs (path_join world absolutePromptPath "instructions") = true ->
  match fst (loadPromptFromDirectory world fs absolutePromptPath) with
  | Ok prompt =>
      loader_load world [path_join world absolutePromptPath "instructions"] <> []
      /\ instructions prompt
         = mkSection "Instructions"
             (map inr (loader_load world
                         [path_join world absolutePromptPath "instructions"]))
             None
  | Throw e =>
      (loader_load world [path_join world absolutePromptPath "instructions"] = []
       /\ e = required)
      \/ (isDirectory fs (path_join world absolutePromptPath "persona") = false
          /\ fileExists fs (path_join world absolutePromptPath "persona.md") = true
          /\ fs_readFile fs (path_join world absolutePromptPath "persona.md") = Throw e)
  end.
Proof.
  intros Hdir. unfold loadPromptFromDirectory. rewrite fst_bind_console.
  set (personaPart := if isDirectory fs (path_join world absolutePromptPath "persona")
                      then _ else _).
  assert (Hp : match fst personaPart with
               | Ok _ => True
               | Throw e =>
                   isDirectory fs (path_join world absolutePromptPath "persona") = false
                   /\ fileExists fs (path_join world absolutePromptPath "persona.md")
                      = true
                   /\ fs_readFile fs (path_join world absolutePromptPath "persona.md")
                      = Throw e
               end).
  { subst personaPart.
    destruct (isDirectory fs (path_join world absolutePromptPath "persona")).
    - rewrite fst_bind_console. cbn [console_log fst].
      now destruct (0 <? length (loader_load world
                                   [path_join world absolutePromptPath "persona"])).
    - destruct (fileExists fs (path_join world absolutePromptPath "persona.md")).
      + rewrite fst_bind_console. cbn [console_log fst]. rewrite fst_bind_console. cbn [await fst].
        now destruct (fs_readFile fs (path_join world absolutePromptPath "persona.md")).
      + exact I. }
  clearbody personaPart.
  destruct (fst personaPart) as [personaSection|e]; [|now right].
  rewrite fst_bind_console, Hdir, fst_bind_console. cbn [console_log fst].
  destruct (loader_load world [path_join world absolutePromptPath "instructions"])
    as [|s sections] eqn:El.
  - cbn [length Nat.ltb Nat.leb ret fst throw]. left. now split.
  - cbn [length Nat.ltb Nat.leb ret fst]. rewrite fst_bind_console.
    set (contextPart := if isDirectory fs (path_join world absolutePromptPath "context")
                        then _ else _).
    assert (Hc : exists c, fst contextPart = Ok c).
    { subst contextPart.
      destruct (isDirectory fs (path_join world absolutePromptPath "context")).
      - rewrite fst_bind_console. cbn [console_log fst].
        destruct (length (loader_load world
                            [path_join world absolutePromptPath "context"]));
          eexists; reflexivity.
      - eexists. reflexivity. }
    destruct Hc as [c ->]. cbn [ret fst instructions].
    split; [discriminate | apply gathered_items].
Qed.

Lemma broken_instructions_directory_fails :
  fst (loadPromptFromDirectory sample_world broken_instructions "/prompt")
  = Throw required.
Proof.
  pose proof (instructions_directory_takes_precedence sample_world broken_instructions
                "/prompt" eq_refl) as H.
  destruct (fst (loadPromptFromDirectory sample_world broken_instructions "/prompt"))
    as [prompt|e] eqn:E.
  - exfalso. destruct H as [H _]. apply H. vm_compute. reflexivity.
  - destruct H as [[_ ->]|H]; [reflexivity|].
    exfalso. destruct H as (_ & H & _). discriminate H.
Defined.

End Cli.

(** ** Secure logging configuration *)

Module LoggingConfig.

(** [SecureLoggingOptions] (logging-config.ts, lines 21-40): every field
    is optional. *)
Record SecureLoggingOptions : Type := {
  opt_enabled : option bool;
  opt_maskApiKeys : option bool;
  opt_maskPasswords : option bool;
  opt_maskEmails : option bool;
  opt_maskSSNs : option bool;
  opt_maskPrivateKeys : option bool;
  opt_maskJWTs : option bool;
  opt_maskBase64Blobs : option bool;
  opt_maxDepth : option Z
}.

(** The [MaskingConfig] of the logging package, as the file fills it. *)
Record MaskingConfig : Type := {
  enabled : bool;
  maskApiKeys : bool;
  maskPasswords : bool;
  maskEmails : bool;
  maskSSNs : bool;
  maskPrivateKeys : bool;
  maskJWTs : bool;
  maskBase64Blobs : bool;
  maskBearerTokens : bool;
  maskGenericSecrets : bool;
  maxDepth : Z
}.

(** [a ?? d] *)
Definition nullish {A} (a : option A) (d : A) : A :=
  match a with
  | Some v => v
  | None => d
  end.

(** [configureSecureLogging] (logging-config.ts, lines 54-70), given
    [process.env.NODE_ENV]. *)
Definition configureSecureLogging (NODE_ENV : option string)
    (options : SecureLoggingOptions) : MaskingConfig :=
  let isProduction :=
    match NODE_ENV with
    | Some v => String.eqb v "production"
    | None => false
    end in
  {| enabled := nullish (opt_enabled options) isProduction;
     maskApiKeys := nullish (opt_maskApiKeys options) true;
     maskPasswords := nullish (opt_maskPasswords options) true;
     maskEmails := nullish (opt_maskEmails options) true;
     maskSSNs := nullish (opt_maskSSNs options) true;
     maskPrivateKeys := nullish (opt_maskPrivateKeys options) true;
     maskJWTs := nullish (opt_maskJWTs options) true;
     maskBase64Blobs := nullish (opt_maskBase64Blobs options) true;
     maskBearerTokens := true;
     maskGenericSecrets := true;
     maxDepth := nullish (opt_maxDepth options) 8%Z |}.

(** [DEFAULT_MASKING_CONFIG] (lines 75-87). *)
Definition DEFAULT_MASKING_CONFIG : MaskingConfig :=
  {| enabled := true;
     maskApiKeys := true;
     maskPasswords := true;
     maskEmails := true;
     maskSSNs := true;
     maskPrivateKeys := true;
     maskJWTs := true;
     maskBase64Blobs := true;
     maskBearerTokens := true;
     maskGenericSecrets := true;
     maxDepth := 8%Z |}.

(** [DEVELOPMENT_MASKING_CONFIG] (lines 92-104). *)
Definition DEVELOPMENT_MASKING_CONFIG : MaskingConfig :=
  {| enabled := false;
     maskApiKeys := false;
     maskPasswords := false;
     maskEmails := false;
     maskSSNs := false;
     maskPrivateKeys := false;
     maskJWTs := false;
     maskBase64Blobs := false;
     maskBearerTokens := false;
     maskGenericSecrets := false;
     maxDepth := 8%Z |}.

(** [maskSensitive] (lines 119-121), given the package's [maskWithConfig]. *)
Definition maskSensitive (maskWithConfig : string -> MaskingConfig -> string)
    (content : string) (config : option MaskingConfig) : string :=
  maskWithConfig content (nullish config DEFAULT_MASKING_CONFIG).

(** The options of a call without argument. *)
Definition no_options : SecureLoggingOptions :=
  {| opt_enabled := None;
     opt_maskApiKeys := None;
     opt_maskPasswords := None;
     opt_maskEmails := None;
     opt_maskSSNs := None;
     opt_maskPrivateKeys := None;
     opt_maskJWTs := None;
     opt_maskBase64Blobs := None;
     opt_maxDepth := None |}.

(** X21.  Whatever the options and the environment, [configureSecureLogging]
    keeps the masking of bearer tokens and of generic secrets on, so that
    it never gives the development configuration; an option that is given
    is taken as it is, [false] and a depth of zero included.  Without
    options and in production it gives the default configuration, which is
    the one [maskSensitive] masks with when it is given none. *)
Theorem secure_logging_keeps_token_masking (NODE_ENV : option string)
    (options : SecureLoggingOptions)
    (maskWithConfig : string -> MaskingConfig -> string) (content : string) :
  maskBearerTokens (configureSecureLogging NODE_ENV options) = true
  /\ maskGenericSecrets (configureSecureLogging NODE_ENV options) = true
  /\ configureSecureLogging NODE_ENV options <> DEVELOPMENT_MASKING_CONFIG
  /\ (forall b, opt_enabled options = Some b ->
                enabled (configureSecureLogging NODE_ENV options) = b)
  /\ (forall b, opt_maskApiKeys options = Some b ->
                maskApiKeys (configureSecureLogging NODE_ENV options) = b)
  /\ (forall b, opt_maskPasswords options = Some b ->
                maskPasswords (configureSecureLogging NODE_ENV options) = b)
  /\ (forall b, opt_maskEmails options = Some b ->
                maskEmails (configureSecureLogging NODE_ENV options) = b)
  /\ (forall b, opt_maskSSNs options = Some b ->
                maskSSNs (configureSecureLogging NODE_ENV options) = b)
  /\ (forall b, opt_maskPrivateKeys options = Some b ->
                maskPrivateKeys (configureSecureLogging NODE_ENV options) = b)
  /\ (forall b, opt_maskJWTs options = Some b ->
                maskJWTs (configureSecureLogging NODE_ENV options) = b)
  /\ (forall b, opt_maskBase64Blobs options = Some b ->
                maskBase64Blobs (configureSecureLogging NODE_ENV options) = b)
  /\ (forall d, opt_maxDepth options = Some d ->
                maxDepth (configureSecureLogging NODE_ENV options) = d)
  /\ configureSecureLogging (Some "production") no_options = DEFAULT_MASKING_CONFIG
  /\ maskSensitive maskWithConfig content None
     = maskWithConfig content (configureSecureLogging (Some "production") no_options).
Proof.
  repeat split; try (intros b H; simpl; now rewrite H).
  intros H. apply (f_equal maskBearerTokens) in H. discriminate H.
Qed.

End LoggingConfig.

(** ** The prompts of the MCP server *)

Module McpPrompts.
Import Regex RegexLaws.

(** [\w] *)
Definition word (c : ascii) : bool :=
  let n := Str.code c in
  ((65 <=? n) && (n <=? 90)) || ((97 <=? n) && (n <=? 122))
  || ((48 <=? n) && (n <=? 57)) || (n =? 95).

(** [/\$\{(\w+)\}/g]; the flag [g] is what [replace_all] below does. *)
Definition placeholder : RegExp :=
  {| source :=
       Seq (Char (just "$"%char))
      (Seq (Char (just "{"%char))
      (Seq (Group 1 (Repeat true 1 None (Char word)))
           (Char (just "}"%char))));
     ignoreCase := false;
     multiline := false |}.

(** [s.replace(re, replacer)] for a [RegExp] with the flag [g] and a
    function [replacer], from the position with [prefix] behind it: the
    text up to the next match, what [replacer] makes of the match, and the
    same for what follows the match.  After an empty match the next
    character is copied.  Every round takes a character or ends, so
    [fuel] above the length of [input] never cuts the work short. *)
Fixpoint replace_from (re : RegExp) (replacer : MatchResult -> string) (fuel : nat)
    (prefix input : list ascii) : string :=
  match fuel with
  | 0 => Str.of_list input
  | S fuel' =>
      match search re prefix input with
      | None => Str.of_list input
      | Some (from, to) =>
          let m := {| preceding := Str.of_list (rev (before from));
                      matched := Str.of_list (consumed from to);
                      following := Str.of_list (rest to);
                      groups := captures to |} in
          let skipped :=
            consumed {| before := prefix; rest := input; captures := [] |} from in
          Str.of_list skipped +:+ replacer m +:+
          match consumed from to, rest to with
          | [], c :: cs => String c (replace_from re replacer fuel' (c :: before to) cs)
          | [], [] => ""
          | _, _ => replace_from re replacer fuel' (before to) (rest to)
          end
      end
  end.

Definition replace_all (re : RegExp) (replacer : MatchResult -> string) (s : string)
  : string :=
  replace_from re replacer (S (String.length s)) [] (Str.to_list s).

(** [s.includes(part)] *)
Fixpoint starts_with (part s : list ascii) : bool :=
  match part, s with
  | [], _ => true
  | p :: part', c :: s' => Ascii.eqb p c && starts_with part' s'
  | _ :: _, [] => false
  end.

Fixpoint includes_from (part s : list ascii) : bool :=
  starts_with part s
  || match s with
     | [] => false
     | _ :: s' => includes_from part s'
     end.

Definition includes (s part : string) : bool :=
  includes_from (Str.to_list part) (Str.to_list s).

Section Fill.

(** What a plain object inherits under a name, as the text that [replace]
    makes of it; none for most names. *)
Variable inherited : string -> option string.

(** [args[key]] *)
Definition lookup (args : list (string * string)) (key : string) : option string :=
  match Props.get key args with
  | Some v => Some v
  | None => inherited key
  end.

(** The replacer of [fillTemplate]: [args[key] || `[${key}]`]. *)
Definition value_of (args : list (string * string)) (key : string) : string :=
  Chat.or_else (lookup args key) ("[" +:+ key +:+ "]").

(** [fillTemplate] (mcp/prompts/index.ts, lines 55-59). *)
Definition fillTemplate (template : string) (args : list (string * string)) : string :=
  replace_all placeholder
    (fun m => value_of args (default "undefined" (group 1 m)))
    template.

(** [!v] for an [args[key]] *)
Definition missing (v : option string) : bool :=
  match v with
  | Some s => String.eqb s ""
  | None => true
  end.

(** An argument of a prompt (mcp/prompts/index.ts, lines 64-109). *)
Record McpPromptArgument : Type := {
  argument_name : string;
  argument_description : string;
  required : bool
}.

Record McpPrompt : Type := {
  prompt_name : string;
  prompt_description : string;
  arguments : list McpPromptArgument
}.

(** [getPrompts] (lines 64-109). *)
Definition getPrompts : list McpPrompt :=
  [ {| prompt_name := "create_and_execute";
       prompt_description := "Create a new prompt structure and execute it";
       arguments :=
         [ {| argument_name := "promptName";
              argument_description := "Name of the prompt to create";
              required := true |};
           {| argument_name := "model";
              argument_description :=
                "Model to use for execution (e.g., gpt-4, claude-3-opus)";
              required := false |};
           {| argument_name := "path";
              argument_description := "Path where to create the prompt";
              required := false |} ] |};
    {| prompt_name := "process_and_export";
       prompt_description := "Process an existing prompt and export to different format";
       arguments :=
         [ {| argument_name := "promptPath";
              argument_description := "Path to the prompt directory or file";
              required := true |};
           {| argument_name := "model";
              argument_description := "Model to format for";
              required := false |};
           {| argument_name := "format";
              argument_description := "Output format (text, json, xml)";
              required := false |} ] |} ].

(** [{ role: 'user', content: { type: 'text', text } }] *)
Record McpPromptMessage : Type := {
  message_role : string;
  content_type : string;
  content_text : string
}.

(** Where the module is, Node's [path.resolve] and [readFile]. *)
Variables __dirname __filename : string.
Variable resolve : string -> string -> string.
Variable readFile : string -> Loader.outcome string.

(** [getPromptsDir] (lines 23-36). *)
Definition getPromptsDir : string :=
  let isBundled :=
    includes __dirname "/dist" || Str.endsWith __dirname "dist"
    || includes __filename "dist/mcp-server.js"
    || includes __filename "dist\mcp-server.js" in
  if isBundled then resolve __dirname "mcp/prompts" else __dirname.

(** [loadTemplate] (lines 41-50); the error read is printed as [Error: ]
    and its message. *)
Definition loadTemplate (name : string) : Loader.outcome string :=
  let promptsDir := getPromptsDir in
  let path := resolve promptsDir (name +:+ ".md") in
  match readFile path with
  | Loader.Ok content => Loader.Ok (Str.trim content)
  | Loader.Throw error =>
      Loader.Throw
        {| Loader.message :=
             "Failed to load prompt template " +:+ JSON.dquote +:+ name +:+ JSON.dquote
             +:+ " from " +:+ path +:+ ": "
             +:+ (if String.eqb (Loader.message error) "" then "Error"
                  else "Error: " +:+ Loader.message error) |}
  end.

(** [if (!filledArgs[key]) filledArgs[key] = value] *)
Definition or_default (key value : string) (filledArgs : list (string * string))
  : list (string * string) :=
  if missing (lookup filledArgs key) then Props.set key value filledArgs else filledArgs.

(** [getPrompt] (lines 114-149). *)
Definition getPrompt (name : string) (args : list (string * string))
  : Loader.outcome (list McpPromptMessage) :=
  match List.find (fun p => String.eqb (prompt_name p) name) getPrompts with
  | None => Loader.Throw {| Loader.message := "Unknown prompt: " +:+ name |}
  | Some _ =>
      match loadTemplate name with
      | Loader.Throw e => Loader.Throw e
      | Loader.Ok template =>
          let filledArgs := args in
          let filledArgs :=
            if String.eqb name "create_and_execute"
            then or_default "path" "current directory"
                   (or_default "model" "gpt-4" filledArgs)
            else filledArgs in
          let filledArgs :=
            if String.eqb name "process_and_export"
            then or_default "format" "text" (or_default "model" "gpt-4" filledArgs)
            else filledArgs in
          let content := fillTemplate template filledArgs in
          Loader.Ok [ {| message_role := "user";
                         content_type := "text";
                         content_text := content |} ]
      end
  end.

End Fill.

(** The text made of lines. *)
Definition lines (ls : list string) : string := JSON.join JSON.nl ls.

(** The template [process_and_export.md] of the prompts directory,
    trimmed. *)
Definition process_and_export_segments : list (string * string) :=
  [ (lines [ "# Process and Export a Prompt"; "";
             "I need to process an existing prompt and export it to a different format.";
             ""; "## Steps"; "";
             "1. Use `riotprompt_process` to load and process the prompt at " ],
     "promptPath");
    (lines [ ""; "2. Format it for " ], "model");
    (lines [ " (if specified)"; "3. Export to " ], "format");
    (lines [ " format"; ""; "## Details"; ""; "- Prompt path: " ], "promptPath");
    (lines [ ""; "- Model: " ], "model");
    (lines [ ""; "- Output format: " ], "format") ].

Definition process_and_export_last : string :=
  lines [ ""; ""; "Please help me process and export this prompt." ].

(** The values that [getPrompt] falls back on. *)
Definition defaults (name : string) : list (string * string) :=
  if String.eqb name "create_and_execute"
  then [("model", "gpt-4"); ("path", "current directory")]
  else if String.eqb name "process_and_export"
  then [("model", "gpt-4"); ("format", "text")]
  else [].

(** A template written as texts with a placeholder after each, and a last
    text. *)
Fixpoint render (segments : list (string * string)) (last : string) : string :=
  match segments with
  | [] => last
  | (text, key) :: segments' =>
      text +:+ ("${" +:+ (key +:+ ("}" +:+ render segments' last)))
  end.

(** The texts, with a value in the place of each placeholder. *)
Fixpoint filled (value : string -> string) (segments : list (string * string))
    (last : string) : string :=
  match segments with
  | [] => last
  | (text, key) :: segments' => text +:+ (value key +:+ filled value segments' last)
  end.

Definition no_dollar (s : string) : bool :=
  forallb (fun c => negb (Ascii.eqb c "$")) (Str.to_list s).

(** A text without [$], followed by a name made of word characters. *)
Definition plain (segment : string * string) : bool :=
  no_dollar (fst segment)
  && negb (String.eqb (snd segment) "")
  && forallb word (Str.to_list (snd segment)).

(** The module run from source, under [/app/src/mcp/prompts]. *)
Definition source_readFile (path : string) : Loader.outcome string :=
  if String.eqb path "/app/src/mcp/prompts/process_and_export.md"
  then Loader.Ok (render process_and_export_segments process_and_export_last +:+ JSON.nl)
  else Loader.Throw {| Loader.message := "ENOENT: no such file or directory, open "
                                         +:+ path |}.

Lemma run_placeholder_none st k :
  match rest st with c :: _ => Ascii.eqb c "$" | [] => false end = false ->
  run placeholder (source placeholder) st k = None.
Proof.
  intros H. unfold placeholder at 2. cbn [source]. rewrite run_Seq, run_Char.
  destruct (rest st) as [|c cs]; [reflexivity|].
  change (in_class placeholder (just "$") c) with (Ascii.eqb c "$"). now rewrite H.
Qed.

Lemma search_skip text :
  forall prefix input,
    forallb (fun c => negb (Ascii.eqb c "$")) text = true ->
    search placeholder prefix (text ++ input)
    = search placeholder (rev text ++ prefix) input.
Proof.
  induction text as [|c text IH]; intros prefix input H; [reflexivity|].
  simpl in H. apply andb_true_iff in H as [Hc H].
  change ((c :: text) ++ input) with (c :: (text ++ input)). cbn [search].
  rewrite run_placeholder_none by (cbn [rest]; now apply negb_true_iff).
  rewrite IH by exact H. simpl. now rewrite <- app_assoc.
Qed.

Lemma search_no_dollar text prefix :
  forallb (fun c => negb (Ascii.eqb c "$")) text = true ->
  search placeholder prefix text = None.
Proof.
  intros H. rewrite <- (app_nil_r text), search_skip by exact H.
  cbn [search]. now rewrite run_placeholder_none.
Qed.

Lemma run_placeholder_here key tl b :
  key <> [] ->
  forallb word key = true ->
  run placeholder (source placeholder)
    {| before := b; rest := "$"%char :: "{"%char :: key ++ "}"%char :: tl;
       captures := [] |} Some
  = Some {| before := rev ("$"%char :: "{"%char :: key ++ ["}"%char]) ++ b;
            rest := tl;
            captures := [(1, key)] |}.
Proof.
  intros Hne Hkey. unfold placeholder at 2. cbn [source].
  rewrite run_Seq, run_Char. cbn [rest].
  change (in_class placeholder (just "$") "$") with true. cbv iota.
  rewrite run_Seq, run_Char. unfold advance at 1. cbn [rest before captures].
  change (in_class placeholder (just "{") "{") with true. cbv iota.
  rewrite run_Seq, run_Group, run_Repeat. unfold advance at 1. cbn [rest before captures].
  apply greedy_class.
  - exact Hkey.
  - reflexivity.
  - exact I.
  - destruct key; [contradiction|]. simpl. lia.
  - unfold advance. cbn [rest]. rewrite length_app. lia.
  - unfold capture. cbn [before rest captures]. rewrite consumed_app.
    rewrite run_Char. cbn [rest].
    change (in_class placeholder (just "}") "}") with true. cbv iota.
    unfold advance. cbn [before rest captures]. f_equal. f_equal.
    simpl. rewrite !rev_app_distr. simpl. now rewrite <- !app_assoc.
Qed.

Lemma to_list_render text key segments last :
  Str.to_list (render ((text, key) :: segments) last)
  = Str.to_list text
    ++ "$"%char :: "{"%char :: Str.to_list key
    ++ "}"%char :: Str.to_list (render segments last).
Proof. cbn [render]. now rewrite !Str.to_list_app. Qed.

Lemma length_render segments last :
  length segments <= String.length (render segments last).
Proof.
  induction segments as [|[text key] segments IH]; simpl; [lia|].
  rewrite <- !length_to_list, !Str.to_list_app, !length_app in *. simpl. lia.
Qed.

Lemma replace_from_render value segments last :
  forallb plain segments = true ->
  no_dollar last = true ->
  forall fuel prefix,
    length segments < fuel ->
    replace_from placeholder (fun m => value (default "undefined" (group 1 m)))
      fuel prefix (Str.to_list (render segments last))
    = filled value segments last.
Proof.
  intros Hs Hl. induction segments as [|[text key] segments IH]; intros fuel prefix Hf.
  - destruct fuel as [|fuel]; [simpl in Hf; lia|]. cbn [render replace_from filled].
    rewrite search_no_dollar by exact Hl. apply Str.of_to_list.
  - destruct fuel as [|fuel]; [simpl in Hf; lia|].
    cbn [forallb] in Hs. apply andb_true_iff in Hs as [Hp Hs].
    unfold plain in Hp. cbn [fst snd] in Hp.
    apply andb_true_iff in Hp as [Hp Hw]. apply andb_true_iff in Hp as [Ht Hk].
    assert (Hne : Str.to_list key <> []).
    { intros E. apply negb_true_iff in Hk.
      rewrite <- (Str.of_to_list key), E in Hk. discriminate. }
    rewrite to_list_render. cbn [replace_from filled].
    rewrite search_skip by exact Ht.
    rewrite (search_here _ _ _ _ (run_placeholder_here _ _ _ Hne Hw)).
    cbn [before rest captures].
    rewrite !consumed_app. rewrite Str.of_to_list.
    unfold group. cbn [groups List.find fst snd Nat.eqb default].
    rewrite Str.of_to_list.
    cbn [app]. rewrite IH; [reflexivity | exact Hs | simpl in Hf; lia].
Qed.

Lemma fillTemplate_render inherited segments last args :
  forallb plain segments = true ->
  no_dollar last = true ->
  fillTemplate inherited (render segments last) args
  = filled (value_of inherited args) segments last.
Proof.
  intros Hs Hl. unfold fillTemplate, replace_all.
  apply replace_from_render; [exact Hs | exact Hl |].
  pose proof (length_render segments last). lia.
Qed.

Lemma filled_ext (f g : string -> string) segments last :
  (forall key, f key = g key) -> filled f segments last = filled g segments last.
Proof.
  intros H. induction segments as [|[text key] segments IH]; simpl; [reflexivity|].
  now rewrite H, IH.
Qed.

Lemma value_of_or_default inherited k d args key :
  inherited k = None ->
  d <> "" ->
  value_of inherited (or_default inherited k d args) key
  = if String.eqb k key then Chat.or_else (Props.get k args) d
    else value_of inherited args key.
Proof.
  intros Hi Hd. unfold value_of, or_default, lookup.
  destruct (String.eqb_spec k key) as [<-|Hne].
  - rewrite Hi. destruct (Props.get k args) as [v|] eqn:Eg; simpl.
    + destruct (String.eqb_spec v "") as [->|Hv].
      * rewrite Props.get_set_eq. simpl. now destruct (String.eqb_spec d "").
      * rewrite Eg. simpl. now destruct (String.eqb_spec v "").
    + rewrite Props.get_set_eq. simpl. now destruct (String.eqb_spec d "").
  - destruct (missing _); [|reflexivity]. now rewrite Props.get_set_ne.
Qed.

Lemma get_or_default inherited k d args key :
  k <> key -> Props.get key (or_default inherited k d args) = Props.get key args.
Proof.
  intros Hne. unfold or_default. destruct (missing _); [|reflexivity].
  now apply Props.get_set_ne.
Qed.

(** X22.  A template made of texts without [$], each followed by a placeholder
    [${key}] whose key is made of word characters, and of a last text
    without [$]: [fillTemplate] gives the texts with, in the place of each
    placeholder, the argument of that name or, when there is none or it is
    empty, the name in square brackets.  A template without [$] is
    returned as it is. *)
Theorem fillTemplate_fills_each_placeholder (inherited : string -> option string)
    (segments : list (string * string)) (last : string) (args : list (string * string)) :
  forallb plain segments = true ->
  no_dollar last = true ->
  fillTemplate inherited (render segments last) args
  = filled (value_of inherited args) segments last.
Proof. apply fillTemplate_render. Qed.

(** The template of [process_and_export], with a path and no model. *)
Lemma fillTemplate_process_and_export :
  fillTemplate (fun _ => None)
    (render process_and_export_segments process_and_export_last)
    [("promptPath", "./my-prompt"); ("model", "")]
  = filled (value_of (fun _ => None) [("promptPath", "./my-prompt"); ("model", "")])
      process_and_export_segments process_and_export_last.
Proof.
  apply (fillTemplate_fills_each_placeholder (fun _ => None)
           process_and_export_segments process_and_export_last).
  - reflexivity.
  - reflexivity.
Defined.

(** X23.  [getPrompt] fails for a name that is not one of the two prompts,
    whatever the files.  For one of the two, with a template made as
    above, it gives one user message: the texts of the template with, in
    the place of each placeholder, the argument of that name; where that
    is absent or empty, the model is [gpt-4], the path [current directory]
    (for [create_and_execute]) and the format [text] (for
    [process_and_export]), and any other name stands in square
    brackets. *)
Theorem getPrompt_fills_with_defaults (inherited : string -> option string)
    (__dirname __filename : string) (resolve : string -> string -> string)
    (readFile : string -> Loader.outcome string)
    (name : string) (args : list (string * string)) :
  (name <> "create_and_execute" -> name <> "process_and_export" ->
   getPrompt inherited __dirname __filename resolve readFile name args
   = Loader.Throw {| Loader.message := "Unknown prompt: " +:+ name |})
  /\ (forall segments last,
        name = "create_and_execute" \/ name = "process_and_export" ->
        loadTemplate __dirname __filename resolve readFile name
          = Loader.Ok (render segments last) ->
        forallb plain segments = true ->
        no_dollar last = true ->
        (forall key, In key (map fst (defaults name)) -> inherited key = None) ->
        getPrompt inherited __dirname __filename resolve readFile name args
        = Loader.Ok
            [ {| message_role := "user";
                 content_type := "text";
                 content_text :=
                   filled (fun key =>
                             match Props.get key (defaults name) with
                             | Some value => Chat.or_else (Props.get key args) value
                             | None => value_of inherited args key
                             end)
                          segments last |} ]).
Proof.
  split.
  - intros H1 H2. unfold getPrompt. cbn [List.find getPrompts prompt_name].
    destruct (String.eqb_spec "create_and_execute" name); [congruence|].
    destruct (String.eqb_spec "process_and_export" name); [congruence|].
    reflexivity.
  - intros segments last Hname Hload Hs Hl Hi. unfold getPrompt. rewrite Hload.
    assert (Hf : exists p, List.find (fun p => String.eqb (prompt_name p) name) getPrompts
                           = Some p)
      by (destruct Hname as [-> | ->]; eexists; reflexivity).
    destruct Hf as [p ->].
    destruct Hname as [-> | ->].
    + rewrite String.eqb_refl.
      change (String.eqb "create_and_execute" "process_and_export") with false.
      cbv beta iota zeta. do 3 f_equal.
      rewrite fillTemplate_render by assumption. apply filled_ext. intros key.
      rewrite value_of_or_default; [|apply Hi; simpl; tauto|discriminate].
      rewrite get_or_default by discriminate.
      rewrite value_of_or_default; [|apply Hi; simpl; tauto|discriminate].
      change (defaults "create_and_execute")
        with [("model", "gpt-4"); ("path", "current directory")].
      cbn [Props.get fst snd].
      destruct (String.eqb_spec "path" key) as [<-|]; [reflexivity|].
      destruct (String.eqb_spec "model" key) as [<-|]; reflexivity.
    + rewrite String.eqb_refl.
      change (String.eqb "process_and_export" "create_and_execute") with false.
      cbv beta iota zeta. do 3 f_equal.
      rewrite fillTemplate_render by assumption. apply filled_ext. intros key.
      rewrite value_of_or_default; [|apply Hi; simpl; tauto|discriminate].
      rewrite get_or_default by discriminate.
      rewrite value_of_or_default; [|apply Hi; simpl; tauto|discriminate].
      change (defaults "process_and_export") with [("model", "gpt-4"); ("format", "text")].
      cbn [Props.get fst snd].
      destruct (String.eqb_spec "format" key) as [<-|]; [reflexivity|].
      destruct (String.eqb_spec "model" key) as [<-|]; reflexivity.
Qed.

(** [process_and_export] for a path and nothing else. *)
Lemma getPrompt_process_and_export :
  getPrompt (fun _ => None) "/app/src/mcp/prompts" "/app/src/mcp/prompts/index.ts"
    (fun dir file => dir +:+ "/" +:+ file) source_readFile
    "process_and_export" [("promptPath", "./my-prompt")]
  = Loader.Ok
      [ {| message_role := "user";
           content_type := "text";
           content_text :=
             filled (fun key =>
                       match Props.get key (defaults "process_and_export") with
                       | Some value =>
                           Chat.or_else (Props.get key [("promptPath", "./my-prompt")]) value
                       | None =>
                           value_of (fun _ => None) [("promptPath", "./my-prompt")] key
                       end)
                    process_and_export_segments process_and_export_last |} ].
Proof.
  apply (proj2 (getPrompt_fills_with_defaults (fun _ => None)
                  "/app/src/mcp/prompts" "/app/src/mcp/prompts/index.ts"
                  (fun dir file => dir +:+ "/" +:+ file) source_readFile
                  "process_and_export" [("promptPath", "./my-prompt")])).
  - now right.
  - vm_compute. reflexivity.
  - reflexivity.
  - reflexivity.
  - intros key _. reflexivity.
Defined.

End McpPrompts.
